(** * Use-NFT [src/utils.tsx]: a shallow embedding and its properties

    The module normalises NFT metadata and media URLs.  This file embeds
    the functions of [src/utils.tsx] as Rocq functions and proves the
    properties stated about them.

    Conventions of the embedding:
    - a JavaScript string is a Rocq [string], read as a sequence of UTF-16
      code units below 256 (the Latin-1 range);
    - the numbers [frameImage] computes with are IEEE doubles ([float]);
      a number inside a JSON-like value is an exact rational ([Q]);
    - a JavaScript value is a [value]; objects are finite maps from
      property names to values;
    - code that can raise returns a [completion];
    - a regular expression literal is a [regex] syntax tree run by a
      backtracking matcher with the priorities of ECMAScript;
    - the platform's [URL] class and the canvas are interfaces
      ([UrlApi], [Document]). *)

From Stdlib Require Import ZArith QArith Ascii String Lia Bool List Floats.
From stdpp Require Import base gmap strings list.

Set Warnings "-register-all".
Set Default Proof Using "Type".

(* ================================================================== *)
(** * Part I: definitions *)
(* ================================================================== *)

(** ** Strings *)

Module Str.

Abbreviation len := String.length.

Fixpoint take (n : nat) (s : string) : string :=
  match n, s with
  | S n', String c s' => String c (take n' s')
  | _, _ => ""
  end.

Fixpoint drop (n : nat) (s : string) : string :=
  match n, s with
  | S n', String _ s' => drop n' s'
  | _, _ => s
  end.

(** [strip_prefix p s] is [Some s'] when [s = p +:+ s']. *)
Fixpoint strip_prefix (p s : string) : option string :=
  match p, s with
  | "", _ => Some s
  | String a p', String b s' =>
      if Ascii.eqb a b then strip_prefix p' s' else None
  | String _ _, "" => None
  end.

Definition starts_with (p s : string) : bool :=
  match strip_prefix p s with Some _ => true | None => false end.

(** [String.prototype.includes]. *)
Fixpoint includes (s sub : string) : bool :=
  starts_with sub s ||
  match s with
  | "" => false
  | String _ s' => includes s' sub
  end.

Fixpoint forallb (p : ascii → bool) (s : string) : bool :=
  match s with
  | "" => true
  | String c s' => p c && forallb p s'
  end.

Definition code (c : ascii) : nat := nat_of_ascii c.

(** Lower-casing of one code unit of the Latin-1 range: A-Z, and
    U+00C0-U+00DE without U+00D7, move up by 32. *)
Definition lower_char (c : ascii) : ascii :=
  let n := code c in
  if ((65 <=? n) && (n <=? 90))
     || ((192 <=? n) && (n <=? 222) && negb (n =? 215))
  then ascii_of_nat (n + 32) else c.

(** [String.prototype.toLowerCase]. *)
Fixpoint toLowerCase (s : string) : string :=
  match s with
  | "" => ""
  | String c s' => String (lower_char c) (toLowerCase s')
  end.

End Str.

(** ** Regular expressions *)

Module RegExp.

(** A character set: [[a-f0-9]] is [Only], [[^/]] is [Except]; a single
    character is the range from itself to itself. *)
Inductive cset :=
| Only (ranges : list (ascii * ascii))
| Except (ranges : list (ascii * ascii)).

Definition in_range (c : ascii) (r : ascii * ascii) : bool :=
  (Str.code r.1 <=? Str.code c) && (Str.code c <=? Str.code r.2).

Definition mem (cs : cset) (c : ascii) : bool :=
  match cs with
  | Only rs => existsb (in_range c) rs
  | Except rs => negb (existsb (in_range c) rs)
  end.

(** [.] without the [s] flag: anything but a line terminator (of the
    four, LF and CR are below 256). *)
Definition dot : cset := Except [("010", "010"); ("013", "013")]%char.

Inductive regex :=
| Lit (s : string)                              (* literal characters *)
| Rep (cs : cset) (min : nat) (max : option nat) (* cs{min,max}, greedy *)
| Seq (r1 r2 : regex)
| Opt (r : regex)                               (* r?, greedy *)
| Group (n : nat) (r : regex)                   (* n-th capturing group *)
| Bol                                           (* ^ *)
| Eol.                                          (* $ *)

(** [captures !! 0] is the whole match, [captures !! n] the n-th group;
    [None] inside is JavaScript's [undefined]. *)
Definition captures := list (option string).

Definition below (max : option nat) (n : nat) : bool :=
  match max with
  | None => true
  | Some m => n <? m
  end.

(** Greedy repetition of a character set: take as many characters as
    allowed, then give them back one by one until the continuation
    succeeds.  [n] counts the characters taken, [i] is the position. *)
Fixpoint rep {R} (cs : cset) (min : nat) (max : option nat) (n i : nat)
    (s : string) (k : nat → string → option R) : option R :=
  let stop := if min <=? n then k i s else None in
  match s with
  | String c s' =>
      if mem cs c && below max n
      then match rep cs min max (S n) (S i) s' k with
           | Some r => Some r
           | None => stop
           end
      else stop
  | "" => stop
  end.

(** The backtracking matcher, in continuation-passing style: [i] is the
    position of [s] in the input. *)
Fixpoint rmatch {R} (r : regex) (i : nat) (s : string) (caps : captures)
    (k : nat → string → captures → option R) : option R :=
  match r with
  | Lit p =>
      match Str.strip_prefix p s with
      | Some s' => k (i + Str.len p) s' caps
      | None => None
      end
  | Rep cs min max => rep cs min max 0 i s (λ i' s', k i' s' caps)
  | Seq a b => rmatch a i s caps (λ i' s' caps', rmatch b i' s' caps' k)
  | Opt a =>
      match rmatch a i s caps k with
      | Some x => Some x
      | None => k i s caps
      end
  | Group n a =>
      rmatch a i s caps
        (λ i' s' caps', k i' s' (<[n := Some (Str.take (i' - i) s)]> caps'))
  | Bol => if i =? 0 then k i s caps else None
  | Eol => match s with "" => k i s caps | String _ _ => None end
  end.

Record RegExp := { source : regex; ngroups : nat }.

Record MatchResult := { index : nat; lastIndex : nat; groups : captures }.

(** One attempt at position [i]. *)
Definition match_at (re : RegExp) (i : nat) (s : string) : option MatchResult :=
  rmatch (source re) i s (replicate (S (ngroups re)) None)
    (λ j _ caps,
       Some {| index := i; lastIndex := j;
               groups := <[0 := Some (Str.take (j - i) s)]> caps |}).

Fixpoint exec_from (re : RegExp) (i : nat) (s : string) : option MatchResult :=
  match match_at re i s with
  | Some m => Some m
  | None =>
      match s with
      | "" => None
      | String _ s' => exec_from re (S i) s'
      end
  end.

(** [RegExp.prototype.exec] and [test] of a regular expression without
    the [g] and [y] flags: the leftmost match. *)
Definition exec (re : RegExp) (s : string) : option MatchResult :=
  exec_from re 0 s.

Definition test (re : RegExp) (s : string) : bool :=
  match exec re s with Some _ => true | None => false end.

(** [m[n]] of a match array. *)
Definition group (m : MatchResult) (n : nat) : option string :=
  mjoin (groups m !! n).

Definition is_digit (c : ascii) : bool :=
  (48 <=? Str.code c) && (Str.code c <=? 57).

Definition digit_val (c : ascii) : nat := Str.code c - 48.

Section Substitution.
(** GetSubstitution of ECMAScript, for a match [matched] found at
    [position] of [str] with captures [caps] (no named groups). *)
Variables (matched str : string) (position : nat) (caps : captures).

Definition capture (n : nat) : string := default "" (mjoin (caps !! n)).
Definition has_capture (n : nat) : bool :=
  (1 <=? n) && (n <? List.length caps).

Fixpoint GetSubstitution (replacement : string) : string :=
  match replacement with
  | "" => ""
  | String c r =>
      if Ascii.eqb c "$"%char then
        match r with
        | "" => "$"
        | String d1 r' =>
            if Ascii.eqb d1 "$"%char then "$" +:+ GetSubstitution r'
            else if Ascii.eqb d1 "&"%char then matched +:+ GetSubstitution r'
            else if Ascii.eqb d1 "`"%char
            then Str.take position str +:+ GetSubstitution r'
            else if Ascii.eqb d1 "'"%char
            then Str.drop (position + Str.len matched) str
                   +:+ GetSubstitution r'
            else if is_digit d1 then
              match r' with
              | String d2 r'' =>
                  if is_digit d2
                     && has_capture (10 * digit_val d1 + digit_val d2)
                  then capture (10 * digit_val d1 + digit_val d2)
                         +:+ GetSubstitution r''
                  else if has_capture (digit_val d1)
                  then capture (digit_val d1) +:+ GetSubstitution r'
                  else "$" +:+ String d1 (GetSubstitution r')
              | "" =>
                  if has_capture (digit_val d1)
                  then capture (digit_val d1)
                  else "$" +:+ String d1 ""
              end
            else "$" +:+ GetSubstitution r
        end
      else String c (GetSubstitution r)
  end.
End Substitution.

(** [String.prototype.replace] with a regular expression that has the
    [g] flag and a string as replacement.  [skip] counts the characters
    of the current match still to be passed over. *)
Fixpoint replace_go (re : RegExp) (replacement str : string)
    (skip i : nat) (s : string) : string :=
  match skip with
  | S skip' =>
      match s with
      | String _ s' => replace_go re replacement str skip' (S i) s'
      | "" => ""
      end
  | 0 =>
      match match_at re i s with
      | Some m =>
          let n := lastIndex m - i in
          let out := GetSubstitution (Str.take n s) str i (groups m) replacement in
          match s with
          | String c s' =>
              if n =? 0
              then out +:+ String c (replace_go re replacement str 0 (S i) s')
              else out +:+ replace_go re replacement str (n - 1) (S i) s'
          | "" => out
          end
      | None =>
          match s with
          | String c s' => String c (replace_go re replacement str 0 (S i) s')
          | "" => ""
          end
      end
  end.

Definition replace_all (re : RegExp) (str replacement : string) : string :=
  replace_go re replacement str 0 0 str.

End RegExp.

Import RegExp.

(** ** JavaScript values and completions *)

Inductive value :=
| VUndefined
| VNull
| VBool (b : bool)
| VNum (q : Q)
| VStr (s : string)
| VArr (l : list value)
| VObj (o : gmap string value).

Inductive JsError := TypeError.

(** The outcome of evaluating code that may raise. *)
Inductive completion (A : Type) :=
| Return (a : A)
| Throw (e : JsError).
Arguments Return {A} a.
Arguments Throw {A} e.

#[global] Instance completion_ret : MRet completion := λ A a, Return a.
#[global] Instance completion_bind : MBind completion := λ A B f c,
  match c with
  | Return a => f a
  | Throw e => Throw e
  end.

(** [try { body } catch (err) { handler }]. *)
Definition try_catch {A} (body : completion A) (handler : JsError → completion A)
    : completion A :=
  match body with
  | Return a => Return a
  | Throw e => handler e
  end.

Definition nullish (v : value) : bool :=
  match v with
  | VUndefined | VNull => true
  | _ => false
  end.

(** ToBoolean. *)
Definition truthy (v : value) : bool :=
  match v with
  | VUndefined | VNull => false
  | VBool b => b
  | VNum q => negb (Qeq_bool q 0%Q)
  | VStr s => negb (String.eqb s "")
  | VArr _ | VObj _ => true
  end.

Definition typeof (v : value) : string :=
  match v with
  | VUndefined => "undefined"
  | VNull | VArr _ | VObj _ => "object"
  | VBool _ => "boolean"
  | VNum _ => "number"
  | VStr _ => "string"
  end.

(** [v.k] for the property names this module reads ([title], [type],
    [properties], [name], [image], [description], [imageUrl]): an object
    answers with its own property; arrays, strings, numbers and booleans
    have no property of these names, and neither has [Object.prototype];
    on [null] and [undefined] the access raises. *)
Definition get (v : value) (k : string) : completion value :=
  match v with
  | VUndefined | VNull => Throw TypeError
  | VObj o => Return (default VUndefined (o !! k))
  | _ => Return VUndefined
  end.

(** [v?.k]. *)
Definition get_opt (v : value) (k : string) : completion value :=
  if nullish v then Return VUndefined else get v k.

(** [k in v], for the same property names and an object or array [v]. *)
Definition has_property (v : value) (k : string) : bool :=
  match v with
  | VObj o => bool_decide (is_Some (o !! k))
  | _ => false
  end.

(** [v === "s"]. *)
Definition strict_eq_str (v : value) (s : string) : bool :=
  match v with
  | VStr t => String.eqb t s
  | _ => false
  end.

(** [a === b] where both sides are a string or [undefined]. *)
Definition strict_eq_opt_str (a b : value) : bool :=
  match a, b with
  | VStr s, VStr t => String.eqb s t
  | VUndefined, VUndefined => true
  | _, _ => false
  end.

(** [v.toLowerCase()]: only strings have the method. *)
Definition call_toLowerCase (v : value) : completion value :=
  match v with
  | VStr s => Return (VStr (Str.toLowerCase s))
  | _ => Throw TypeError
  end.

(** [v?.toLowerCase()]. *)
Definition opt_call_toLowerCase (v : value) : completion value :=
  if nullish v then Return VUndefined else call_toLowerCase v.

(** ** AddressUtils and NftUrlParser *)

Definition hex : cset :=
  Only [("a", "f"); ("A", "F"); ("0", "9")]%char.
Definition digit : cset := Only [("0", "9")]%char.

(** [/^https:\/\/rarible\.com\/token\/(0x[a-fA-F0-9]{40}):([0-9]+)/] *)
Definition RARIBLE_MATCH_RE : RegExp :=
  {| source :=
       Seq Bol
      (Seq (Lit "https://rarible.com/token/")
      (Seq (Group 1 (Seq (Lit "0x") (Rep hex 40 (Some 40))))
      (Seq (Lit ":")
           (Group 2 (Rep digit 1 None)))));
     ngroups := 2 |}.

(** [/^0x[a-fA-F0-9]{40}$/] *)
Definition ADDRESS_RE : RegExp :=
  {| source := Seq Bol (Seq (Lit "0x") (Seq (Rep hex 40 (Some 40)) Eol));
     ngroups := 0 |}.

Definition isAddress (value : string) : bool := test ADDRESS_RE value.

(** The pair holds [raribleMatch[1]] and [raribleMatch[2]]. *)
Definition parseNftUrl (url : string) : option (option string * option string) :=
  match exec RARIBLE_MATCH_RE url with
  | Some raribleMatch => Some (group raribleMatch 1, group raribleMatch 2)
  | None => None
  end.

Definition addressesEqual (addr1 addr2 : value) : completion bool :=
  a ← opt_call_toLowerCase addr1;
  b ← opt_call_toLowerCase addr2;
  Return (strict_eq_opt_str a b).

(** ** ImageFramer *)

(** A loaded image, as [fetchImage] resolves with: [naturalWidth] and
    [naturalHeight] are [unsigned long] attributes, and the image was
    fetched with CORS, so that a canvas it is drawn on can be exported. *)
Record HTMLImageElement := { naturalWidth : N; naturalHeight : N }.

(** The option bag [{ scale = 1, padding = 0 }]: an absent field takes
    its default. *)
Record FrameOptions := { scale : option float; padding : option float }.

Inductive DrawOp :=
| DrawImage (image : HTMLImageElement) (dx dy dw dh : float).

(** A canvas element: [width] and [height] are [unsigned long]
    attributes, the size of the raster surface. *)
Record Canvas := {
  canvas_width : Z;
  canvas_height : Z;
  imageSmoothingEnabled : bool;
  drawn : list DrawOp
}.

(** The host page: whether [canvas.getContext("2d")] yields a context,
    and the encoder behind [canvas.toDataURL()]. *)
Record Document := {
  getContext2d : bool;
  toDataURL : Canvas → string
}.

(** The number that an [unsigned long] is in an arithmetic expression;
    every integer below 2^53 is a double. *)
Definition num_of_N (n : N) : float := PrimFloat.of_uint63 (Uint63.of_Z (Z.of_N n)).

(** [Math.max] of two numbers: [NaN] when one of them is, and [+0]
    above [-0]. *)
Definition Math_max (a b : float) : float :=
  if PrimFloat.is_nan a || PrimFloat.is_nan b then PrimFloat.nan
  else if PrimFloat.ltb a b then b
  else if PrimFloat.ltb b a then a
  else if PrimFloat.is_zero a && PrimFloat.get_sign a then b
  else a.

(** The integer part of a number, towards zero; [0] for [NaN] and the
    infinities. *)
Definition IntegerPart (x : float) : Z :=
  match Prim2SF x with
  | S754_finite s m e =>
      let a := if (0 <=? e)%Z then (Z.pos m * 2 ^ e)%Z
               else (Z.pos m / 2 ^ (- e))%Z in
      if s then (- a)%Z else a
  | _ => 0%Z
  end.

(** Conversion of a number to the Web IDL type [unsigned long]. *)
Definition to_unsigned_long (x : float) : Z := (IntegerPart x mod 2 ^ 32)%Z.

(** [canvas.width = x] and [canvas.height = x]: the number is converted
    to [unsigned long]; a value up to 2^31 - 1 is stored, any other is
    replaced by the default of the attribute (300 and 150). *)
Definition set_dimension (default_value : Z) (x : float) : Z :=
  let n := to_unsigned_long x in
  if (n <=? 2147483647)%Z then n else default_value.

Definition frame_width (image : HTMLImageElement) (o : FrameOptions) : float :=
  (num_of_N (naturalWidth image) * default 1 (scale o))%float.
Definition frame_height (image : HTMLImageElement) (o : FrameOptions) : float :=
  (num_of_N (naturalHeight image) * default 1 (scale o))%float.
(** [_padding] *)
Definition frame_padding (image : HTMLImageElement) (o : FrameOptions) : float :=
  Math_max (frame_width image o * default 0 (padding o))%float
           (frame_height image o * default 0 (padding o))%float.

(** [ctx.drawImage(image, dx, dy, dw, dh)]: nothing is drawn when an
    argument is infinite or [NaN], or when the image has no pixels. *)
Definition drawImage (image : HTMLImageElement) (dx dy dw dh : float) : list DrawOp :=
  if PrimFloat.is_finite dx && PrimFloat.is_finite dy
     && PrimFloat.is_finite dw && PrimFloat.is_finite dh
     && negb (N.eqb (naturalWidth image) 0) && negb (N.eqb (naturalHeight image) 0)
  then [DrawImage image dx dy dw dh]
  else [].

(** The canvas as [frameImage] leaves it when a context is available. *)
Definition framed_canvas (image : HTMLImageElement) (o : FrameOptions) : Canvas :=
  let width := frame_width image o in
  let height := frame_height image o in
  let _padding := frame_padding image o in
  {| canvas_width := set_dimension 300 (width + _padding * 2)%float;
     canvas_height := set_dimension 150 (height + _padding * 2)%float;
     imageSmoothingEnabled := false;
     drawn := drawImage image _padding _padding width height |}.

Definition frameImage (document : Document) (image : HTMLImageElement)
    (o : FrameOptions) : option string :=
  if getContext2d document
  then Some (toDataURL document (framed_canvas image o))
  else None.

(** ** IpfsResolver *)

(** [(cid: string, path?: string) => string] *)
Definition IpfsUrlBuilder := string → option string → string.

Definition ipfsUrlDefault : IpfsUrlBuilder :=
  λ cid path, "https://ipfs.io/ipfs/" +:+ cid +:+ default "" path.

(** [[^/]] *)
Definition not_slash : cset := Except [("/", "/")]%char.

(** [/^ipfs:\/\/ipfs\/([^/]+)(\/.+)?$/] *)
Definition IPFS_PROTOCOL_RE : RegExp :=
  {| source :=
       Seq Bol
      (Seq (Lit "ipfs://ipfs/")
      (Seq (Group 1 (Rep not_slash 1 None))
      (Seq (Opt (Group 2 (Seq (Lit "/") (Rep dot 1 None))))
           Eol)));
     ngroups := 2 |}.

Definition base58 : cset :=
  Only [("1", "9"); ("A", "H"); ("J", "N"); ("P", "Z"); ("a", "k"); ("m", "z")]%char.

(** [/^Qm[1-9A-HJ-NP-Za-km-z]{44}$/] *)
Definition IPFS_HASH_RE : RegExp :=
  {| source := Seq Bol (Seq (Lit "Qm") (Seq (Rep base58 44 (Some 44)) Eol));
     ngroups := 0 |}.

(** The second parameter, shadowing the function's own name in the
    source, is called [builder] here. *)
Definition ipfsUrl_with (url : string) (builder : IpfsUrlBuilder) : string :=
  match exec IPFS_PROTOCOL_RE url with
  | Some ipfsProtocolMatch =>
      let cid := default "" (group ipfsProtocolMatch 1) in
      let path := default "" (group ipfsProtocolMatch 2) in
      builder cid (Some path)
  | None =>
      if test IPFS_HASH_RE url then builder url None else url
  end.

Definition ipfsUrl (url : string) : string := ipfsUrl_with url ipfsUrlDefault.

(** ** MarketplaceUrlNormalizer *)

(** The platform's [URL] class, as far as this module uses it.  A URL
    object is mutable; a setter returns the object after the assignment. *)
Class UrlApi := {
  URL : Type;
  URL_new : string → completion URL;          (* new URL(s) *)
  URL_host : URL → string;                    (* u.host *)
  URL_pathname : URL → string;                (* u.pathname *)
  URL_set_pathname : URL → string → URL;      (* u.pathname = p *)
  URL_searchParams_set : URL → string → string → URL;
                                              (* u.searchParams.set(k, v) *)
  URL_href : URL → string                     (* String(u) *)
}.

(** [/0x%7Bid%7D/g] *)
Definition OPENSEA_ID_RE : RegExp :=
  {| source := Lit "0x%7Bid%7D"; ngroups := 0 |}.

Section Normalizers.
Context `{UrlApi}.

Definition normalizeOpenSeaUrl (url tokenId : string) : completion string :=
  try_catch
    (_url ← URL_new url;
     if negb (String.eqb (URL_host _url) "api.opensea.io")
        || negb (Str.includes (URL_pathname _url) "0x%7Bid%7D")
     then Return url
     else
       let _url := URL_set_pathname _url
                     (replace_all OPENSEA_ID_RE (URL_pathname _url) tokenId) in
       let _url := URL_searchParams_set _url "format" "json" in
       Return (URL_href _url))
    (λ err, Return url).

Definition normalizeNiftyGatewayUrl (url : string) : completion string :=
  try_catch
    (_url ← URL_new url;
     if negb (String.eqb (URL_host _url) "api.niftygateway.com")
     then Return url
     else
       let _url := URL_set_pathname _url (URL_pathname _url +:+ "/") in
       Return (URL_href _url))
    (λ err, Return url).

Definition normalizeTokenUrl (url tokenId : string) : completion string :=
  url ← normalizeOpenSeaUrl url tokenId;
  url ← normalizeNiftyGatewayUrl url;
  Return (ipfsUrl url).
End Normalizers.

Definition normalizeImageUrl (url : string) : string := ipfsUrl url.

(** ** Metadata records *)

(** Modelled from the spec: the type [NftMetadata] of [./types] is not
    part of the sources at hand.  The spec describes it as a record with
    at least the fields [name], [description] and [image], the last one a
    URL string, and possibly further fields; as a JavaScript object it is
    a finite map from property names to values. *)
Definition is_NftMetadata_record (data : gmap string value) : Prop :=
  is_Some (data !! "name") ∧ is_Some (data !! "description")
  ∧ ∃ image, data !! "image" = Some (VStr image).

(** [normalizeImageUrl(data.image)] on the value of the field.  The field
    is a string by its declared type.  For [undefined], [null], booleans
    and numbers the regular expressions of [ipfsUrl] see the string form,
    which starts neither with [ipfs://] nor with [Qm], and the value comes
    back as it is.  For an array or an object the regular expressions
    would see its string form as well (an array holding one CID reads as
    that CID); such values lie outside the declared type, this definition
    does not follow the code on them, and every statement below about
    [normalizeNftMetadata] is made for a string image. *)
Definition normalizeImageUrl_field (image : value) : value :=
  match image with
  | VStr url => VStr (normalizeImageUrl url)
  | _ => image
  end.

(** [{ ...data, image: normalizeImageUrl(data.image) }] *)
Definition normalizeNftMetadata (data : gmap string value) : gmap string value :=
  <["image" := normalizeImageUrl_field (default VUndefined (data !! "image"))]> data.

Definition fixIncorrectImageField (data : value) : completion value :=
  if negb (truthy data) || negb (String.eqb (typeof data) "object")
  then Return data
  else
    image ← get_opt data "image";
    imageUrl ← get_opt data "imageUrl";
    if String.eqb (typeof image) "undefined"
       && String.eqb (typeof imageUrl) "string"
    then
      match data with
      | VObj _data => Return (VObj (<["image" := imageUrl]> _data))
      | _ => Return data
      end
    else Return data.

(** [a && b] on completions, with the short circuit of JavaScript. *)
Definition and_then (a b : completion bool) : completion bool :=
  x ← a; if x : bool then b else Return false.

Infix "&&&" := and_then (at level 40, left associativity).

(** [_data.properties?.<field>?.<leaf>] *)
Definition schema_path (_data : value) (field leaf : string) : completion value :=
  properties ← get _data "properties";
  f ← get_opt properties field;
  get_opt f leaf.

Definition typeof_is (v : completion value) (ty : string) : completion bool :=
  x ← v; Return (String.eqb (typeof x) ty).

Definition equals_str (v : completion value) (s : string) : completion bool :=
  x ← v; Return (strict_eq_str x s).

Definition isNftMetadataMixedInJsonSchema (data : value) : completion bool :=
  if negb (truthy data) || negb (String.eqb (typeof data) "object")
  then Return false
  else
    let _data := data in
    equals_str (get _data "title") "Asset Metadata" &&&
    equals_str (get _data "type") "object" &&&
    typeof_is (schema_path _data "name" "description") "string" &&&
    typeof_is (schema_path _data "image" "description") "string" &&&
    typeof_is (schema_path _data "description" "description") "string" &&&
    equals_str (schema_path _data "name" "type") "string" &&&
    equals_str (schema_path _data "image" "type") "string" &&&
    equals_str (schema_path _data "description" "type") "string".

(** [data?.properties?.<field>?.description] *)
Definition description_path (data : value) (field : string) : completion value :=
  properties ← get_opt data "properties";
  f ← get_opt properties field;
  get_opt f "description".

(** [v || ""] *)
Definition or_empty (v : completion value) : completion value :=
  x ← v; Return (if truthy x then x else VStr "").

Definition fixNftMetadataMixedInJsonSchema (data : value)
    : completion (gmap string value) :=
  name ← or_empty (description_path data "name");
  description ← or_empty (description_path data "description");
  image ← or_empty (description_path data "image");
  Return (<["name" := name]>
          (<["description" := description]>
          (<["image" := image]> ∅))).

Definition isNftMetadata (data : value) : bool :=
  if negb (truthy data) || negb (String.eqb (typeof data) "object")
  then false
  else has_property data "name" && has_property data "image"
       && has_property data "description".

(** ** PromiseAny *)

(** A promise as the event loop will see it: still pending for ever, or
    settled at some tick with a value or with a reason. *)
Inductive promise (V : Type) :=
| Pending
| Fulfilled (tick : nat) (v : V)
| Rejected (tick : nat) (reason : V).
Arguments Pending {V}.
Arguments Fulfilled {V} tick v.
Arguments Rejected {V} tick reason.

(** What a promise settles with: a plain value, an array, or a
    thenable, which is taken as the promise it behaves as.  The platform
    never fulfils a promise with a thenable; it does reject with one
    when asked to. *)
Inductive jsval (T : Type) :=
| Plain (x : T)
| Array (l : list (jsval T))
| Thenable (p : promise (jsval T)).
Arguments Plain {T} x.
Arguments Array {T} l.
Arguments Thenable {T} p.

(** [resolve(v)] called at tick [t] on a new promise: a thenable is
    adopted, anything else fulfils the promise. *)
Fixpoint resolve {T} (t : nat) (v : jsval T) : promise (jsval T) :=
  match v with
  | Thenable p =>
      match p with
      | Pending => Pending
      | Fulfilled t' v' => resolve (Nat.max t t') v'
      | Rejected t' r => Rejected (Nat.max t t') r
      end
  | _ => Fulfilled t v
  end.

(** [new Promise((resolve, reject) => Promise.resolve(promise).then(reject, resolve))] *)
Definition reversePromise {T} (p : promise (jsval T)) : promise (jsval T) :=
  match p with
  | Pending => Pending
  | Fulfilled t v => Rejected t v
  | Rejected t r => resolve t r
  end.

(** The rejection [Promise.all] will see first: the earliest one, and of
    two at the same tick the one that comes first in the list. *)
Fixpoint first_rejection {V} (ps : list (promise V)) : option (nat * V) :=
  match ps with
  | [] => None
  | Rejected t e :: ps' =>
      match first_rejection ps' with
      | Some (t', e') => if t <=? t' then Some (t, e) else Some (t', e')
      | None => Some (t, e)
      end
  | _ :: ps' => first_rejection ps'
  end.

(** The values of all promises, with the tick of the last one, when all
    of them fulfil. *)
Fixpoint all_fulfilled {V} (ps : list (promise V)) : option (nat * list V) :=
  match ps with
  | [] => Some (0, [])
  | Fulfilled t v :: ps' =>
      match all_fulfilled ps' with
      | Some (t', vs) => Some (Nat.max t t', v :: vs)
      | None => None
      end
  | _ :: _ => None
  end.

(** [Promise.all]: rejects with the first rejection as it is, fulfils
    with the array of the values. *)
Definition Promise_all {T} (ps : list (promise (jsval T))) : promise (jsval T) :=
  match first_rejection ps with
  | Some (t, e) => Rejected t e
  | None =>
      match all_fulfilled ps with
      | Some (t, vs) => Fulfilled t (Array vs)
      | None => Pending
      end
  end.

Definition promiseAny {T} (promises : list (promise (jsval T))) : promise (jsval T) :=
  reversePromise (Promise_all (reversePromise <$> promises)).

Definition succeeded {V} (p : promise V) : Prop := ∃ t v, p = Fulfilled t v.
Definition failed {V} (p : promise V) : Prop := ∃ t e, p = Rejected t e.

Definition is_thenable {T} (v : jsval T) : bool :=
  match v with
  | Thenable _ => true
  | _ => false
  end.

(** A promise that does not settle with a thenable. *)
Definition no_thenable {T} (p : promise (jsval T)) : Prop :=
  match p with
  | Pending => True
  | Fulfilled _ v | Rejected _ v => is_thenable v = false
  end.

(** The exchange of fulfilment and rejection. *)
Definition swap {V} (p : promise V) : promise V :=
  match p with
  | Pending => Pending
  | Fulfilled t v => Rejected t v
  | Rejected t e => Fulfilled t e
  end.

(** ** A URL implementation for plain web addresses

    The general theorems below hold for every [UrlApi].  Statements that
    exhibit one particular URL need an implementation to run; [WebUrl]
    follows the WHATWG URL standard on the addresses
    [http(s)://host/path?query#fragment] whose host is made of lower-case
    labels separated by dots, whose path and fragment use only characters
    the standard leaves as they are, and whose query uses only characters
    that form encoding leaves as they are.  Any other input is declined:
    the constructor raises, the path setter leaves the path alone. *)

Module WebUrl.

Record Url := {
  scheme : string;
  host : string;
  path : list string;           (* the segments *)
  query : option string;
  fragment : option string
}.

Definition is_lower (c : ascii) : bool :=
  (97 <=? Str.code c) && (Str.code c <=? 122).
Definition is_alnum (c : ascii) : bool :=
  is_lower c || ((65 <=? Str.code c) && (Str.code c <=? 90)) || is_digit c.

Fixpoint elem (c : ascii) (s : string) : bool :=
  match s with
  | "" => false
  | String d s' => Ascii.eqb c d || elem c s'
  end.

(** Characters outside the path and fragment percent-encode sets, and
    no separator of the parser. *)
Definition safe_char (c : ascii) : bool := is_alnum c || elem c "-._~!$&'()*+,;=:@%".
Definition path_char (c : ascii) : bool := safe_char c || Ascii.eqb c "/".
(** Characters the form-urlencoded parser and serializer keep. *)
Definition form_char (c : ascii) : bool := is_alnum c || elem c "*-._".

(** Labels of lower-case letters, separated by single dots. *)
Fixpoint host_ok (after_dot : bool) (s : string) : bool :=
  match s with
  | "" => negb after_dot
  | String c s' =>
      if is_lower c then host_ok false s'
      else Ascii.eqb c "." && negb after_dot && host_ok true s'
  end.

(** [span stop s]: the part of [s] before the first character that
    satisfies [stop], and the rest. *)
Fixpoint span (stop : ascii → bool) (s : string) : string * string :=
  match s with
  | "" => ("", "")
  | String c s' =>
      if stop c then ("", s)
      else let '(a, b) := span stop s' in (String c a, b)
  end.

Fixpoint split (sep : ascii) (s : string) : list string :=
  match s with
  | "" => [""]
  | String c s' =>
      if Ascii.eqb c sep then "" :: split sep s'
      else match split sep s' with
           | seg :: rest => String c seg :: rest
           | [] => [String c ""]
           end
  end.

Fixpoint join (sep : string) (l : list string) : string :=
  match l with
  | [] => ""
  | [x] => x
  | x :: l' => x +:+ sep +:+ join sep l'
  end.

Definition single_dot (seg : string) : bool :=
  let s := Str.toLowerCase seg in String.eqb s "." || String.eqb s "%2e".
Definition double_dot (seg : string) : bool :=
  let s := Str.toLowerCase seg in
  String.eqb s ".." || String.eqb s ".%2e" || String.eqb s "%2e."
  || String.eqb s "%2e%2e".

(** The path state of the parser, one segment at a time. *)
Fixpoint path_state (segs : list string) (acc : list string) : list string :=
  match segs with
  | [] => acc
  | seg :: rest =>
      let last := match rest with [] => true | _ => false end in
      let acc' :=
        if double_dot seg
        then (if last then removelast acc ++ [""] else removelast acc)
        else if single_dot seg
        then (if last then acc ++ [""] else acc)
        else acc ++ [seg] in
      path_state rest acc'
  end.

(** Path start state and path state: one leading slash is passed over. *)
Definition parse_path (p : string) : list string :=
  let p' := match p with String "/" r => r | _ => p end in
  path_state (split "/" p') [].

Definition is_sep (c : ascii) : bool := elem c "/?#".
Definition is_hash (c : ascii) : bool := Ascii.eqb c "#".
Definition is_qh (c : ascii) : bool := elem c "?#".

Definition parse (s : string) : completion Url :=
  let after_scheme :=
    match Str.strip_prefix "https://" s with
    | Some r => Some ("https", r)
    | None =>
        match Str.strip_prefix "http://" s with
        | Some r => Some ("http", r)
        | None => None
        end
    end in
  match after_scheme with
  | None => Throw TypeError
  | Some (sch, r) =>
      let '(h, r1) := span is_sep r in
      let '(p, r2) := span is_qh r1 in
      let '(q, f) :=
        match r2 with
        | String "?" r3 => let '(q, r4) := span is_hash r3 in (Some q, r4)
        | _ => (None, r2)
        end in
      let f := match f with String "#" r5 => Some r5 | _ => None end in
      if host_ok true h && Str.forallb path_char p
         && Str.forallb (λ c, form_char c || elem c "=&") (default "" q)
         && Str.forallb safe_char (default "" f)
      then Return {| scheme := sch; host := h; path := parse_path p;
                     query := q; fragment := f |}
      else Throw TypeError
  end.

Definition pathname (u : Url) : string := "/" +:+ join "/" (path u).

Definition set_pathname (u : Url) (p : string) : Url :=
  if Str.forallb path_char p
  then {| scheme := scheme u; host := host u; path := parse_path p;
          query := query u; fragment := fragment u |}
  else u.

(** The form-urlencoded parser on the characters of [form_char]. *)
Definition parse_pair (s : string) : string * string :=
  let '(k, r) := span (Ascii.eqb "=") s in
  (k, match r with String _ v => v | "" => "" end).

Definition parse_query (q : string) : list (string * string) :=
  parse_pair <$> filter (λ s, s ≠ "") (split "&" q).

(** [URLSearchParams.set]: the first pair of that name takes the value
    and the later ones go; without one, the pair is appended. *)
Fixpoint params_set (k v : string) (l : list (string * string))
    : list (string * string) :=
  match l with
  | [] => [(k, v)]
  | (k', v') :: l' =>
      if String.eqb k' k
      then (k, v) :: filter (λ kv, kv.1 ≠ k) l'
      else (k', v') :: params_set k v l'
  end.

(** The form-urlencoded serializer on the characters a query can hold
    here: [=] inside a name or a value is percent-encoded. *)
Fixpoint form_encode (s : string) : string :=
  match s with
  | "" => ""
  | String c s' =>
      if Ascii.eqb c "=" then "%3D" +:+ form_encode s' else String c (form_encode s')
  end.

Definition serialize_query (l : list (string * string)) : string :=
  join "&" ((λ kv, form_encode kv.1 +:+ "=" +:+ form_encode kv.2) <$> l).

Definition searchParams_set (u : Url) (k v : string) : Url :=
  let l := params_set k v (parse_query (default "" (query u))) in
  {| scheme := scheme u; host := host u; path := path u;
     query := Some (serialize_query l); fragment := fragment u |}.

Definition href (u : Url) : string :=
  scheme u +:+ "://" +:+ host u +:+ pathname u
  +:+ match query u with Some q => "?" +:+ q | None => "" end
  +:+ match fragment u with Some f => "#" +:+ f | None => "" end.

#[export] Instance api : UrlApi := {|
  URL := Url;
  URL_new := parse;
  URL_host := host;
  URL_pathname := pathname;
  URL_set_pathname := set_pathname;
  URL_searchParams_set := searchParams_set;
  URL_href := href
|}.

End WebUrl.

(** ** The statements of the specification, in its own words *)

(** [replaced pat by s t]: [t] is [s] with every occurrence of [pat],
    found from left to right, replaced by [by]. *)
Inductive replaced (pat by_ : string) : string → string → Prop :=
| replaced_end : replaced pat by_ "" ""
| replaced_hit s t :
    replaced pat by_ s t → replaced pat by_ (pat +:+ s) (by_ +:+ t)
| replaced_keep c s t :
    Str.starts_with pat (String c s) = false →
    replaced pat by_ s t → replaced pat by_ (String c s) (String c t).

(** [sub] occurs in [s]. *)
Definition contains (s sub : string) : Prop := ∃ a b, s = a +:+ sub +:+ b.

Definition no_dollar (s : string) : bool :=
  Str.forallb (λ c, negb (Ascii.eqb c "$")) s.

Definition no_slash (s : string) : bool :=
  Str.forallb (λ c, negb (Ascii.eqb c "/")) s.

(** An address: [0x] and forty hexadecimal digits. *)
Definition address_shape (a : string) : Prop :=
  ∃ h, a = "0x" +:+ h ∧ Str.len h = 40 ∧ Str.forallb (mem hex) h = true.

Definition decimal_shape (d : string) : Prop :=
  d ≠ "" ∧ Str.forallb is_digit d = true.

(** [url] begins with [https://rarible.com/token/<address>:<digits>]. *)
Definition rarible_shape (url : string) : Prop :=
  ∃ a d rest,
    url = "https://rarible.com/token/" +:+ a +:+ ":" +:+ d +:+ rest
    ∧ address_shape a ∧ decimal_shape d.

(** [ipfs://ipfs/<cid>] with an optional [/<path>]: the CID is not empty
    and has no slash; the path, when there is one, is a slash followed by
    at least one character, none of them a line terminator. *)
Definition ipfs_protocol_shape (url cid path : string) : Prop :=
  url = "ipfs://ipfs/" +:+ cid +:+ path
  ∧ cid ≠ "" ∧ no_slash cid = true
  ∧ (path = "" ∨ ∃ p, path = "/" +:+ p ∧ p ≠ "" ∧ Str.forallb (mem dot) p = true).

(** A bare CID: [Qm] and forty-four base58 characters. *)
Definition bare_cid_shape (url : string) : Prop :=
  ∃ h, url = "Qm" +:+ h ∧ Str.len h = 44 ∧ Str.forallb (mem base58) h = true.

(** The padding as the specification words it: [max(width, height) * padding]. *)
Definition stated_padding (image : HTMLImageElement) (o : FrameOptions) : float :=
  (Math_max (frame_width image o) (frame_height image o) * default 0 (padding o))%float.

Definition is_http_url (url : string) : bool :=
  Str.starts_with "http://" url || Str.starts_with "https://" url.

(** A property of the schema-shaped document: an object with [type]
    equal to ["string"] and a string under [description]. *)
Definition string_property (properties : gmap string value) (k : string) : Prop :=
  ∃ (f : gmap string value) d,
    properties !! k = Some (VObj f)
    ∧ f !! "type" = Some (VStr "string") ∧ f !! "description" = Some (VStr d).

Definition json_schema_shape (data : value) : Prop :=
  ∃ (o properties : gmap string value),
    data = VObj o
    ∧ o !! "title" = Some (VStr "Asset Metadata")
    ∧ o !! "type" = Some (VStr "object")
    ∧ o !! "properties" = Some (VObj properties)
    ∧ string_property properties "name"
    ∧ string_property properties "image"
    ∧ string_property properties "description".

(** The value under [properties.<field>.<leaf>] of an object, or
    [undefined]. *)
Definition leaf_of (o : gmap string value) (field leaf : string) : value :=
  match o !! "properties" with
  | Some (VObj properties) =>
      match properties !! field with
      | Some (VObj f) => default VUndefined (f !! leaf)
      | _ => VUndefined
      end
  | _ => VUndefined
  end.

(** The value under [properties.<field>.description], when the document
    has one. *)
Definition description_of (data : value) (field : string) : option value :=
  match data with
  | VObj o =>
      match o !! "properties" with
      | Some (VObj properties) =>
          match properties !! field with
          | Some (VObj f) => f !! "description"
          | _ => None
          end
      | _ => None
      end
  | _ => None
  end.

(** ** Notions used by the proofs *)

(** Length of the longest prefix of [s] whose characters satisfy [p]. *)
Fixpoint span_len (p : ascii → bool) (s : string) : nat :=
  match s with
  | String c s' => if p c then S (span_len p s') else 0
  | "" => 0
  end.

(** [s] is empty or starts with a character that fails [p]. *)
Definition stops (p : ascii → bool) (s : string) : Prop :=
  match s with
  | String c _ => p c = false
  | "" => True
  end.

(** What [IPFS_PROTOCOL_RE] finds in [url]: the CID and the path. *)
Definition protocol_parts (url : string) : option (string * string) :=
  match Str.strip_prefix "ipfs://ipfs/" url with
  | None => None
  | Some s1 =>
      let n := span_len (mem not_slash) s1 in
      if 1 <=? n then
        match Str.drop n s1 with
        | "" => Some (Str.take n s1, "")
        | String c p =>
            let m := span_len (mem dot) p in
            if 1 <=? m then
              match Str.drop m p with
              | "" => Some (Str.take n s1, String c p)
              | String _ _ => None
              end
            else None
        end
      else None
  end.

(** The final continuation of [match_at], as a function of the position
    where the attempt started and of the input from there. *)
Definition finish (i : nat) (s : string) (j : nat) (_ : string) (caps : captures)
    : option MatchResult :=
  Some {| index := i; lastIndex := j;
          groups := <[0 := Some (Str.take (j - i) s)]> caps |}.

(** *** Doubles

    The rounding of a product of two doubles, as [SFmul] does it, in
    terms of integer arithmetic. *)

Section Double.
Local Open Scope Z_scope.

(** Rounding to nearest, ties to even, of [m / 2 ^ n]. *)
Definition RNE (m n : Z) : Z :=
  let q := m / 2 ^ n in
  match 2 * (m mod 2 ^ n) ?= 2 ^ n with
  | Lt => q
  | Eq => if Z.even q then q else q + 1
  | Gt => q + 1
  end.

(** The exponent of the doubles of a binade. *)
Definition fexp64 (e : Z) : Z := Z.max (e - 53) (-1074).

(** The double of a rounded mantissa [mr], at most 2^53, and an exponent. *)
Definition rounded (s : bool) (mr E : Z) : spec_float :=
  match mr with
  | Z0 => S754_zero s
  | Zpos p =>
      if mr =? 2 ^ 53
      then (if E + 1 <=? 971 then S754_finite s (2 ^ 52)%positive (E + 1)
            else S754_infinity s)
      else if E <=? 971 then S754_finite s p E else S754_infinity s
  | Zneg _ => S754_nan
  end.

(** A mantissa and an exponent of a double. *)
Definition canonical_double (m : positive) (e : Z) : Prop :=
  e = fexp64 (Z.pos (digits2_pos m) + e) ∧ e ≤ 971.

(** A double that is neither an infinity nor [NaN]. *)
Definition SFfinite (x : spec_float) : bool :=
  match x with
  | S754_zero _ | S754_finite _ _ _ => true
  | _ => false
  end.

End Double.

Section FloatOrder.
Local Open Scope float_scope.

(** The comparisons of two doubles that are not [NaN]. *)
Inductive float_order (x y : float) : Prop :=
| float_lt :
    (x <? y) = true → (x <=? y) = true → (x =? y) = false →
    (y <? x) = false → (y <=? x) = false → (y =? x) = false → float_order x y
| float_eq :
    (x <? y) = false → (x <=? y) = true → (x =? y) = true →
    (y <? x) = false → (y <=? x) = true → (y =? x) = true → float_order x y
| float_gt :
    (x <? y) = false → (x <=? y) = false → (x =? y) = false →
    (y <? x) = true → (y <=? x) = true → (y =? x) = false → float_order x y.

End FloatOrder.

(** ** Sample inputs *)

Definition sample_address : string := "0x1234567890abcdef1234567890abcdef12345678".
Definition sample_cid : string := "QmNt5T9HSXKLXZ3kmciU4Tm6q9R8JEm5ifJkPoxapjyRUR".

Definition cloudflare_gateway : IpfsUrlBuilder :=
  λ cid path, "https://cloudflare-ipfs.com/ipfs/" +:+ cid +:+ default "" path.

Definition sample_metadata : gmap string value :=
  <["name" := VStr "Punk"]>
  (<["description" := VNull]>
  (<["image" := VStr "ipfs://ipfs/QmNt5T9HSXKLXZ3kmciU4Tm6q9R8JEm5ifJkPoxapjyRUR/1.png"]>
  (<["attributes" := VArr [VNum 7]]> ∅))).

Definition sample_promises : list (promise (jsval string)) :=
  [Rejected 1 (Plain "timeout"); Fulfilled 2 (Plain "x"); Rejected 3 (Plain "refused")].
(** [[Promise.reject(Promise.reject("x"))]] *)
Definition thenable_reason : list (promise (jsval string)) :=
  [Rejected 0 (Thenable (Rejected 0 (Plain "x")))].
(** [[succeed("a") later, Promise.reject(Promise.reject("x")) first]] *)
Definition thenable_reason_and_success : list (promise (jsval string)) :=
  [Fulfilled 5 (Plain "a"); Rejected 1 (Thenable (Rejected 1 (Plain "x")))].

Definition sample_document : Document :=
  {| getContext2d := true; toDataURL := λ _, "data:image/png;base64," |}.
Definition sample_image : HTMLImageElement :=
  {| naturalWidth := 24; naturalHeight := 16 |}.
Definition sample_options : FrameOptions :=
  {| scale := Some 0.5%float; padding := Some 0.25%float |}.
Definition small_image : HTMLImageElement :=
  {| naturalWidth := 1; naturalHeight := 2 |}.
Definition negative_padding : FrameOptions :=
  {| scale := None; padding := Some (-1)%float |}.
Definition odd_image : HTMLImageElement :=
  {| naturalWidth := 3; naturalHeight := 3 |}.
Definition half_scale : FrameOptions :=
  {| scale := Some 0.5%float; padding := None |}.

Definition schema_property (d : string) : value :=
  VObj (<["type" := VStr "string"]> (<["description" := VStr d]> ∅)).
Definition sample_schema_document : value :=
  VObj (<["title" := VStr "Asset Metadata"]>
       (<["type" := VStr "object"]>
       (<["properties" :=
            VObj (<["name" := schema_property "Portion #1"]>
                 (<["image" := schema_property "ipfs://ipfs/Qm/1.png"]> ∅))]> ∅))).

Definition opensea_template : string :=
  "https://api.opensea.io/api/v1/asset/0x%7Bid%7D".
Definition opensea_template_url : WebUrl.Url :=
  {| WebUrl.scheme := "https"; WebUrl.host := "api.opensea.io";
     WebUrl.path := ["api"; "v1"; "asset"; "0x%7Bid%7D"];
     WebUrl.query := None; WebUrl.fragment := None |}.
Definition nifty_url : WebUrl.Url :=
  {| WebUrl.scheme := "https"; WebUrl.host := "api.niftygateway.com";
     WebUrl.path := ["path"];
     WebUrl.query := None; WebUrl.fragment := None |}.


Definition sample_nft_url : string :=
  "https://rarible.com/token/0x1234567890abcdef1234567890abcdef12345678:7?tab=bids".
Definition checksum_address : string := "0x52908400098527886E0F7030069857D2E4169EE7".
Definition makersplace_metadata : gmap string value :=
  <["name" := VStr "Piece"]>
  (<["description" := VStr "A piece"]>
  (<["imageUrl" := VStr "https://example.com/a.png"]> ∅)).
Definition complete_schema_document : value :=
  VObj (<["title" := VStr "Asset Metadata"]>
       (<["type" := VStr "object"]>
       (<["properties" :=
            VObj (<["name" := schema_property "Portion #1"]>
                 (<["description" := schema_property "A piece"]>
                 (<["image" := schema_property "ipfs://ipfs/Qm/1.png"]> ∅)))]> ∅))).
Definition failing_promises : list (promise (jsval string)) :=
  [Rejected 4 (Plain "timeout"); Rejected 1 (Plain "refused")].
Definition default_options : FrameOptions := {| scale := None; padding := None |}.
Definition stuck_promises : list (promise (jsval string)) :=
  [Rejected 4 (Plain "timeout"); Pending].
(** A document whose [name] description is the number 0. *)
Definition zero_schema_document : value :=
  VObj (<["properties" :=
            VObj (<["name" :=
                      VObj (<["type" := VStr "string"]>
                            (<["description" := VNum 0]> ∅))]> ∅)]> ∅).
(* ================================================================== *)
(** * Part II: properties *)
(* ================================================================== *)

(** ** Strings *)

Lemma app_nil_l (s : string) : "" +:+ s = s.
Proof. reflexivity. Qed.

Lemma app_cons (c : ascii) (s t : string) : String c s +:+ t = String c (s +:+ t).
Proof. reflexivity. Qed.

Lemma app_nil_r (s : string) : s +:+ "" = s.
Proof. induction s as [|c s IH]; [done|]. by rewrite app_cons, IH. Qed.

Lemma app_assoc (s t u : string) : (s +:+ t) +:+ u = s +:+ t +:+ u.
Proof. induction s as [|c s IH]; [done|]. by rewrite !app_cons, IH. Qed.

Lemma len_app (s t : string) : Str.len (s +:+ t) = Str.len s + Str.len t.
Proof.
  induction s as [|c s IH]; [done|]. rewrite app_cons. cbn. by rewrite IH.
Qed.

Lemma len_zero (s : string) : Str.len s = 0 → s = "".
Proof. by destruct s. Qed.

Lemma take_drop (n : nat) (s : string) : Str.take n s +:+ Str.drop n s = s.
Proof.
  revert s. induction n as [|n IH]; intros [|c s]; try done.
  cbn. by rewrite app_cons, IH.
Qed.

Lemma take_all (n : nat) (s : string) : Str.drop n s = "" → Str.take n s = s.
Proof. intros E. pose proof (take_drop n s) as H. by rewrite E, app_nil_r in H. Qed.

Lemma take_app (s t : string) : Str.take (Str.len s) (s +:+ t) = s.
Proof. induction s as [|c s IH]; [by destruct t|]. rewrite app_cons. cbn. by rewrite IH. Qed.

Lemma drop_app (s t : string) : Str.drop (Str.len s) (s +:+ t) = t.
Proof. induction s as [|c s IH]; [by destruct t|]. by rewrite app_cons. Qed.

Lemma len_take (n : nat) (s : string) : n ≤ Str.len s → Str.len (Str.take n s) = n.
Proof.
  revert s. induction n as [|n IH]; intros [|c s] Hn; cbn in *; try done; try lia.
  rewrite IH; [done|lia].
Qed.

Lemma forallb_app (p : ascii → bool) (s t : string) :
  Str.forallb p (s +:+ t) = Str.forallb p s && Str.forallb p t.
Proof.
  induction s as [|c s IH]; [done|]. rewrite app_cons. cbn.
  by rewrite IH, andb_assoc.
Qed.

Lemma ascii_eqb_refl (c : ascii) : Ascii.eqb c c = true.
Proof. by apply Ascii.eqb_eq. Qed.

Lemma strip_prefix_app (p s : string) : Str.strip_prefix p (p +:+ s) = Some s.
Proof.
  induction p as [|c p IH]; [done|]. rewrite app_cons. cbn.
  by rewrite ascii_eqb_refl.
Qed.

Lemma strip_prefix_Some (p s s' : string) :
  Str.strip_prefix p s = Some s' → s = p +:+ s'.
Proof.
  revert s. induction p as [|c p IH]; intros [|d s] Hs; cbn in Hs; try done.
  - by injection Hs as <-.
  - by injection Hs as <-.
  - destruct (Ascii.eqb c d) eqn:E; [|done].
    apply Ascii.eqb_eq in E as <-. by rewrite app_cons, <- (IH _ Hs).
Qed.

Lemma strip_prefix_None (p s t : string) :
  Str.strip_prefix p s = None → s ≠ p +:+ t.
Proof. intros Hs ->. by rewrite strip_prefix_app in Hs. Qed.

Lemma starts_with_app (p s : string) : Str.starts_with p (p +:+ s) = true.
Proof. unfold Str.starts_with. by rewrite strip_prefix_app. Qed.

Lemma starts_with_true (p s : string) :
  Str.starts_with p s = true → ∃ s', s = p +:+ s'.
Proof.
  unfold Str.starts_with. destruct (Str.strip_prefix p s) as [s'|] eqn:E; [|done].
  intros _. exists s'. by apply strip_prefix_Some.
Qed.

(** *** Longest prefixes *)

Lemma span_len_le (p : ascii → bool) (s : string) : span_len p s ≤ Str.len s.
Proof. induction s as [|c s IH]; cbn; [done|]. destruct (p c); cbn; lia. Qed.

Lemma span_len_take (p : ascii → bool) (s : string) :
  Str.forallb p (Str.take (span_len p s) s) = true.
Proof. induction s as [|c s IH]; cbn; [done|]. destruct (p c) eqn:E; cbn; [|done]. by rewrite E. Qed.

Lemma span_len_drop (p : ascii → bool) (s : string) :
  stops p (Str.drop (span_len p s) s).
Proof. induction s as [|c s IH]; cbn; [done|]. by destruct (p c) eqn:E; cbn. Qed.

Lemma span_len_app (p : ascii → bool) (a b : string) :
  Str.forallb p a = true → stops p b → span_len p (a +:+ b) = Str.len a.
Proof.
  intros Ha Hb. induction a as [|c a IH]; cbn in *.
  - rewrite app_nil_l. destruct b as [|d b]; cbn in *; [done|]. by rewrite Hb.
  - apply andb_true_iff in Ha as [Hc Ha]. rewrite app_cons. cbn.
    by rewrite Hc, IH.
Qed.

(** A prefix that satisfies [p] fits into the longest one. *)
Lemma span_len_ge (p : ascii → bool) (a b : string) :
  Str.forallb p a = true → Str.len a ≤ span_len p (a +:+ b).
Proof.
  induction a as [|c a IH]; cbn; [lia|]. intros [Hc Ha]%andb_true_iff.
  rewrite app_cons. cbn. rewrite Hc. specialize (IH Ha). lia.
Qed.

Lemma drop_drop (n m : nat) (s : string) : Str.drop n (Str.drop m s) = Str.drop (m + n) s.
Proof.
  revert s. induction m as [|m IH]; intros s; [done|].
  destruct s as [|c s]; cbn; [by destruct n|]. apply IH.
Qed.

Lemma drop_within (p : ascii → bool) (s : string) (j : nat) :
  j < span_len p s → ∃ c s', Str.drop j s = String c s' ∧ p c = true.
Proof.
  revert j. induction s as [|c s IH]; intros j Hj; cbn in Hj; [lia|].
  destruct (p c) eqn:E; [|lia].
  destruct j as [|j]; cbn; [eauto|]. apply IH. lia.
Qed.

(** ** The matcher *)

(** An unbounded greedy repetition whose longest attempt lets the rest
    of the expression succeed stops there. *)
Lemma rep_greedy {R} (cs : cset) (min n i : nat) (s : string)
    (k : nat → string → option R) (r : R) :
  min ≤ n + span_len (mem cs) s →
  k (i + span_len (mem cs) s) (Str.drop (span_len (mem cs) s) s) = Some r →
  rep cs min None n i s k = Some r.
Proof.
  revert n i. induction s as [|c s IH]; intros n i Hmin Hk; cbn in *.
  - rewrite Nat.add_0_r in *. by apply Nat.leb_le in Hmin as ->.
  - destruct (mem cs c) eqn:Ec; cbn in *.
    + rewrite (IH (S n) (S i)); [done|lia|]. by rewrite <- Hk, Nat.add_succ_r.
    + rewrite Nat.add_0_r in *. by apply Nat.leb_le in Hmin as ->.
Qed.

(** When the rest of the expression fails after every shorter attempt,
    only the longest attempt counts. *)
Lemma rep_backtrack {R} (cs : cset) (min n i : nat) (s : string)
    (k : nat → string → option R) :
  (∀ j, j < span_len (mem cs) s → k (i + j) (Str.drop j s) = None) →
  rep cs min None n i s k =
    if min <=? n + span_len (mem cs) s
    then k (i + span_len (mem cs) s) (Str.drop (span_len (mem cs) s) s)
    else None.
Proof.
  revert n i. induction s as [|c s IH]; intros n i Hk; cbn in *.
  - by rewrite !Nat.add_0_r.
  - destruct (mem cs c) eqn:Ec; cbn in *.
    + rewrite (IH (S n) (S i)).
      * rewrite !Nat.add_succ_r. cbn.
        specialize (Hk 0 ltac:(lia)). rewrite Nat.add_0_r in Hk. cbn in Hk.
        rewrite Hk.
        destruct (min <=? S _); [|by destruct (min <=? n)].
        destruct (k (S _) _); [done|]. by destruct (min <=? n).
      * intros j Hj. specialize (Hk (S j) ltac:(lia)).
        by rewrite Nat.add_succ_r in Hk.
    + by rewrite !Nat.add_0_r.
Qed.

(** A repetition with a fixed count takes exactly that many characters. *)
Lemma rep_exact {R} (cs : cset) (m n i : nat) (s : string)
    (k : nat → string → option R) :
  n ≤ m →
  rep cs m (Some m) n i s k =
    if (m - n <=? Str.len s) && Str.forallb (mem cs) (Str.take (m - n) s)
    then k (i + (m - n)) (Str.drop (m - n) s)
    else None.
Proof.
  revert n i. induction s as [|c s IH]; intros n i Hn.
  - cbn [rep]. destruct (decide (n = m)) as [->|Hne].
    + by rewrite Nat.leb_refl, Nat.sub_diag, Nat.add_0_r.
    + replace (m <=? n) with false by (symmetry; apply Nat.leb_gt; lia).
      replace (m - n <=? Str.len "") with false; [done|].
      symmetry. apply Nat.leb_gt. cbn. lia.
  - cbn [rep below]. destruct (decide (n = m)) as [->|Hne].
    + rewrite Nat.ltb_irrefl, andb_false_r, Nat.leb_refl, Nat.sub_diag, Nat.add_0_r.
      done.
    + replace (m <=? n) with false by (symmetry; apply Nat.leb_gt; lia).
      replace (n <? m) with true by (symmetry; apply Nat.ltb_lt; lia).
      rewrite andb_true_r. replace (m - n) with (S (m - S n)) by lia.
      cbn [Str.take Str.drop Str.forallb String.length].
      destruct (mem cs c) eqn:Ec; cbn [andb].
      * rewrite (IH (S n) (S i)) by lia. rewrite Nat.add_succ_r. cbn [Nat.leb].
        cbn [Nat.add]. destruct (_ && _); [|done]. by destruct (k _ _).
      * by rewrite andb_false_r.
Qed.

Lemma match_at_finish (re : RegExp) (i : nat) (s : string) :
  match_at re i s =
    rmatch (source re) i s (replicate (S (ngroups re)) None) (finish i s).
Proof. reflexivity. Qed.

(** An expression that begins with [^] matches at the start or nowhere. *)
Lemma exec_anchored (r : regex) (ng : nat) (s : string) :
  exec {| source := Seq Bol r; ngroups := ng |} s
  = match_at {| source := Seq Bol r; ngroups := ng |} 0 s.
Proof.
  assert (Hpos : ∀ t i, exec_from {| source := Seq Bol r; ngroups := ng |} (S i) t = None).
  { induction t as [|c t IH]; intros i; cbn; [done|]. apply IH. }
  unfold exec. destruct s as [|c s]; cbn [exec_from].
  - by destruct (match_at _ _ _).
  - destruct (match_at _ _ _); [done|]. apply Hpos.
Qed.

(** ** NftUrlParser *)

Lemma rarible_exec (url : string) :
  exec RARIBLE_MATCH_RE url =
    match Str.strip_prefix "https://rarible.com/token/" url with
    | None => None
    | Some s1 =>
        match Str.strip_prefix "0x" s1 with
        | None => None
        | Some s2 =>
            if (40 <=? Str.len s2) && Str.forallb (mem hex) (Str.take 40 s2)
            then
              match Str.strip_prefix ":" (Str.drop 40 s2) with
              | None => None
              | Some s4 =>
                  let n := span_len (mem digit) s4 in
                  if 1 <=? n
                  then Some {| index := 0; lastIndex := 69 + n;
                               groups := [Some (Str.take (69 + n) url);
                                          Some (Str.take 42 s1);
                                          Some (Str.take n s4)] |}
                  else None
              end
            else None
        end
    end.
Proof.
  unfold RARIBLE_MATCH_RE. rewrite exec_anchored, match_at_finish.
  cbn [rmatch source ngroups Nat.eqb].
  destruct (Str.strip_prefix _ url) as [s1|]; [|done].
  destruct (Str.strip_prefix "0x" s1) as [s2|]; [|done].
  rewrite rep_exact by lia. rewrite Nat.sub_0_r.
  destruct (_ && _); [|done].
  destruct (Str.strip_prefix ":" _) as [s4|]; [|done].
  change (0 + String.length "https://rarible.com/token/" + String.length "0x"
          + 40 + String.length ":") with 69.
  change (0 + String.length "https://rarible.com/token/" + String.length "0x"
          + 40 - (0 + String.length "https://rarible.com/token/")) with 42.
  cbn zeta.
  destruct (1 <=? span_len (mem digit) s4) eqn:Em.
  - apply Nat.leb_le in Em. apply rep_greedy; [lia|]. unfold finish.
    cbn [replicate]. cbn [list_insert insert].
    replace (69 + span_len (mem digit) s4 - 69) with (span_len (mem digit) s4) by lia.
    by rewrite Nat.sub_0_r.
  - apply Nat.leb_gt in Em. rewrite rep_backtrack by (intros; lia).
    replace (1 <=? _) with false; [done|]. symmetry. apply Nat.leb_gt. lia.
Qed.

Lemma span_len_app_all (p : ascii → bool) (a b : string) :
  Str.forallb p a = true → span_len p (a +:+ b) = Str.len a + span_len p b.
Proof.
  induction a as [|c a IH]; [done|]. cbn. intros [Hc Ha]%andb_true_iff.
  rewrite app_cons. cbn. by rewrite Hc, IH.
Qed.

Lemma take_app_plus (a b : string) (m : nat) :
  Str.take (Str.len a + m) (a +:+ b) = a +:+ Str.take m b.
Proof. induction a as [|c a IH]; [done|]. rewrite !app_cons. cbn. by rewrite IH. Qed.

Lemma take_app_n (n : nat) (a b : string) : Str.len a = n → Str.take n (a +:+ b) = a.
Proof. intros <-. apply take_app. Qed.

Lemma drop_app_n (n : nat) (a b : string) : Str.len a = n → Str.drop n (a +:+ b) = b.
Proof. intros <-. apply drop_app. Qed.

Lemma strip_prefix_app_app (p q s : string) :
  Str.strip_prefix (p +:+ q) (p +:+ s) = Str.strip_prefix q s.
Proof.
  induction p as [|c p IH]; [done|]. rewrite !app_cons. cbn.
  by rewrite ascii_eqb_refl.
Qed.

(** Two strings without a slash that are followed by a slash at the same
    place are equal. *)
Lemma strip_prefix_slash (p q d x r : string) :
  no_slash p = true → no_slash d = true →
  Str.strip_prefix (p +:+ String "/" q) (d +:+ String "/" x) = Some r → p = d.
Proof.
  unfold no_slash. revert d.
  induction p as [|a p IH]; intros [|c d];
    rewrite ?app_cons, ?app_nil_l; cbn [Str.strip_prefix Str.forallb].
  - done.
  - intros _ [Hc _]%andb_true_iff. apply negb_true_iff in Hc.
    rewrite Ascii.eqb_sym in Hc. by rewrite Hc.
  - intros [Ha _]%andb_true_iff _. apply negb_true_iff in Ha. by rewrite Ha.
  - intros [_ Hp]%andb_true_iff [_ Hd]%andb_true_iff.
    destruct (Ascii.eqb a c) eqn:E; [|done]. apply Ascii.eqb_eq in E as ->.
    intros Hr. f_equal. by apply IH.
Qed.

Lemma mem_digit (c : ascii) : mem digit c = is_digit c.
Proof. unfold mem, digit, is_digit, in_range. cbn [existsb fst snd]. by rewrite orb_false_r. Qed.

Lemma forallb_ext (p q : ascii → bool) (s : string) :
  (∀ c, p c = q c) → Str.forallb p s = Str.forallb q s.
Proof. intros E. induction s as [|c s IH]; [done|]. cbn. by rewrite E, IH. Qed.

Lemma span_len_ext (p q : ascii → bool) (s : string) :
  (∀ c, p c = q c) → span_len p s = span_len q s.
Proof. intros E. induction s as [|c s IH]; [done|]. cbn. by rewrite E, IH. Qed.

(** [parseNftUrl], with the regular expression run by hand. *)
Lemma parseNftUrl_eq (url : string) :
  parseNftUrl url =
    match Str.strip_prefix "https://rarible.com/token/" url with
    | None => None
    | Some s1 =>
        match Str.strip_prefix "0x" s1 with
        | None => None
        | Some s2 =>
            if (40 <=? Str.len s2) && Str.forallb (mem hex) (Str.take 40 s2)
            then
              match Str.strip_prefix ":" (Str.drop 40 s2) with
              | None => None
              | Some s4 =>
                  if 1 <=? span_len is_digit s4
                  then Some (Some (Str.take 42 s1),
                             Some (Str.take (span_len is_digit s4) s4))
                  else None
              end
            else None
        end
    end.
Proof.
  unfold parseNftUrl. rewrite rarible_exec.
  destruct (Str.strip_prefix _ url) as [s1|]; [|done].
  destruct (Str.strip_prefix "0x" s1) as [s2|]; [|done].
  destruct (_ && _); [|done].
  destruct (Str.strip_prefix ":" _) as [s4|]; [|done].
  cbn zeta. rewrite (span_len_ext _ _ _ mem_digit).
  by destruct (1 <=? _).
Qed.

Lemma parseNftUrl_None (url : string) :
  parseNftUrl url = None → ¬ rarible_shape url.
Proof.
  rewrite parseNftUrl_eq.
  intros Hnone (a & d & rest & -> & (h & -> & Hlen & Hhex) & Hne & Hdig).
  rewrite strip_prefix_app, app_assoc, strip_prefix_app in Hnone.
  rewrite len_app, Hlen, (take_app_n 40), (drop_app_n 40) in Hnone by done.
  rewrite Hhex, strip_prefix_app in Hnone.
  replace (40 <=? _) with true in Hnone by (symmetry; apply Nat.leb_le; lia).
  cbn [andb] in Hnone.
  rewrite span_len_app_all in Hnone by done.
  destruct d as [|c d]; [done|]. by cbn in Hnone.
Qed.

Lemma parseNftUrl_Some (url : string) (r : option string * option string) :
  parseNftUrl url = Some r →
  ∃ a d rest,
    url = "https://rarible.com/token/" +:+ a +:+ ":" +:+ d +:+ rest
    ∧ address_shape a ∧ decimal_shape d ∧ stops is_digit rest
    ∧ r = (Some a, Some d).
Proof.
  rewrite parseNftUrl_eq.
  destruct (Str.strip_prefix _ url) as [s1|] eqn:E1; [|done].
  destruct (Str.strip_prefix "0x" s1) as [s2|] eqn:E2; [|done].
  destruct (_ && _) eqn:E3; [|done].
  destruct (Str.strip_prefix ":" _) as [s4|] eqn:E4; [|done].
  destruct (1 <=? _) eqn:E5; [|done].
  intros Hr. apply (inj Some) in Hr. subst r.
  apply strip_prefix_Some in E1, E2, E4. apply andb_true_iff in E3 as [E3 E3'].
  apply Nat.leb_le in E3, E5.
  exists ("0x" +:+ Str.take 40 s2), (Str.take (span_len is_digit s4) s4),
    (Str.drop (span_len is_digit s4) s4).
  split_and!.
  - rewrite take_drop, <- E4, app_assoc, take_drop. by rewrite <- E2.
  - exists (Str.take 40 s2). by rewrite len_take.
  - unfold decimal_shape. split; [|apply span_len_take].
    destruct s4 as [|c s4]; cbn in E5 |- *; [lia|].
    destruct (is_digit c); [done|lia].
  - apply span_len_drop.
  - f_equal. f_equal. rewrite E2. change 42 with (Str.len "0x" + 40).
    by rewrite take_app_plus.
Qed.

(** C10.  [parseNftUrl] recognises the rarible.com pattern only: a string
    that does not begin with [https://rarible.com/token/], an address,
    a colon and at least one decimal digit gives [null]; so does the same
    shape under any other domain; and the match is a prefix match:
    whatever follows the token id, the address and the digits (with any
    digits that follow them) are returned. *)
Theorem parseNftUrl_rarible_only :
  (∀ url, ¬ rarible_shape url → parseNftUrl url = None)
  ∧ (∀ domain rest,
       domain ≠ "rarible.com" → no_slash domain = true →
       parseNftUrl ("https://" +:+ domain +:+ "/token/" +:+ rest) = None)
  ∧ (∀ a d rest,
       address_shape a → decimal_shape d →
       ∃ d' rest',
         rest = d' +:+ rest' ∧ Str.forallb is_digit d' = true
         ∧ stops is_digit rest'
         ∧ parseNftUrl ("https://rarible.com/token/" +:+ a +:+ ":" +:+ d +:+ rest)
           = Some (Some a, Some (d +:+ d'))).
Proof.
  split_and!.
  - intros url Hshape. destruct (parseNftUrl url) as [r|] eqn:E; [|done].
    destruct Hshape. apply parseNftUrl_Some in E as (a & d & rest & ? & ? & ? & _).
    by exists a, d, rest.
  - intros domain rest Hne Hslash. rewrite parseNftUrl_eq.
    change "https://rarible.com/token/"
      with ("https://" +:+ "rarible.com" +:+ String "/" "token/").
    change ("/token/" +:+ rest) with (String "/" ("token/" +:+ rest)).
    rewrite strip_prefix_app_app.
    destruct (Str.strip_prefix _ _) as [r|] eqn:E; [|done].
    apply strip_prefix_slash in E; [congruence|done..].
  - intros a d rest (h & -> & Hlen & Hhex) [Hne Hdig].
    exists (Str.take (span_len is_digit rest) rest),
      (Str.drop (span_len is_digit rest) rest).
    split_and!; [by rewrite take_drop|apply span_len_take|apply span_len_drop|].
    rewrite parseNftUrl_eq, strip_prefix_app, app_assoc, strip_prefix_app.
    rewrite len_app, Hlen, (take_app_n 40), (drop_app_n 40) by done.
    rewrite Hhex, strip_prefix_app.
    replace (40 <=? _) with true by (symmetry; apply Nat.leb_le; lia).
    cbn [andb]. rewrite span_len_app_all by done.
    destruct d as [|c d]; [done|]. cbn [String.length Nat.add Nat.leb].
    do 3 f_equal.
    + rewrite <- app_assoc. apply take_app_n. rewrite len_app, Hlen. done.
    + change (S (Str.len d + span_len is_digit rest))
        with (Str.len (String c d) + span_len is_digit rest).
      apply take_app_plus.
Qed.

Lemma parseNftUrl_rarible_only_witness :
  parseNftUrl ("https://opensea.io/token/" +:+ sample_address +:+ ":7") = None
  ∧ parseNftUrl ("https://" +:+ "foundation.app" +:+ "/token/"
                 +:+ sample_address +:+ ":7") = None
  ∧ ∃ d' rest',
      "12/sell?x=1" = d' +:+ rest' ∧ Str.forallb is_digit d' = true
      ∧ stops is_digit rest'
      ∧ parseNftUrl ("https://rarible.com/token/" +:+ sample_address
                     +:+ ":" +:+ "7" +:+ "12/sell?x=1")
        = Some (Some sample_address, Some ("7" +:+ d')).
Proof.
  pose proof parseNftUrl_rarible_only as (H1 & H2 & H3).
  split_and!.
  - apply H1. apply parseNftUrl_None. reflexivity.
  - apply H2; [discriminate|reflexivity].
  - apply H3.
    + exists "1234567890abcdef1234567890abcdef12345678". by split_and!.
    + by split.
Defined.

(** ** IpfsResolver *)

Lemma mem_not_slash (c : ascii) : mem not_slash c = negb (Ascii.eqb c "/").
Proof.
  unfold mem, not_slash, in_range. cbn [existsb fst snd]. rewrite orb_false_r.
  f_equal. destruct (Ascii.eqb_spec c "/") as [->|Hne]; [done|].
  apply andb_false_iff. destruct (decide (Str.code c = 47)) as [E|E].
  - destruct Hne. apply (f_equal ascii_of_nat) in E. unfold Str.code in E.
    by rewrite ascii_nat_embedding in E.
  - change (Str.code "/") with 47.
    destruct (decide (47 ≤ Str.code c)); [right|left]; apply Nat.leb_gt; lia.
Qed.

Lemma ipfs_protocol_exec (url : string) :
  match exec IPFS_PROTOCOL_RE url with
  | Some m => Some (default "" (group m 1), default "" (group m 2))
  | None => None
  end = protocol_parts url.
Proof.
  unfold IPFS_PROTOCOL_RE, protocol_parts. rewrite exec_anchored, match_at_finish.
  cbn [rmatch source ngroups Nat.eqb].
  destruct (Str.strip_prefix _ url) as [s1|]; [|done].
  cbn zeta.
  change (0 + String.length "ipfs://ipfs/") with 12.
  rewrite rep_backtrack; cycle 1.
  { intros j Hj. apply drop_within in Hj as (c & s' & -> & Hc).
    rewrite mem_not_slash in Hc. apply negb_true_iff in Hc.
    cbn [Str.strip_prefix]. rewrite Ascii.eqb_sym in Hc. by rewrite Hc. }
  cbn [Nat.add]. destruct (1 <=? _) eqn:En; [|done].
  pose proof (span_len_drop (mem not_slash) s1) as Hstop.
  destruct (Str.drop _ s1) as [|c p] eqn:Ed.
  - cbn [Str.strip_prefix]. unfold finish, group. cbn -[Str.take].
    by rewrite Nat.sub_0_r.
  - cbn [stops] in Hstop. rewrite mem_not_slash in Hstop.
    apply negb_false_iff, Ascii.eqb_eq in Hstop as ->.
    cbn [Str.strip_prefix]. rewrite ascii_eqb_refl.
    rewrite rep_backtrack; cycle 1.
    { intros j Hj. by apply drop_within in Hj as (c & s' & -> & Hc). }
    cbn [Nat.add]. destruct (1 <=? span_len (mem dot) p) eqn:Em; [|done].
    destruct (Str.drop _ p) as [|c' p'] eqn:Edp; [|done].
    unfold finish, group. cbn -[Str.take].
    replace (_ + 1 + _ - _) with (S (span_len (mem dot) p)) by lia.
    cbn [Str.take]. rewrite Nat.sub_0_r. do 3 f_equal.
    by apply take_all.
Qed.

Lemma span_len_all (p : ascii → bool) (s : string) :
  Str.forallb p s = true → span_len p s = Str.len s.
Proof.
  intros Hs. rewrite <- (app_nil_r s) at 1. by apply span_len_app.
Qed.

Lemma drop_all (s : string) : Str.drop (Str.len s) s = "".
Proof. induction s as [|c s IH]; [done|]. apply IH. Qed.

Lemma no_slash_mem (s : string) :
  Str.forallb (mem not_slash) s = no_slash s.
Proof. apply forallb_ext, mem_not_slash. Qed.

Lemma protocol_parts_shape (url cid path : string) :
  protocol_parts url = Some (cid, path) ↔ ipfs_protocol_shape url cid path.
Proof.
  unfold protocol_parts, ipfs_protocol_shape. split.
  - destruct (Str.strip_prefix _ url) as [s1|] eqn:E1; [|done].
    apply strip_prefix_Some in E1 as ->. cbn zeta.
    pose proof (span_len_take (mem not_slash) s1) as Htake.
    pose proof (span_len_drop (mem not_slash) s1) as Hstop.
    pose proof (take_drop (span_len (mem not_slash) s1) s1) as Hsplit.
    rewrite no_slash_mem in Htake.
    destruct (1 <=? _) eqn:En; [|done]. apply Nat.leb_le in En.
    assert (Str.take (span_len (mem not_slash) s1) s1 ≠ "") as Hne.
    { destruct s1 as [|c s1]; cbn [span_len Str.take] in En |- *; [lia|].
      destruct (mem not_slash c); [done|lia]. }
    destruct (Str.drop _ s1) as [|c p] eqn:Ed.
    + intros [= <- <-]. rewrite app_nil_r in *. split_and!; auto. congruence.
    + cbn [stops] in Hstop. rewrite mem_not_slash in Hstop.
      apply negb_false_iff, Ascii.eqb_eq in Hstop as ->.
      pose proof (span_len_take (mem dot) p) as Hdot.
      destruct (1 <=? span_len (mem dot) p) eqn:Em; [|done]. apply Nat.leb_le in Em.
      destruct (Str.drop _ p) as [|c' p'] eqn:Edp; [|done].
      rewrite (take_all _ _ Edp) in Hdot.
      intros [= <- <-]. split_and!; auto; [congruence|].
      right. exists p. split_and!; auto. intros ->. cbn in Em. lia.
  - intros (-> & Hne & Hslash & Hpath). rewrite strip_prefix_app. cbn zeta.
    rewrite <- no_slash_mem in Hslash.
    assert (stops (mem not_slash) path) as Hstop.
    { by destruct Hpath as [->|(p & -> & _)]. }
    rewrite (span_len_app _ _ _ Hslash Hstop), take_app, drop_app.
    replace (1 <=? Str.len cid) with true
      by (symmetry; apply Nat.leb_le; destruct cid; cbn; [done|lia]).
    destruct Hpath as [->|(p & -> & Hp & Hdot)]; [done|].
    rewrite app_cons, app_nil_l, (span_len_all _ _ Hdot), drop_all.
    by replace (1 <=? Str.len p) with true
      by (symmetry; apply Nat.leb_le; destruct p; cbn; [done|lia]).
Qed.

(** An expression [^p cs{n}$]: the prefix [p] and exactly [n] characters
    of the set. *)
Lemma test_fixed (p : string) (cs : cset) (n : nat) (url : string) :
  test {| source := Seq Bol (Seq (Lit p) (Seq (Rep cs n (Some n)) Eol));
          ngroups := 0 |} url = true
  ↔ ∃ h, url = p +:+ h ∧ Str.len h = n ∧ Str.forallb (mem cs) h = true.
Proof.
  unfold test. rewrite exec_anchored, match_at_finish.
  cbn [rmatch source ngroups Nat.eqb].
  destruct (Str.strip_prefix _ url) as [h|] eqn:E1.
  - apply strip_prefix_Some in E1 as ->. rewrite rep_exact by lia.
    rewrite Nat.sub_0_r. destruct (_ && _) eqn:E2.
    + apply andb_true_iff in E2 as [Hlen Hb]. apply Nat.leb_le in Hlen.
      destruct (Str.drop n h) as [|c r] eqn:Ed.
      * cbn. split; [intros _|done]. rewrite (take_all _ _ Ed) in Hb.
        exists h. split_and!; auto.
        pose proof (take_all _ _ Ed) as Ht. apply (f_equal String.length) in Ht.
        by rewrite len_take in Ht.
      * split; [done|]. intros (h' & Heq & Hlen' & _).
        apply (inj (String.app p)) in Heq as <-.
        by rewrite <- Hlen', drop_all in Ed.
    + split; [done|]. intros (h' & Heq & Hlen' & Hb).
      apply (inj (String.app p)) in Heq as <-.
      rewrite <- Hlen', Nat.leb_refl in E2. cbn [andb] in E2.
      rewrite <- (app_nil_r h) in E2 at 2. by rewrite take_app, Hb in E2.
  - split; [done|]. intros (h & -> & _). by rewrite strip_prefix_app in E1.
Qed.

Lemma ipfs_hash_test (url : string) :
  test IPFS_HASH_RE url = true ↔ bare_cid_shape url.
Proof. apply test_fixed. Qed.

(** X1.  [isAddress] holds exactly of the strings made of [0x] followed
    by forty hexadecimal digits, of either case, and nothing else. *)
Lemma isAddress_shape (value : string) : isAddress value = true ↔ address_shape value.
Proof. apply test_fixed. Qed.

(** The two forms exclude each other. *)
Lemma protocol_not_bare (url cid path : string) :
  ipfs_protocol_shape url cid path → ¬ bare_cid_shape url.
Proof. by intros (-> & _) (h & ? & _). Qed.

Lemma ipfsUrl_with_eq (url : string) (builder : IpfsUrlBuilder) :
  ipfsUrl_with url builder =
    match protocol_parts url with
    | Some (cid, path) => builder cid (Some path)
    | None => if test IPFS_HASH_RE url then builder url None else url
    end.
Proof.
  unfold ipfsUrl_with. rewrite <- ipfs_protocol_exec.
  by destruct (exec IPFS_PROTOCOL_RE url).
Qed.

Lemma ipfsUrl_with_protocol (builder : IpfsUrlBuilder) (url cid path : string) :
  ipfs_protocol_shape url cid path →
  ipfsUrl_with url builder = builder cid (Some path).
Proof.
  intros Hshape. rewrite ipfsUrl_with_eq.
  by apply protocol_parts_shape in Hshape as ->.
Qed.

Lemma ipfsUrl_with_bare (builder : IpfsUrlBuilder) (url : string) :
  bare_cid_shape url → ipfsUrl_with url builder = builder url None.
Proof.
  intros Hbare. rewrite ipfsUrl_with_eq.
  destruct (protocol_parts url) as [[cid path]|] eqn:E.
  - apply protocol_parts_shape in E. by destruct (protocol_not_bare _ _ _ E).
  - by apply ipfs_hash_test in Hbare as ->.
Qed.

Lemma ipfsUrl_with_other (builder : IpfsUrlBuilder) (url : string) :
  (∀ cid path, ¬ ipfs_protocol_shape url cid path) → ¬ bare_cid_shape url →
  ipfsUrl_with url builder = url.
Proof.
  intros Hproto Hbare. rewrite ipfsUrl_with_eq.
  destruct (protocol_parts url) as [[cid path]|] eqn:E.
  - apply protocol_parts_shape in E. by destruct (Hproto cid path).
  - destruct (test IPFS_HASH_RE url) eqn:Et; [|done].
    by apply ipfs_hash_test in Et.
Qed.

(** C3.  [ipfsUrl] has exactly three cases.  (a) A locator
    [ipfs://ipfs/<cid>] with an optional [/<path>] goes to the builder
    with the CID and the path (the empty path when there is none), which
    for the default builder is [https://ipfs.io/ipfs/<cid><path>]; (b) a
    bare CID, [Qm] and 44 base58 characters, goes to the builder alone,
    which for the default builder is [https://ipfs.io/ipfs/<url>]; (c) any
    other string comes back unchanged.  The first two cases exclude each
    other. *)
Theorem ipfsUrl_cases (builder : IpfsUrlBuilder) (url : string) :
  (∀ cid path,
     ipfs_protocol_shape url cid path →
     ipfsUrl_with url builder = builder cid (Some path)
     ∧ ipfsUrl url = "https://ipfs.io/ipfs/" +:+ cid +:+ path
     ∧ ¬ bare_cid_shape url)
  ∧ (bare_cid_shape url →
     ipfsUrl_with url builder = builder url None
     ∧ ipfsUrl url = "https://ipfs.io/ipfs/" +:+ url)
  ∧ ((∀ cid path, ¬ ipfs_protocol_shape url cid path) →
     ¬ bare_cid_shape url →
     ipfsUrl_with url builder = url ∧ ipfsUrl url = url).
Proof.
  unfold ipfsUrl. split_and!.
  - intros cid path Hshape. rewrite !(ipfsUrl_with_protocol _ _ _ _ Hshape).
    split_and!; [done..|]. by eapply protocol_not_bare.
  - intros Hbare. rewrite !(ipfsUrl_with_bare _ _ Hbare).
    split; [done|]. unfold ipfsUrlDefault. cbn [default]. by rewrite app_nil_r.
  - intros Hproto Hbare. by rewrite !(ipfsUrl_with_other _ _ Hproto Hbare).
Qed.

Lemma ipfsUrl_cases_witness :
  (ipfsUrl_with ("ipfs://ipfs/" +:+ sample_cid +:+ "/sub/path") cloudflare_gateway
     = cloudflare_gateway sample_cid (Some "/sub/path")
   ∧ ipfsUrl ("ipfs://ipfs/" +:+ sample_cid +:+ "/sub/path")
     = "https://ipfs.io/ipfs/" +:+ sample_cid +:+ "/sub/path"
   ∧ ¬ bare_cid_shape ("ipfs://ipfs/" +:+ sample_cid +:+ "/sub/path"))
  ∧ (ipfsUrl_with sample_cid cloudflare_gateway = cloudflare_gateway sample_cid None
     ∧ ipfsUrl sample_cid = "https://ipfs.io/ipfs/" +:+ sample_cid)
  ∧ (ipfsUrl_with "https://example.com/x" cloudflare_gateway = "https://example.com/x"
     ∧ ipfsUrl "https://example.com/x" = "https://example.com/x").
Proof.
  split; [|split].
  - apply (proj1 (ipfsUrl_cases cloudflare_gateway
                    ("ipfs://ipfs/" +:+ sample_cid +:+ "/sub/path"))
             sample_cid "/sub/path").
    split_and!; [done..|]. right. by exists "sub/path".
  - apply (proj1 (proj2 (ipfsUrl_cases cloudflare_gateway sample_cid))).
    exists "Nt5T9HSXKLXZ3kmciU4Tm6q9R8JEm5ifJkPoxapjyRUR". by split_and!.
  - apply (proj2 (proj2 (ipfsUrl_cases cloudflare_gateway "https://example.com/x"))).
    + intros c p. rewrite <- protocol_parts_shape. by vm_compute.
    + rewrite <- ipfs_hash_test. by vm_compute.
Defined.

(** ** normalizeImageUrl *)

Lemma is_http_url_no_ipfs (url : string) :
  is_http_url url = true →
  (∀ cid path, ¬ ipfs_protocol_shape url cid path) ∧ ¬ bare_cid_shape url.
Proof.
  unfold is_http_url. intros [H|H]%orb_true_iff;
    apply starts_with_true in H as [s ->]; split.
  all: try by intros cid path (? & _).
  all: by intros (h & ? & _).
Qed.

(** [ipfsUrl] is idempotent on every string: what it produces starts
    with [https://] or is its input, left alone because it has neither
    form. *)
Lemma ipfsUrl_idempotent (url : string) : ipfsUrl (ipfsUrl url) = ipfsUrl url.
Proof.
  unfold ipfsUrl at 2 3. rewrite !ipfsUrl_with_eq.
  destruct (protocol_parts url) as [[cid path]|] eqn:E.
  - apply ipfsUrl_with_other; apply is_http_url_no_ipfs; done.
  - destruct (test IPFS_HASH_RE url) eqn:Et.
    + apply ipfsUrl_with_other; apply is_http_url_no_ipfs; done.
    + apply ipfsUrl_with_other.
      * intros cid path Hs. apply protocol_parts_shape in Hs. congruence.
      * intros Hb. apply ipfs_hash_test in Hb. congruence.
Qed.

(** C8.  On a string that is already an HTTP(S) URL, which has neither
    the [ipfs://ipfs/] form nor the form of a bare CID,
    [normalizeImageUrl] changes nothing, and applying it twice gives what
    applying it once gives. *)
Theorem normalizeImageUrl_idempotent (u : string) :
  is_http_url u = true →
  ((∀ cid path, ¬ ipfs_protocol_shape u cid path) ∧ ¬ bare_cid_shape u)
  ∧ normalizeImageUrl u = u
  ∧ normalizeImageUrl (normalizeImageUrl u) = normalizeImageUrl u.
Proof.
  intros Hu. pose proof (is_http_url_no_ipfs u Hu) as [Hp Hb].
  unfold normalizeImageUrl. split_and!; [done..| |apply ipfsUrl_idempotent].
  by apply ipfsUrl_with_other.
Qed.

Lemma normalizeImageUrl_idempotent_witness :
  is_http_url "https://example.com/nft/1.png" = true
  ∧ normalizeImageUrl (normalizeImageUrl "https://example.com/nft/1.png")
    = normalizeImageUrl "https://example.com/nft/1.png".
Proof.
  split; [reflexivity|].
  apply (normalizeImageUrl_idempotent "https://example.com/nft/1.png").
  reflexivity.
Defined.

(** ** normalizeNftMetadata *)

(** C7.  For a metadata record, [normalizeNftMetadata] gives a copy whose
    [image] is [ipfsUrl] of the record's [image]; every other field, the
    three named ones and any further one, has the value it had, and no
    field is added or lost. *)
Theorem normalizeNftMetadata_frame (data : gmap string value) :
  is_NftMetadata_record data →
  ∃ image,
    data !! "image" = Some (VStr image)
    ∧ normalizeNftMetadata data !! "image" = Some (VStr (ipfsUrl image))
    ∧ (∀ k, k ≠ "image" → normalizeNftMetadata data !! k = data !! k)
    ∧ dom (normalizeNftMetadata data) = dom data.
Proof.
  intros (_ & _ & image & Himage). exists image. unfold normalizeNftMetadata.
  rewrite Himage. cbn [default normalizeImageUrl_field]. split_and!.
  - done.
  - by rewrite lookup_insert_eq.
  - intros k Hk. by rewrite lookup_insert_ne.
  - rewrite dom_insert_L. apply (elem_of_dom_2 (D := gset string)) in Himage.
    apply set_eq. intros k. rewrite elem_of_union, elem_of_singleton.
    split; [by intros [->|]|by right].
Qed.

Lemma normalizeNftMetadata_frame_witness :
  is_NftMetadata_record sample_metadata
  ∧ ∃ image,
      sample_metadata !! "image" = Some (VStr image)
      ∧ normalizeNftMetadata sample_metadata !! "image" = Some (VStr (ipfsUrl image))
      ∧ (∀ k, k ≠ "image" →
           normalizeNftMetadata sample_metadata !! k = sample_metadata !! k)
      ∧ dom (normalizeNftMetadata sample_metadata) = dom sample_metadata.
Proof.
  assert (is_NftMetadata_record sample_metadata) as Hrec.
  { split_and!; [by eexists..|]. by eexists. }
  split; [exact Hrec|]. exact (normalizeNftMetadata_frame sample_metadata Hrec).
Defined.

(** ** AddressUtils *)

Lemma lower_char_idempotent (c : ascii) :
  Str.lower_char (Str.lower_char c) = Str.lower_char c.
Proof. by destruct c as [[] [] [] [] [] [] [] []]. Qed.

Lemma toLowerCase_idempotent (s : string) :
  Str.toLowerCase (Str.toLowerCase s) = Str.toLowerCase s.
Proof. induction s as [|c s IH]; [done|]. cbn. by rewrite lower_char_idempotent, IH. Qed.

(** Comparing a string with its lower-case form gives [true]. *)
Lemma addressesEqual_lower (s : string) :
  addressesEqual (VStr s) (VStr (Str.toLowerCase s)) = Return true.
Proof.
  cbn. by rewrite toLowerCase_idempotent, String.eqb_refl.
Qed.

(** The result for two absent arguments: [undefined === undefined]. *)
Lemma addressesEqual_both_absent :
  addressesEqual VUndefined VUndefined = Return true
  ∧ addressesEqual VNull VNull = Return true
  ∧ addressesEqual VUndefined VUndefined ≠ Return false.
Proof. by split_and!. Qed.

(** C1, amended.  On two strings [addressesEqual] is true exactly when
    the strings are equal after lower-casing both; when one argument is
    a string and the other is [null] or [undefined] it is false; when
    both arguments are [null] or [undefined], in any combination, it is
    true; in all these cases it returns and does not raise. *)
Theorem addressesEqual_spec :
  (∀ s t, ∃ b,
     addressesEqual (VStr s) (VStr t) = Return b
     ∧ (b = true ↔ Str.toLowerCase s = Str.toLowerCase t))
  ∧ (∀ a s, nullish a = true →
       addressesEqual a (VStr s) = Return false
       ∧ addressesEqual (VStr s) a = Return false)
  ∧ (∀ a b, nullish a = true → nullish b = true →
       addressesEqual a b = Return true).
Proof.
  split_and!.
  - intros s t. eexists. split; [reflexivity|]. cbn. apply String.eqb_eq.
  - intros a s Ha. by destruct a.
  - intros a b Ha Hb. by destruct a, b.
Qed.

Lemma addressesEqual_spec_witness :
  nullish VUndefined = true
  ∧ nullish VNull = true
  ∧ (addressesEqual VUndefined (VStr "0xABCDEF") = Return false
     ∧ addressesEqual (VStr "0xABCDEF") VUndefined = Return false)
  ∧ addressesEqual VNull VUndefined = Return true.
Proof.
  split; [reflexivity|]. split; [reflexivity|]. split.
  - exact (proj1 (proj2 addressesEqual_spec) VUndefined "0xABCDEF" eq_refl).
  - exact (proj2 (proj2 addressesEqual_spec) VNull VUndefined eq_refl eq_refl).
Defined.

(** ** PromiseAny *)

Section Swap.
Context {V : Type}.
Implicit Types (ps : list (promise V)) (p : promise V).

(** The first rejection among the exchanged promises is the fulfilment
    of one of the promises. *)
Lemma first_rejection_swap_Some ps t v :
  first_rejection (swap <$> ps) = Some (t, v) → Fulfilled t v ∈ ps.
Proof.
  revert t v. induction ps as [|p ps IH]; intros t v; [done|].
  rewrite fmap_cons.
  destruct p as [|t0 v0|t0 e0]; cbn [swap first_rejection].
  - intros H. right. by apply IH.
  - destruct (first_rejection _) as [[t' v']|] eqn:Er.
    + destruct (t0 <=? t'); intros [= <- <-]; [left|right; by apply IH].
    + intros [= <- <-]. left.
  - intros H. right. by apply IH.
Qed.

Lemma first_rejection_swap_None ps :
  first_rejection (swap <$> ps) = None ↔ Forall (λ p, ¬ succeeded p) ps.
Proof.
  induction ps as [|p ps IH]; [done|]. rewrite fmap_cons, Forall_cons.
  destruct p as [|t0 v0|t0 e0]; cbn [swap first_rejection].
  - rewrite IH. split; [|by intros [_ ?]]. intros ?. split; [|done].
    by intros (? & ? & ?).
  - split.
    + by destruct (first_rejection _) as [[t' v']|]; [destruct (t0 <=? t')|].
    + intros [[] _]. by exists t0, v0.
  - rewrite IH. split; [|by intros [_ ?]]. intros ?. split; [|done].
    by intros (? & ? & ?).
Qed.

Lemma all_fulfilled_swap ps :
  is_Some (all_fulfilled (swap <$> ps)) ↔ Forall failed ps.
Proof.
  induction ps as [|p ps IH]; [by split; [constructor|eexists]|].
  rewrite fmap_cons, Forall_cons.
  destruct p as [|t0 v0|t0 e0]; cbn [swap all_fulfilled].
  - split; [by intros [? ?]|]. by intros [(? & ? & ?) _].
  - split; [by intros [? ?]|]. by intros [(? & ? & ?) _].
  - rewrite <- IH. split.
    + destruct (all_fulfilled _) as [[t' vs]|]; [|by intros [? ?]].
      intros _. split; [by exists t0, e0|by eexists].
    + intros [_ [[t' vs] ->]]. by eexists.
Qed.

(** The values of the exchanged promises are the reasons of the
    promises, in their order. *)
Lemma all_fulfilled_swap_reasons ps t es :
  all_fulfilled (swap <$> ps) = Some (t, es) →
  Forall2 (λ p e, ∃ t', p = Rejected t' e ∧ t' ≤ t) ps es.
Proof.
  revert t es. induction ps as [|p ps IH]; intros t es.
  - intros [= <- <-]. constructor.
  - rewrite fmap_cons. destruct p as [|t0 v0|t0 e0];
      cbn [swap all_fulfilled]; try done.
    destruct (all_fulfilled _) as [[t1 vs]|]; [|done].
    intros [= <- <-]. constructor.
    + exists t0. split; [done|lia].
    + eapply Forall2_impl; [by apply IH|].
      intros p e (t' & -> & Ht'). exists t'. split; [done|lia].
Qed.

Lemma failed_not_succeeded ps : Forall failed ps → Forall (λ p, ¬ succeeded p) ps.
Proof.
  intros H. eapply Forall_impl; [exact H|]. by intros p (t & e & ->) (? & ? & ?).
Qed.

Lemma pending_or_failed ps :
  Forall (λ p, ¬ succeeded p) ps →
  Forall failed ps ∨ Exists (λ p, p = Pending) ps.
Proof.
  induction 1 as [|p ps Hp _ IH]; [by left|].
  destruct p as [|t v|t e].
  - right. by left.
  - destruct Hp. by exists t, v.
  - destruct IH as [IH|IH]; [left|right; by right].
    constructor; [by exists t, e|done].
Qed.

(** No rejection comes before the first one. *)
Lemma first_rejection_earliest (qs : list (promise V)) t e t' e' :
  first_rejection qs = Some (t, e) → Rejected t' e' ∈ qs → t ≤ t'.
Proof.
  revert t e. induction qs as [|q qs IH]; intros t e; [done|].
  rewrite elem_of_cons. destruct q as [|t0 v0|t0 e0]; cbn [first_rejection].
  - intros Hf [?|Hin]; [done|]. by eapply IH.
  - intros Hf [?|Hin]; [done|]. by eapply IH.
  - destruct (first_rejection qs) as [[t1 e1]|] eqn:Er.
    + destruct (t0 <=? t1) eqn:Et; intros [= <- <-] [[= <- <-]|Hin].
      * done.
      * apply Nat.leb_le in Et. specialize (IH _ _ eq_refl Hin). lia.
      * apply Nat.leb_gt in Et. lia.
      * by eapply IH.
    + intros [= <- <-] [[= <- <-]|Hin]; [done|].
      clear IH. induction qs as [|q qs IH]; [by apply elem_of_nil in Hin|].
      apply elem_of_cons in Hin. destruct q as [|t1 v1|t1 e1]; cbn in Er.
      * destruct Hin as [?|Hin]; [done|]. by apply IH.
      * destruct Hin as [?|Hin]; [done|]. by apply IH.
      * by destruct (first_rejection qs) as [[t2 e2]|]; [destruct (t1 <=? t2)|].
Qed.

End Swap.

Section PromiseAny.
Context {T : Type}.
Implicit Types (ps : list (promise (jsval T))) (p : promise (jsval T)).

Lemma resolve_plain (t : nat) (v : jsval T) :
  is_thenable v = false → resolve t v = Fulfilled t v.
Proof. by destruct v. Qed.

(** On a promise that does not settle with a thenable, [reversePromise]
    exchanges fulfilment and rejection. *)
Lemma reversePromise_swap p : no_thenable p → reversePromise p = swap p.
Proof. destruct p as [|t v|t r]; [done..|]. cbn. apply resolve_plain. Qed.

Lemma reversePromise_swap_list ps :
  Forall no_thenable ps → reversePromise <$> ps = swap <$> ps.
Proof.
  induction 1 as [|p ps Hp _ IH]; [done|].
  by rewrite !fmap_cons, IH, reversePromise_swap.
Qed.

(** [promiseAny] on promises that do not settle with a thenable. *)
Lemma promiseAny_plain ps :
  Forall no_thenable ps →
  promiseAny ps =
    match first_rejection (swap <$> ps) with
    | Some (t, v) => Fulfilled t v
    | None =>
        match all_fulfilled (swap <$> ps) with
        | Some (t, vs) => Rejected t (Array vs)
        | None => Pending
        end
    end.
Proof.
  intros Hps. unfold promiseAny, Promise_all.
  rewrite reversePromise_swap_list by done.
  destruct (first_rejection _) as [[t v]|] eqn:Er.
  - apply first_rejection_swap_Some in Er.
    rewrite Forall_forall in Hps. apply (resolve_plain t v), (Hps _ Er).
  - by destruct (all_fulfilled _) as [[t vs]|].
Qed.

End PromiseAny.

(** C2.  A rejection whose reason is itself a promise is not an
    exchange of outcomes: [reversePromise] hands the reason to [resolve],
    which adopts it.  With the one operation
    [Promise.reject(Promise.reject("x"))], which fails, [promiseAny]
    fulfils with ["x"] and does not reject.  With that operation and a
    later success ["a"], [promiseAny] fulfils with ["x"], which is the
    value of no operation that succeeded. *)
Theorem promiseAny_thenable_reason :
  (Forall failed thenable_reason
   ∧ promiseAny thenable_reason = Fulfilled 0 (Plain "x")
   ∧ ¬ ∃ t reasons, promiseAny thenable_reason = Rejected t reasons)
  ∧ (Exists succeeded thenable_reason_and_success
     ∧ promiseAny thenable_reason_and_success = Fulfilled 1 (Plain "x")
     ∧ ¬ ∃ t, Fulfilled t (Plain "x") ∈ thenable_reason_and_success).
Proof.
  split; split_and!.
  - repeat constructor. by eexists _, _.
  - reflexivity.
  - by intros (t & reasons & ?).
  - left. by eexists _, _.
  - reflexivity.
  - intros (t & Hin). unfold thenable_reason_and_success in Hin.
    rewrite !elem_of_cons, elem_of_nil in Hin. by destruct Hin as [|[|]].
Qed.

(** ** Doubles *)

Section Doubles.
Local Open Scope Z_scope.

(** The number of binary digits of a mantissa. *)
Lemma digits2_pos_size (m : positive) : digits2_pos m = Pos.size m.
Proof. induction m as [m IH|m IH|]; cbn; by rewrite ?IH. Qed.

Lemma digits2_bounds (m : positive) :
  2 ^ (Z.pos (digits2_pos m) - 1) ≤ Z.pos m < 2 ^ Z.pos (digits2_pos m).
Proof.
  rewrite digits2_pos_size. split.
  - pose proof (Pos.size_le m) as H.
    assert (Z.pos (2 ^ Pos.size m) ≤ Z.pos m~0) as H' by lia.
    rewrite Pos2Z.inj_pow in H'.
    replace (Z.pos (Pos.size m)) with (Z.succ (Z.pos (Pos.size m) - 1)) in H' by lia.
    rewrite Z.pow_succ_r in H' by lia. lia.
  - pose proof (Pos.size_gt m) as H.
    assert (Z.pos m < Z.pos (2 ^ Pos.size m)) as H' by lia.
    by rewrite Pos2Z.inj_pow in H'.
Qed.

Lemma RNE_bounds (m n : Z) : m / 2 ^ n ≤ RNE m n ≤ m / 2 ^ n + 1.
Proof. unfold RNE. destruct (_ ?= _); [destruct (Z.even _)|..]; lia. Qed.

Lemma RNE_mono (m1 m2 n : Z) : 0 ≤ n → m1 ≤ m2 → RNE m1 n ≤ RNE m2 n.
Proof.
  intros Hn Hm. assert (0 < 2 ^ n) as Hp by (by apply Z.pow_pos_nonneg).
  pose proof (Z.div_le_mono m1 m2 (2 ^ n) Hp Hm) as Hq.
  pose proof (RNE_bounds m1 n). pose proof (RNE_bounds m2 n).
  destruct (Z.eq_dec (m1 / 2 ^ n) (m2 / 2 ^ n)) as [Heq|Hne]; [|lia].
  pose proof (Z.div_mod m1 (2 ^ n) ltac:(lia)) as H1.
  pose proof (Z.div_mod m2 (2 ^ n) ltac:(lia)) as H2.
  assert (m1 mod 2 ^ n ≤ m2 mod 2 ^ n) as Hr by (rewrite Heq in H1; lia).
  unfold RNE. rewrite Heq.
  destruct (Z.compare_spec (2 * (m1 mod 2 ^ n)) (2 ^ n)),
    (Z.compare_spec (2 * (m2 mod 2 ^ n)) (2 ^ n));
    try destruct (Z.even (m2 / 2 ^ n)); lia.
Qed.

Lemma RNE_scale (m n k : Z) : 0 ≤ n → 0 ≤ k → RNE (m * 2 ^ k) (n + k) = RNE m n.
Proof.
  intros Hn Hk. assert (0 < 2 ^ n) by (by apply Z.pow_pos_nonneg).
  assert (0 < 2 ^ k) by (by apply Z.pow_pos_nonneg).
  unfold RNE. rewrite Z.pow_add_r by done.
  rewrite Z.div_mul_cancel_r by lia. rewrite Z.mul_mod_distr_r by lia.
  replace (2 * (m mod 2 ^ n * 2 ^ k) ?= 2 ^ n * 2 ^ k)
    with (2 * (m mod 2 ^ n) ?= 2 ^ n); [done|].
  symmetry. destruct (Z.compare_spec (2 * (m mod 2 ^ n)) (2 ^ n)).
  - apply Z.compare_eq_iff. nia.
  - apply Z.compare_lt_iff. nia.
  - apply Z.compare_gt_iff. nia.
Qed.

Lemma RNE_exact (m : Z) : RNE m 0 = m.
Proof.
  unfold RNE. rewrite Z.pow_0_r, Z.mod_1_r, Z.div_1_r. done.
Qed.

Lemma iter_pos_nat {A} (f : A → A) (p : positive) (x : A) :
  SpecFloat.iter_pos f p x = Nat.iter (Pos.to_nat p) f x.
Proof.
  revert x. induction p as [p IH|p IH|]; intros x; cbn [SpecFloat.iter_pos].
  - rewrite !IH, Pos2Nat.inj_xI.
    replace (S (2 * Pos.to_nat p))%nat
      with (Pos.to_nat p + (Pos.to_nat p + 1))%nat by lia.
    by rewrite !Nat.iter_add.
  - rewrite !IH, Pos2Nat.inj_xO.
    replace (2 * Pos.to_nat p)%nat with (Pos.to_nat p + Pos.to_nat p)%nat by lia.
    by rewrite Nat.iter_add.
  - done.
Qed.

Lemma shr_1_nonneg (m : Z) (r s : bool) :
  0 ≤ m →
  shr_1 {| shr_m := m; shr_r := r; shr_s := s |}
  = {| shr_m := m / 2; shr_r := Z.odd m; shr_s := r || s |}.
Proof.
  intros Hm. destruct m as [|[p|p|]|p]; try lia; cbn [shr_1]; f_equal; try done.
  - apply (Z.div_unique _ 2 _ 1); lia.
  - apply (Z.div_unique _ 2 _ 0); lia.
Qed.

(** [k + 1] shifts to the right, from an exact mantissa. *)
Lemma shr_iter (m : Z) (k : nat) :
  0 ≤ m →
  Nat.iter (S k) shr_1 {| shr_m := m; shr_r := false; shr_s := false |}
  = {| shr_m := m / 2 ^ Z.of_nat (S k);
       shr_r := Z.odd (m / 2 ^ Z.of_nat k);
       shr_s := negb (m mod 2 ^ Z.of_nat k =? 0) |}.
Proof.
  intros Hm. induction k as [|k IH].
  - cbn [Nat.iter]. rewrite shr_1_nonneg by done.
    change (Z.of_nat 1) with 1. change (Z.of_nat 0) with 0.
    by rewrite Z.pow_1_r, Z.pow_0_r, Z.div_1_r, Z.mod_1_r.
  - change (Nat.iter (S (S k)) shr_1 ?x) with (shr_1 (Nat.iter (S k) shr_1 x)).
    rewrite IH. assert (0 < 2 ^ Z.of_nat k) by (apply Z.pow_pos_nonneg; lia).
    assert (0 < 2 ^ Z.of_nat (S k)) by (apply Z.pow_pos_nonneg; lia).
    rewrite shr_1_nonneg by (apply Z.div_pos; lia). f_equal.
    + rewrite Z.div_div by lia. f_equal.
      rewrite (Nat2Z.inj_succ (S k)), Z.pow_succ_r by lia. lia.
    + rewrite (Nat2Z.inj_succ k), Z.pow_succ_r by lia.
      rewrite (Z.mul_comm 2), Z.rem_mul_r by lia.
      destruct (Z.odd (m / 2 ^ Z.of_nat k)) eqn:Eo.
      * cbn [orb]. symmetry. apply negb_true_iff, Z.eqb_neq.
        rewrite Zodd_mod in Eo. apply Z.eqb_eq in Eo.
        pose proof (Z.mod_pos_bound m (2 ^ Z.of_nat k)). lia.
      * cbn [orb]. f_equal. f_equal.
        assert ((m / 2 ^ Z.of_nat k) mod 2 = 0) as ->; [|lia].
        rewrite Zodd_mod in Eo. apply Z.eqb_neq in Eo.
        pose proof (Z.mod_pos_bound (m / 2 ^ Z.of_nat k) 2). lia.
Qed.

(** Shifting an exact mantissa by [n] places and rounding it. *)
Lemma shr_round (m : Z) (e n : Z) :
  0 ≤ m → 0 ≤ n →
  let '(mrs, e') := shr {| shr_m := m; shr_r := false; shr_s := false |} e n in
  round_nearest_even (shr_m mrs) (loc_of_shr_record mrs) = RNE m n
  ∧ e' = e + n.
Proof.
  intros Hm Hn. destruct n as [|p|p]; [| |lia]; cbn [shr].
  - cbn. rewrite RNE_exact. lia.
  - rewrite iter_pos_nat. destruct (Pos2Nat.is_succ p) as [k Hk]. rewrite Hk.
    rewrite shr_iter by done. split; [|done].
    assert (Z.pos p = Z.of_nat (S k)) as -> by lia.
    assert (0 < 2 ^ Z.of_nat k) as Hp by (apply Z.pow_pos_nonneg; lia).
    unfold RNE. rewrite (Nat2Z.inj_succ k), Z.pow_succ_r by lia.
    rewrite (Z.mul_comm 2 (2 ^ Z.of_nat k)), Z.rem_mul_r by lia.
    pose proof (Z.mod_pos_bound m (2 ^ Z.of_nat k) Hp) as Hr.
    pose proof (Z.mod_pos_bound (m / 2 ^ Z.of_nat k) 2 ltac:(lia)) as Hb.
    cbn [shr_m loc_of_shr_record].
    destruct (Z.odd (m / 2 ^ Z.of_nat k)) eqn:Eo.
    + rewrite Zodd_mod in Eo. apply Z.eqb_eq in Eo. rewrite Eo.
      destruct (Z.eqb_spec (m mod 2 ^ Z.of_nat k) 0) as [E0|E0]; cbn [negb].
      * rewrite E0. cbn [round_nearest_even].
        replace (_ ?= _) with Eq; [done|]. symmetry. apply Z.compare_eq_iff. lia.
      * cbn [round_nearest_even].
        replace (_ ?= _) with Gt; [done|]. symmetry. apply Z.compare_gt_iff. lia.
    + rewrite Zodd_mod in Eo. apply Z.eqb_neq in Eo.
      assert ((m / 2 ^ Z.of_nat k) mod 2 = 0) as -> by lia.
      destruct (Z.eqb_spec (m mod 2 ^ Z.of_nat k) 0) as [E0|E0]; cbn [negb].
      * cbn [round_nearest_even].
        replace (_ ?= _) with Lt; [done|]. symmetry. apply Z.compare_lt_iff. lia.
      * cbn [round_nearest_even].
        replace (_ ?= _) with Lt; [done|]. symmetry. apply Z.compare_lt_iff. lia.
Qed.

Lemma fexp_eq (e : Z) : fexp prec emax e = fexp64 e.
Proof. reflexivity. Qed.

Lemma RNE_range (m : positive) (n : Z) :
  0 ≤ n → Z.pos (digits2_pos m) - 53 ≤ n →
  0 ≤ RNE (Z.pos m) n ≤ 2 ^ 53.
Proof.
  intros Hn Hd. pose proof (RNE_bounds (Z.pos m) n) as Hb.
  assert (0 < 2 ^ n) as Hp by (by apply Z.pow_pos_nonneg).
  assert (0 ≤ Z.pos m / 2 ^ n) by (apply Z.div_pos; lia).
  assert (Z.pos m / 2 ^ n < 2 ^ 53); [|lia].
  apply Z.div_lt_upper_bound; [done|].
  pose proof (digits2_bounds m) as [_ Hu].
  rewrite <- Z.pow_add_r by lia.
  eapply Z.lt_le_trans; [exact Hu|]. apply Z.pow_le_mono_r; lia.
Qed.

Lemma binary_round_aux_eq (s : bool) (m : positive) (e : Z) :
  e ≤ fexp64 (Z.pos (digits2_pos m) + e) →
  binary_round_aux prec emax s (Z.pos m) e loc_Exact
  = rounded s (RNE (Z.pos m) (fexp64 (Z.pos (digits2_pos m) + e) - e))
      (fexp64 (Z.pos (digits2_pos m) + e)).
Proof.
  intros He. set (E := fexp64 (Z.pos (digits2_pos m) + e)) in *.
  assert (-1074 ≤ E) as HE by (unfold E, fexp64; lia).
  assert (Z.pos (digits2_pos m) - 53 ≤ E - e) as Hd by (unfold E, fexp64; lia).
  unfold binary_round_aux. unfold shr_fexp at 1.
  cbn [Zdigits2 shr_record_of_loc]. rewrite fexp_eq. fold E.
  pose proof (shr_round (Z.pos m) e (E - e) ltac:(lia) ltac:(lia)) as Hs.
  destruct (shr _ e (E - e)) as [mrs e']. destruct Hs as [-> ->].
  replace (e + (E - e)) with E by lia.
  pose proof (RNE_range m (E - e) ltac:(lia) Hd) as Hr.
  set (mr := RNE (Z.pos m) (E - e)) in *. clearbody mr.
  unfold shr_fexp. rewrite fexp_eq. cbn [shr_record_of_loc].
  destruct mr as [|p|p]; [| |lia].
  - cbn [Zdigits2]. unfold fexp64.
    destruct (Z.max (0 + E - 53) (-1074) - E) eqn:En; [done| lia |done].
  - cbn [Zdigits2 rounded]. destruct (Z.eqb_spec (Z.pos p) (2 ^ 53)) as [Hp|Hp].
    + assert (p = (2 ^ 53)%positive) as -> by lia.
      replace (fexp64 (Z.pos (digits2_pos (2 ^ 53)) + E) - E) with 1
        by (change (Z.pos (digits2_pos (2 ^ 53))) with 54; unfold fexp64; lia).
      done.
    + assert (Z.pos (digits2_pos p) ≤ 53) as Hdp.
      { pose proof (digits2_bounds p) as [Hl _].
        destruct (Z.le_gt_cases (Z.pos (digits2_pos p)) 53) as [|Hgt]; [done|].
        assert (2 ^ 53 ≤ 2 ^ (Z.pos (digits2_pos p) - 1))
          by (apply Z.pow_le_mono_r; lia).
        lia. }
      destruct (fexp64 (Z.pos (digits2_pos p) + E) - E) eqn:En;
        [done| unfold fexp64 in En; lia |done].
Qed.

(** The order of two doubles of the same sign. *)
Lemma SFleb_finite_pos (m1 m2 : positive) (e1 e2 : Z) :
  SFleb (S754_finite false m1 e1) (S754_finite false m2 e2) = true
  ↔ e1 < e2 ∨ (e1 = e2 ∧ Z.pos m1 ≤ Z.pos m2).
Proof.
  unfold SFleb, SFcompare. destruct (Z.compare_spec e1 e2); [|split; [lia|done]|].
  - change (Pos.compare_cont Eq m1 m2) with (Pos.compare m1 m2).
    destruct (Pos.compare_spec m1 m2); split; try done; lia.
  - split; [done|lia].
Qed.

Lemma SFleb_finite_neg (m1 m2 : positive) (e1 e2 : Z) :
  SFleb (S754_finite true m1 e1) (S754_finite true m2 e2) = true
  ↔ e2 < e1 ∨ (e1 = e2 ∧ Z.pos m2 ≤ Z.pos m1).
Proof.
  unfold SFleb, SFcompare. destruct (Z.compare_spec e1 e2); [|split; [done|lia]|].
  - change (Pos.compare_cont Eq m1 m2) with (Pos.compare m1 m2).
    destruct (Pos.compare_spec m1 m2); cbn [CompOpp]; split; try done; lia.
  - split; [lia|done].
Qed.

(** The order of two rounded results. *)
Lemma rounded_le (mr1 E1 mr2 E2 : Z) :
  0 ≤ mr1 ≤ 2 ^ 53 → 0 ≤ mr2 ≤ 2 ^ 53 →
  (E1 = E2 ∧ mr1 ≤ mr2) ∨ (E1 < E2 ∧ 2 ^ 52 ≤ mr2) →
  SFleb (rounded false mr1 E1) (rounded false mr2 E2) = true
  ∧ SFleb (rounded true mr2 E2) (rounded true mr1 E1) = true.
Proof.
  intros H1 H2 Hle. unfold rounded.
  change (2 ^ 52) with 4503599627370496 in *.
  change (2 ^ 53) with 9007199254740992 in *.
  destruct mr1 as [|p1|p1]; [| |lia]; (destruct mr2 as [|p2|p2]; [| |lia]).
  - done.
  - destruct (Z.pos p2 =? _); [destruct (E2 + 1 <=? 971)|destruct (E2 <=? 971)];
      done.
  - exfalso. lia.
  - destruct (Z.eqb_spec (Z.pos p1) 9007199254740992) as [Hp1|Hp1],
      (Z.eqb_spec (Z.pos p2) 9007199254740992) as [Hp2|Hp2];
      repeat match goal with
        | |- context [?a <=? ?b] => destruct (Z.leb_spec a b)
        end;
      rewrite ?SFleb_finite_pos, ?SFleb_finite_neg; try done;
      try (change (Z.pos (2 ^ 52)) with 4503599627370496; lia).
Qed.

Lemma bounded_canonical (m : positive) (e : Z) :
  bounded prec emax m e = true ↔ canonical_double m e.
Proof.
  unfold bounded, canonical_mantissa, canonical_double. rewrite fexp_eq.
  rewrite andb_true_iff, Z.eqb_eq, Z.leb_le. change (emax - prec) with 971. lia.
Qed.

Lemma canonical_double_cases (m : positive) (e : Z) :
  canonical_double m e →
  (Z.pos (digits2_pos m) = 53 ∧ -1074 ≤ e)
  ∨ (e = -1074 ∧ Z.pos (digits2_pos m) ≤ 53).
Proof. unfold canonical_double, fexp64. lia. Qed.

Lemma digits2_mul (m p : positive) :
  Z.pos (digits2_pos m) + Z.pos (digits2_pos p) - 1 ≤ Z.pos (digits2_pos (m * p)).
Proof.
  pose proof (digits2_bounds m) as [Hm _]. pose proof (digits2_bounds p) as [Hp _].
  pose proof (digits2_bounds (m * p)) as [_ Hmp].
  assert (2 ^ (Z.pos (digits2_pos m) - 1 + (Z.pos (digits2_pos p) - 1))
          ≤ Z.pos (m * p)) as Hl.
  { rewrite Z.pow_add_r, Pos2Z.inj_mul by lia. apply Z.mul_le_mono_nonneg; lia. }
  destruct (Z.le_gt_cases (Z.pos (digits2_pos m) + Z.pos (digits2_pos p) - 1)
              (Z.pos (digits2_pos (m * p)))) as [|Hgt]; [done|].
  assert (2 ^ Z.pos (digits2_pos (m * p))
          ≤ 2 ^ (Z.pos (digits2_pos m) - 1 + (Z.pos (digits2_pos p) - 1)))
    by (apply Z.pow_le_mono_r; lia).
  lia.
Qed.

(** The product of two doubles is rounded by a shift to the right. *)
Lemma product_shift (m p : positive) (e ep : Z) :
  canonical_double m e → canonical_double p ep →
  e + ep ≤ fexp64 (Z.pos (digits2_pos (m * p)) + (e + ep)).
Proof.
  intros Hm%canonical_double_cases Hp%canonical_double_cases.
  pose proof (digits2_mul m p). unfold fexp64. lia.
Qed.

Lemma SFmul_finite (s : bool) (m p : positive) (e ep : Z) :
  canonical_double m e → canonical_double p ep →
  SFmul prec emax (S754_finite s m e) (S754_finite false p ep)
  = rounded s (RNE (Z.pos (m * p))
                (fexp64 (Z.pos (digits2_pos (m * p)) + (e + ep)) - (e + ep)))
      (fexp64 (Z.pos (digits2_pos (m * p)) + (e + ep))).
Proof.
  intros Hm Hp. cbn [SFmul]. rewrite xorb_false_r.
  apply binary_round_aux_eq. by apply product_shift.
Qed.

(** The products of two positive doubles in their order, by a
    positive double, after rounding. *)
Lemma product_le (mw mh mp : positive) (ew eh ep : Z) :
  canonical_double mw ew → canonical_double mh eh → canonical_double mp ep →
  ew < eh ∨ (ew = eh ∧ Z.pos mw ≤ Z.pos mh) →
  SFleb (SFmul prec emax (S754_finite false mw ew) (S754_finite false mp ep))
        (SFmul prec emax (S754_finite false mh eh) (S754_finite false mp ep)) = true
  ∧ SFleb (SFmul prec emax (S754_finite true mh eh) (S754_finite false mp ep))
          (SFmul prec emax (S754_finite true mw ew) (S754_finite false mp ep)) = true.
Proof.
  intros Hw Hh Hp Hle. rewrite !SFmul_finite by done.
  pose proof (product_shift mw mp ew ep Hw Hp) as Hs1.
  pose proof (product_shift mh mp eh ep Hh Hp) as Hs2.
  set (d1 := Z.pos (digits2_pos (mw * mp))) in *.
  set (d2 := Z.pos (digits2_pos (mh * mp))) in *.
  set (E1 := fexp64 (d1 + (ew + ep))) in *.
  set (E2 := fexp64 (d2 + (eh + ep))) in *.
  assert (0 ≤ eh - ew) as Hk by lia.
  assert (0 < 2 ^ (eh - ew)) as Hpk by (by apply Z.pow_pos_nonneg).
  (* the mantissas at the exponent of the smaller one *)
  assert (Z.pos mw ≤ Z.pos mh * 2 ^ (eh - ew)) as Hm.
  { destruct Hle as [Hlt|[-> Hm]].
    - destruct (canonical_double_cases _ _ Hh) as [[Hd _]|[-> _]];
        [|destruct Hw as [Hw _]; unfold fexp64 in Hw; lia].
      pose proof (digits2_bounds mh) as [Hl _]. rewrite Hd in Hl.
      pose proof (digits2_bounds mw) as [_ Hu].
      assert (Z.pos (digits2_pos mw) ≤ 53)
        by (destruct (canonical_double_cases _ _ Hw) as [[-> _]|[_ ?]]; lia).
      assert (2 ^ Z.pos (digits2_pos mw) ≤ 2 ^ 53) by (apply Z.pow_le_mono_r; lia).
      assert (2 ^ 1 ≤ 2 ^ (eh - ew)) by (apply Z.pow_le_mono_r; lia).
      change (2 ^ (53 - 1)) with 4503599627370496 in Hl.
      change (2 ^ 53) with 9007199254740992 in *. change (2 ^ 1) with 2 in *. nia.
    - rewrite Z.sub_diag, Z.pow_0_r. lia. }
  assert (Z.pos (mw * mp) ≤ Z.pos (mh * mp) * 2 ^ (eh - ew)) as Hmm.
  { rewrite !Pos2Z.inj_mul. nia. }
  assert (d1 + (ew + ep) ≤ d2 + (eh + ep)) as HD.
  { pose proof (digits2_bounds (mw * mp)) as [Hl _].
    pose proof (digits2_bounds (mh * mp)) as [_ Hu]. fold d1 in Hl. fold d2 in Hu.
    destruct (Z.le_gt_cases (d1 + (ew + ep)) (d2 + (eh + ep))) as [|Hgt]; [done|].
    assert (2 ^ (d2 + (eh - ew)) ≤ 2 ^ (d1 - 1)) as Hpw
      by (apply Z.pow_le_mono_r; lia).
    rewrite Z.pow_add_r in Hpw by lia. nia. }
  assert (E1 ≤ E2) as HE by (unfold E1, E2, fexp64; lia).
  apply rounded_le.
  - apply RNE_range; [lia|]. unfold E1, fexp64. fold d1. lia.
  - apply RNE_range; [lia|]. unfold E2, fexp64. fold d2. lia.
  - destruct (Z.eq_dec E1 E2) as [Heq|Hne]; [left|right]; (split; [lia|]).
    + rewrite <- (RNE_scale (Z.pos (mh * mp)) (E2 - (eh + ep)) (eh - ew)) by lia.
      replace (E2 - (eh + ep) + (eh - ew)) with (E1 - (ew + ep)) by lia.
      apply RNE_mono; lia.
    + assert (E2 = d2 + (eh + ep) - 53) as HE2 by (unfold E1, E2, fexp64 in *; lia).
      etrans; [|apply RNE_bounds].
      apply Z.div_le_lower_bound; [apply Z.pow_pos_nonneg; lia|].
      pose proof (digits2_bounds (mh * mp)) as [Hl _]. fold d2 in Hl.
      replace (E2 - (eh + ep)) with (d2 - 53) by lia.
      rewrite <- Z.pow_add_r by lia. by replace (d2 - 53 + 52) with (d2 - 1) by lia.
Qed.

Lemma rounded_sign (mr E : Z) :
  0 ≤ mr →
  SFleb (S754_zero false) (rounded false mr E) = true
  ∧ SFleb (rounded true mr E) (S754_zero false) = true.
Proof.
  intros Hmr. unfold rounded. destruct mr as [|p|p]; [done| |lia].
  destruct (Z.pos p =? 2 ^ 53); [destruct (E + 1 <=? 971)|destruct (E <=? 971)]; done.
Qed.

Lemma SFleb_through_zero (x y : spec_float) :
  SFleb x (S754_zero false) = true → SFleb (S754_zero false) y = true →
  SFleb x y = true.
Proof. by destruct x as [[]|[]| |[] ? ?], y as [[]|[]| |[] ? ?]. Qed.

(** Multiplication by a double that is not negative keeps the order of
    finite doubles. *)
Lemma SFmul_le (w h p : spec_float) :
  valid_binary w = true → valid_binary h = true → valid_binary p = true →
  SFfinite w = true → SFfinite h = true → SFfinite p = true →
  SFleb (S754_zero false) p = true →
  SFleb w h = true →
  SFleb (SFmul prec emax w p) (SFmul prec emax h p) = true.
Proof.
  intros Vw Vh Vp Fw Fh Fp Hp Hle.
  destruct p as [sp| | |sp mp ep]; try done.
  { destruct w, h; try done; cbn [SFmul]; done. }
  destruct sp; [done|]. cbn [valid_binary] in Vp. apply bounded_canonical in Vp.
  destruct w as [sw| | |sw mw ew], h as [sh| | |sh mh eh]; try done;
    cbn [valid_binary] in Vw, Vh;
    try apply bounded_canonical in Vw; try apply bounded_canonical in Vh.
  - rewrite (SFmul_finite sh) by done. destruct sh; [by destruct sw|].
    cbn [SFmul]. eapply SFleb_through_zero; [by destruct sw|].
    apply rounded_sign, RNE_range; [|unfold fexp64; lia].
    pose proof (product_shift mh mp eh ep Vh Vp). lia.
  - rewrite (SFmul_finite sw) by done. destruct sw; [|by destruct sh].
    cbn [SFmul]. eapply SFleb_through_zero; [|by destruct sh].
    apply rounded_sign, RNE_range; [|unfold fexp64; lia].
    pose proof (product_shift mw mp ew ep Vw Vp). lia.
  - destruct sw, sh; try done.
    + apply SFleb_finite_neg in Hle.
      apply (product_le mh mw mp eh ew ep); try done. lia.
    + rewrite !SFmul_finite by done. eapply SFleb_through_zero.
      * apply rounded_sign, RNE_range; [|unfold fexp64; lia].
        pose proof (product_shift mw mp ew ep Vw Vp). lia.
      * apply rounded_sign, RNE_range; [|unfold fexp64; lia].
        pose proof (product_shift mh mp eh ep Vh Vp). lia.
    + apply SFleb_finite_pos in Hle. by apply (product_le mw mh mp ew eh ep).
Qed.

(** The product of two finite doubles is not [NaN]. *)
Lemma SFmul_not_nan (w p : spec_float) :
  valid_binary w = true → valid_binary p = true →
  SFfinite w = true → SFfinite p = true →
  SFleb (S754_zero false) p = true →
  SFmul prec emax w p ≠ S754_nan.
Proof.
  intros Vw Vp Fw Fp Hp. destruct p as [sp| | |sp mp ep]; try done.
  { by destruct w. }
  destruct sp; [done|]. destruct w as [sw| | |sw mw ew]; try done.
  cbn [valid_binary] in Vw, Vp. rewrite bounded_canonical in Vw, Vp.
  rewrite SFmul_finite by done.
  pose proof (product_shift mw mp ew ep Vw Vp).
  pose proof (RNE_range (mw * mp)
                (fexp64 (Z.pos (digits2_pos (mw * mp)) + (ew + ep)) - (ew + ep))
                ltac:(lia) ltac:(unfold fexp64; lia)) as Hr.
  unfold rounded. destruct (RNE _ _) as [|q|q]; [done| |lia].
  destruct (Z.pos q =? 2 ^ 53);
    [destruct (_ + 1 <=? 971)|destruct (_ <=? 971)]; done.
Qed.

Lemma SFcompare_antisym (x y : spec_float) :
  SFcompare y x = CompOpp <$> SFcompare x y.
Proof.
  destruct x as [[]|[]| |[] m1 e1], y as [[]|[]| |[] m2 e2]; try done;
    cbn [SFcompare fmap option_fmap option_map]; f_equal;
    rewrite (Z.compare_antisym e1 e2);
    destruct (e1 ?= e2) eqn:E; cbn [CompOpp]; try done;
    change (Pos.compare_cont Eq ?a ?b) with (Pos.compare a b);
    rewrite (Pos.compare_antisym m1 m2); by destruct (m1 ?= m2)%positive.
Qed.

Lemma iter_xO (m k : positive) : Z.pos (Pos.iter xO m k) = Z.pos m * 2 ^ Z.pos k.
Proof.
  induction k as [|k IH] using Pos.peano_ind.
  - cbn [Pos.iter]. lia.
  - rewrite Pos.iter_succ, Pos2Z.inj_xO, IH, Pos2Z.inj_succ, Z.pow_succ_r by lia. lia.
Qed.

Lemma digits2_shift (m : positive) (k : Z) (mz : positive) :
  0 ≤ k → Z.pos mz = Z.pos m * 2 ^ k →
  Z.pos (digits2_pos mz) = Z.pos (digits2_pos m) + k.
Proof.
  intros Hk Hmz. pose proof (digits2_bounds m) as [Hl Hu].
  pose proof (digits2_bounds mz) as [Hl' Hu']. rewrite Hmz in Hl', Hu'.
  assert (0 < 2 ^ k) by (by apply Z.pow_pos_nonneg).
  set (d := Z.pos (digits2_pos m)) in *. set (d' := Z.pos (digits2_pos mz)) in *.
  destruct (Z.lt_trichotomy d' (d + k)) as [Hlt|[?|Hgt]]; [|done|].
  - assert (2 ^ d' ≤ 2 ^ (d - 1 + k)) as Hp by (apply Z.pow_le_mono_r; lia).
    rewrite Z.pow_add_r in Hp by lia. nia.
  - assert (2 ^ (d + k) ≤ 2 ^ (d' - 1)) as Hp by (apply Z.pow_le_mono_r; lia).
    rewrite Z.pow_add_r in Hp by lia. nia.
Qed.

(** An integer below 2^53 is a double: the mantissa is the integer
    shifted to 53 digits. *)
Lemma binary_normalize_small (m : positive) :
  Z.pos m < 2 ^ 53 →
  ∃ mz, binary_normalize prec emax (Z.pos m) 0 false
        = S754_finite false mz (Z.pos (digits2_pos m) - 53)
      ∧ Z.pos mz = Z.pos m * 2 ^ (53 - Z.pos (digits2_pos m))
      ∧ canonical_double mz (Z.pos (digits2_pos m) - 53).
Proof.
  intros Hm. set (d := Z.pos (digits2_pos m)).
  assert (1 ≤ d ≤ 53) as Hd.
  { pose proof (digits2_bounds m) as [Hl _]. fold d in Hl. split; [lia|].
    destruct (Z.le_gt_cases d 53) as [|Hgt]; [done|].
    assert (2 ^ 53 ≤ 2 ^ (d - 1)) by (apply Z.pow_le_mono_r; lia). lia. }
  cbn [binary_normalize]. unfold binary_round. rewrite fexp_eq. fold d.
  replace (fexp64 (d + 0)) with (d - 53) by (unfold fexp64; lia).
  assert (∃ mz, shl_align m 0 (d - 53) = (mz, d - 53)
                ∧ Z.pos mz = Z.pos m * 2 ^ (53 - d)) as (mz & -> & Hmz).
  { unfold shl_align. rewrite Z.sub_0_r. destruct (d - 53) as [|q|q] eqn:Eq; [|lia|].
    - exists m. replace (53 - d) with 0 by lia. split; [done|lia].
    - eexists. split; [reflexivity|]. rewrite iter_xO. f_equal. f_equal. lia. }
  exists mz. pose proof (digits2_shift m (53 - d) mz ltac:(lia) Hmz) as Hdz.
  fold d in Hdz.
  assert (canonical_double mz (d - 53)) as Hc.
  { unfold canonical_double, fexp64. rewrite Hdz. lia. }
  split; [|done].
  rewrite binary_round_aux_eq by (rewrite Hdz; unfold fexp64; lia).
  rewrite Hdz. replace (fexp64 (d + (53 - d) + (d - 53))) with (d - 53)
    by (unfold fexp64; lia).
  rewrite Z.sub_diag, RNE_exact. unfold rounded.
  pose proof (digits2_bounds mz) as [_ Hu]. rewrite Hdz in Hu.
  replace (d + (53 - d)) with 53 in Hu by lia.
  destruct (Z.eqb_spec (Z.pos mz) (2 ^ 53)) as [?|_]; [lia|].
  destruct (Z.leb_spec (d - 53) 971); [done|lia].
Qed.

(** Multiplication by one leaves a double as it is. *)
Lemma SFmul_one (s : bool) (m : positive) (e : Z) :
  canonical_double m e →
  SFmul prec emax (S754_finite s m e) (S754_finite false 4503599627370496 (-52))
  = S754_finite s m e.
Proof.
  intros Hc. assert (canonical_double 4503599627370496 (-52)) as Hone by done.
  rewrite SFmul_finite by done.
  pose proof (digits2_shift m 52 (m * 4503599627370496) ltac:(lia)
                ltac:(rewrite Pos2Z.inj_mul; done)) as Hd.
  rewrite Hd. destruct Hc as [He Hmax].
  replace (fexp64 (Z.pos (digits2_pos m) + 52 + (e + -52))) with e
    by (rewrite He at 1; f_equal; lia).
  replace (e - (e + -52)) with (0 + 52) by lia.
  rewrite Pos2Z.inj_mul. change (Z.pos 4503599627370496) with (2 ^ 52).
  rewrite RNE_scale, RNE_exact by lia. unfold rounded.
  pose proof (digits2_bounds m) as [_ Hu].
  assert (Z.pos (digits2_pos m) ≤ 53) by (unfold fexp64 in He; lia).
  assert (2 ^ Z.pos (digits2_pos m) ≤ 2 ^ 53) by (apply Z.pow_le_mono_r; lia).
  destruct (Z.eqb_spec (Z.pos m) (2 ^ 53)) as [?|_]; [lia|].
  destruct (Z.leb_spec e 971); [done|lia].
Qed.

End Doubles.

Section FloatFacts.
Local Open Scope float_scope.

Lemma is_nan_false (x : float) : is_nan x = false ↔ Prim2SF x ≠ S754_nan.
Proof.
  unfold is_nan. rewrite FloatAxioms.eqb_spec. unfold SFeqb.
  destruct (Prim2SF x) as [[]|[]| |[] m e]; cbn [SFcompare];
    rewrite ?Z.compare_refl, ?Pos.compare_cont_refl; by split.
Qed.

Lemma is_finite_SF (x : float) : is_finite x = true → SFfinite (Prim2SF x) = true.
Proof.
  unfold is_finite, is_nan, is_infinity. rewrite !FloatAxioms.eqb_spec, abs_spec.
  change (Prim2SF infinity) with (S754_infinity false).
  by destruct (Prim2SF x) as [[]|[]| |[] m e].
Qed.

Lemma float_order_total (x y : float) :
  is_nan x = false → is_nan y = false → float_order x y.
Proof.
  rewrite !is_nan_false. intros Hx Hy.
  assert (∃ c, SFcompare (Prim2SF x) (Prim2SF y) = Some c) as [c Hc].
  { destruct (Prim2SF x) as [[]|[]| |[] ? ?], (Prim2SF y) as [[]|[]| |[] ? ?];
      try done; by eexists. }
  pose proof (SFcompare_antisym (Prim2SF x) (Prim2SF y)) as Hc'.
  rewrite Hc in Hc'. cbn in Hc'.
  destruct c; [apply float_eq|apply float_lt|apply float_gt];
    rewrite ?FloatAxioms.ltb_spec, ?FloatAxioms.leb_spec, ?FloatAxioms.eqb_spec; unfold SFltb, SFleb, SFeqb;
    by rewrite ?Hc, ?Hc'.
Qed.

(** Multiplication by a finite double that is not negative keeps the
    order of finite doubles. *)
Lemma mul_le_mono (w h p : float) :
  is_finite w = true → is_finite h = true → is_finite p = true →
  (0 <=? p) = true → (w <=? h) = true → (w * p <=? h * p) = true.
Proof.
  intros Fw Fh Fp Hp Hle. rewrite FloatAxioms.leb_spec in Hp, Hle. rewrite FloatAxioms.leb_spec, !mul_spec.
  apply SFmul_le; try apply Prim2SF_valid; try by apply is_finite_SF.
  - done.
  - done.
Qed.

Lemma mul_not_nan (w p : float) :
  is_finite w = true → is_finite p = true → (0 <=? p) = true →
  is_nan (w * p) = false.
Proof.
  intros Fw Fp Hp. rewrite FloatAxioms.leb_spec in Hp. rewrite is_nan_false, mul_spec.
  apply SFmul_not_nan; try apply Prim2SF_valid; try by apply is_finite_SF.
  done.
Qed.

Lemma is_finite_not_nan (x : float) : is_finite x = true → is_nan x = false.
Proof.
  unfold is_finite. rewrite negb_true_iff, orb_false_iff. by intros [? _].
Qed.

Lemma float_eqb_refl (x : float) : is_nan x = false → (x =? x) = true.
Proof. unfold is_nan. by rewrite negb_false_iff. Qed.

(** [Math.max] of two numbers is one of them, the one that is not less. *)
Lemma Math_max_cases (a b : float) :
  is_nan a = false → is_nan b = false →
  ((a <? b) = true → Math_max a b = b)
  ∧ ((a <? b) = false → (b <? a) = true → Math_max a b = a)
  ∧ (Math_max a b = a ∨ Math_max a b = b).
Proof.
  intros Ha Hb. unfold Math_max. rewrite Ha, Hb. cbn [orb].
  destruct (a <? b), (b <? a), (is_zero a && get_sign a); split_and!; auto; done.
Qed.

(** Scaling both arguments of [Math.max] by a finite number that is not
    negative scales the maximum, for finite doubles. *)
Lemma Math_max_scale (a b p : float) :
  is_finite a = true → is_finite b = true → is_finite p = true →
  (0 <=? p) = true →
  (Math_max (a * p) (b * p) =? Math_max a b * p) = true.
Proof.
  intros Fa Fb Fp Hp.
  pose proof (is_finite_not_nan a Fa) as Na. pose proof (is_finite_not_nan b Fb) as Nb.
  pose proof (mul_not_nan a p Fa Fp Hp) as Nx.
  pose proof (mul_not_nan b p Fb Fp Hp) as Ny.
  pose proof (mul_le_mono a b p Fa Fb Fp Hp) as Hab.
  pose proof (mul_le_mono b a p Fb Fa Fp Hp) as Hba.
  destruct (Math_max_cases a b Na Nb) as (Mlt & Mgt & Mor).
  destruct (Math_max_cases (a * p) (b * p) Nx Ny) as (Mlt' & Mgt' & Mor').
  pose proof (float_eqb_refl _ Nx) as Ex. pose proof (float_eqb_refl _ Ny) as Ey.
  destruct (float_order_total a b Na Nb) as [Hlt Hle _ _ _ _|_ Hle _ _ Hge _|Hlt _ _ Hgt Hge _].
  - rewrite (Mlt Hlt). specialize (Hab Hle).
    destruct (float_order_total _ _ Nx Ny) as [Hlt' _ _ _ _ _|_ _ He' _ _ _|_ Hle' _ _ _ _].
    + by rewrite (Mlt' Hlt').
    + by destruct Mor' as [-> | ->].
    + congruence.
  - specialize (Hab Hle). specialize (Hba Hge).
    destruct (float_order_total _ _ Nx Ny) as [_ _ _ _ Hge' _|_ _ He' _ _ He''|_ Hle' _ _ _ _];
      [congruence| |congruence].
    by destruct Mor as [-> | ->], Mor' as [-> | ->].
  - rewrite (Mgt Hlt Hgt). specialize (Hba Hge).
    destruct (float_order_total _ _ Nx Ny) as [_ _ _ _ Hge' _|_ _ _ _ _ He''|Hlt' _ _ Hgt' _ _].
    + congruence.
    + by destruct Mor' as [-> | ->].
    + by rewrite (Mgt' Hlt' Hgt').
Qed.

Lemma SF_is_finite (x : float) : SFfinite (Prim2SF x) = true → is_finite x = true.
Proof.
  unfold is_finite, is_nan, is_infinity. rewrite !FloatAxioms.eqb_spec, abs_spec.
  change (Prim2SF infinity) with (S754_infinity false). unfold SFeqb.
  destruct (Prim2SF x) as [[]|[]| |[] m e]; cbn [SFfinite SFabs SFcompare]; try done;
    by rewrite Z.compare_refl, Pos.compare_cont_refl.
Qed.

(** The double of a natural number below 2^53. *)
Lemma num_of_N_spec (n : N) :
  (Z.of_N n < 2 ^ 53)%Z →
  (n = 0%N ∧ Prim2SF (num_of_N n) = S754_zero false)
  ∨ (∃ mz k, Prim2SF (num_of_N n) = S754_finite false mz (- k)
             ∧ (0 ≤ k)%Z ∧ Z.pos mz = (Z.of_N n * 2 ^ k)%Z
             ∧ canonical_double mz (- k)).
Proof.
  intros Hn. unfold num_of_N. rewrite of_uint63_spec, Uint63.of_Z_spec.
  rewrite Z.mod_small by (change Uint63.wB with (2 ^ 63)%Z; lia).
  destruct n as [|m]; [by left|right]. change (Z.of_N (N.pos m)) with (Z.pos m) in *.
  destruct (binary_normalize_small m Hn) as (mz & -> & Hmz & Hc).
  pose proof (digits2_bounds m) as [Hl _].
  assert (Z.pos (digits2_pos m) ≤ 53)%Z.
  { destruct (Z.le_gt_cases (Z.pos (digits2_pos m)) 53) as [|Hgt]; [done|].
    assert (2 ^ 53 ≤ 2 ^ (Z.pos (digits2_pos m) - 1))%Z
      by (apply Z.pow_le_mono_r; lia).
    lia. }
  exists mz, (53 - Z.pos (digits2_pos m))%Z.
  replace (- (53 - Z.pos (digits2_pos m)))%Z with (Z.pos (digits2_pos m) - 53)%Z by lia.
  split_and!; [done|lia|done|done].
Qed.

Lemma num_of_N_finite (n : N) :
  (Z.of_N n < 2 ^ 53)%Z → is_finite (num_of_N n) = true.
Proof.
  intros Hn. apply SF_is_finite.
  by destruct (num_of_N_spec n Hn) as [[_ ->]|(mz & k & -> & _)].
Qed.

Lemma num_of_N_times_one (n : N) :
  (Z.of_N n < 2 ^ 53)%Z → num_of_N n * 1 = num_of_N n.
Proof.
  intros Hn. apply Prim2SF_inj. rewrite mul_spec.
  change (Prim2SF 1) with (S754_finite false 4503599627370496 (-52)).
  destruct (num_of_N_spec n Hn) as [[_ ->]|(mz & k & -> & _ & _ & Hc)]; [done|].
  by apply SFmul_one.
Qed.

Lemma num_of_N_times_zero (n : N) :
  (Z.of_N n < 2 ^ 53)%Z → num_of_N n * 0 = 0.
Proof.
  intros Hn. apply Prim2SF_inj. rewrite mul_spec.
  change (Prim2SF 0) with (S754_zero false).
  by destruct (num_of_N_spec n Hn) as [[_ ->]|(mz & k & -> & _)].
Qed.

Lemma num_of_N_plus_zero (n : N) :
  (Z.of_N n < 2 ^ 53)%Z → num_of_N n + 0 = num_of_N n.
Proof.
  intros Hn. apply Prim2SF_inj. rewrite add_spec.
  change (Prim2SF 0) with (S754_zero false).
  by destruct (num_of_N_spec n Hn) as [[_ ->]|(mz & k & -> & _)].
Qed.

Lemma IntegerPart_num_of_N (n : N) :
  (Z.of_N n < 2 ^ 53)%Z → IntegerPart (num_of_N n) = Z.of_N n.
Proof.
  intros Hn. unfold IntegerPart.
  destruct (num_of_N_spec n Hn) as [[-> ->]|(mz & k & -> & Hk & Hmz & _)]; [done|].
  rewrite Z.opp_involutive, Hmz.
  assert (0 < 2 ^ k)%Z by (by apply Z.pow_pos_nonneg).
  destruct (Z.leb_spec 0 (- k)).
  - replace k with 0%Z by lia. rewrite Z.opp_0, Z.pow_0_r. lia.
  - by rewrite Z.div_mul by lia.
Qed.

End FloatFacts.

(** ** ImageFramer *)

Lemma to_unsigned_long_range (x : float) : (0 ≤ to_unsigned_long x < 2 ^ 32)%Z.
Proof. unfold to_unsigned_long. by apply Z.mod_pos_bound. Qed.

(** The size of a canvas is at most 2^31 - 1, whatever is assigned. *)
Lemma set_dimension_range (d : Z) (x : float) :
  (0 ≤ d ≤ 2147483647)%Z → (0 ≤ set_dimension d x ≤ 2147483647)%Z.
Proof.
  intros Hd. unfold set_dimension. pose proof (to_unsigned_long_range x).
  destruct (Z.leb_spec (to_unsigned_long x) 2147483647); lia.
Qed.

(** A number whose integer part is in the range is stored as that
    integer part. *)
Lemma set_dimension_IntegerPart (d : Z) (x : float) :
  (0 ≤ IntegerPart x ≤ 2147483647)%Z → set_dimension d x = IntegerPart x.
Proof.
  intros Hx. unfold set_dimension, to_unsigned_long.
  rewrite Z.mod_small by lia. destruct (Z.leb_spec (IntegerPart x) 2147483647); lia.
Qed.

(** With a negative padding the padding of the code, the larger of the
    two products, is not the product with the larger side; the sum
    assigned to [canvas.width] is negative and the canvas takes the
    default width. *)
Lemma frame_padding_negative :
  frame_padding small_image negative_padding = (-1)%float
  ∧ stated_padding small_image negative_padding = (-2)%float
  ∧ frame_padding small_image negative_padding
    ≠ stated_padding small_image negative_padding
  ∧ canvas_width (framed_canvas small_image negative_padding) = 300%Z
  ∧ canvas_height (framed_canvas small_image negative_padding) = 0%Z.
Proof.
  split_and!; [by vm_compute|by vm_compute| |by vm_compute|by vm_compute].
  intros H. apply (f_equal (λ x, PrimFloat.eqb x (-2)%float)) in H.
  vm_compute in H. discriminate.
Qed.

(** A size that is not an integer is cut: an image of 3 by 3 at scale
    0.5 is drawn with the size 1.5 by 1.5 on a canvas of 1 by 1. *)
Lemma frame_canvas_truncated :
  frame_width odd_image half_scale = 1.5%float
  ∧ frame_padding odd_image half_scale = 0%float
  ∧ canvas_width (framed_canvas odd_image half_scale) = 1%Z
  ∧ canvas_height (framed_canvas odd_image half_scale) = 1%Z
  ∧ drawn (framed_canvas odd_image half_scale)
    = [DrawImage odd_image 0 0 1.5 1.5].
Proof. by vm_compute. Qed.

(** C5, amended.  Without a 2D context [frameImage] returns [null] and
    does not raise.  With one, it returns the encoding of a canvas on
    which the image is drawn with smoothing off at [(p, p)] with the size
    [width] by [height], where [width = naturalWidth * scale],
    [height = naturalHeight * scale] and the padding [p] is the larger of
    [width * padding] and [height * padding], all in double arithmetic.
    The width and the height of the canvas are what the assignments of
    [width + p * 2] and [height + p * 2] leave in these [unsigned long]
    attributes: never more than 2^31 - 1, and the integer part of the sum
    when that is in the range.  When [width], [height] and [padding] are
    finite and [padding] is not negative, [p] is equal to
    [max(width, height) * padding]. *)
Theorem frameImage_spec (document : Document) (image : HTMLImageElement)
    (o : FrameOptions) :
  let width := (num_of_N (naturalWidth image) * default 1 (scale o))%float in
  let height := (num_of_N (naturalHeight image) * default 1 (scale o))%float in
  let p := Math_max (width * default 0 (padding o))%float
                    (height * default 0 (padding o))%float in
  (getContext2d document = false → frameImage document image o = None)
  ∧ (getContext2d document = true →
     ∃ canvas,
       frameImage document image o = Some (toDataURL document canvas)
       ∧ imageSmoothingEnabled canvas = false
       ∧ drawn canvas = drawImage image p p width height
       ∧ canvas_width canvas = set_dimension 300 (width + p * 2)%float
       ∧ canvas_height canvas = set_dimension 150 (height + p * 2)%float
       ∧ (0 ≤ canvas_width canvas ≤ 2147483647)%Z
       ∧ (0 ≤ canvas_height canvas ≤ 2147483647)%Z
       ∧ ((0 ≤ IntegerPart (width + p * 2)%float ≤ 2147483647)%Z →
          canvas_width canvas = IntegerPart (width + p * 2)%float)
       ∧ ((0 ≤ IntegerPart (height + p * 2)%float ≤ 2147483647)%Z →
          canvas_height canvas = IntegerPart (height + p * 2)%float))
  ∧ (PrimFloat.is_finite width = true → PrimFloat.is_finite height = true →
     PrimFloat.is_finite (default 0%float (padding o)) = true →
     PrimFloat.leb 0 (default 0%float (padding o)) = true →
     PrimFloat.eqb p (Math_max width height * default 0 (padding o))%float = true).
Proof.
  intros width height p. unfold frameImage. split_and!.
  - by intros ->.
  - intros ->. eexists. split; [reflexivity|].
    cbn [framed_canvas canvas_width canvas_height imageSmoothingEnabled drawn].
    fold width height. unfold frame_padding, frame_width, frame_height.
    fold width height p.
    do 4 (split; [reflexivity|]).
    split; [by apply set_dimension_range|].
    split; [by apply set_dimension_range|].
    split; apply set_dimension_IntegerPart.
  - apply Math_max_scale.
Qed.

Lemma frameImage_spec_witness :
  getContext2d sample_document = true
  ∧ (0 ≤ IntegerPart (12 + 3 * 2)%float ≤ 2147483647)%Z
  ∧ (0 ≤ IntegerPart (8 + 3 * 2)%float ≤ 2147483647)%Z
  ∧ PrimFloat.is_finite (frame_width sample_image sample_options) = true
  ∧ PrimFloat.is_finite (frame_height sample_image sample_options) = true
  ∧ PrimFloat.is_finite 0.25 = true
  ∧ PrimFloat.leb 0 0.25 = true
  ∧ (∃ canvas,
       frameImage sample_document sample_image sample_options
         = Some (toDataURL sample_document canvas)
       ∧ drawn canvas = [DrawImage sample_image 3 3 12 8]
       ∧ canvas_width canvas = 18%Z
       ∧ canvas_height canvas = 14%Z)
  ∧ PrimFloat.eqb (frame_padding sample_image sample_options)
                  (stated_padding sample_image sample_options) = true.
Proof.
  split; [reflexivity|]. split; [by vm_compute|]. split; [by vm_compute|].
  do 4 (split; [reflexivity|]).
  pose proof (frameImage_spec sample_document sample_image sample_options)
    as (_ & Hsome & Hpad).
  split.
  - destruct (Hsome eq_refl) as (canvas & Hc & _ & Hd & _ & _ & _ & _ & Hw & Hh).
    exists canvas. split; [exact Hc|]. split; [exact Hd|]. split.
    + rewrite Hw; by vm_compute.
    + rewrite Hh; by vm_compute.
  - exact (Hpad eq_refl eq_refl eq_refl eq_refl).
Defined.

(** ** MetadataShapeFixer *)

Lemma schema_path_obj (o : gmap string value) (field leaf : string) :
  schema_path (VObj o) field leaf = Return (leaf_of o field leaf).
Proof.
  unfold schema_path, leaf_of. cbn.
  destruct (o !! "properties") as [[| | | | | |properties]|]; try done.
  cbn. by destruct (properties !! field) as [[| | | | | |f]|].
Qed.

Lemma description_path_eq (data : value) (field : string) :
  description_path data field
  = Return (default VUndefined (description_of data field)).
Proof.
  unfold description_path, description_of.
  destruct data as [| | | | | |o]; try done. cbn.
  destruct (o !! "properties") as [[| | | | | |properties]|]; try done.
  cbn. by destruct (properties !! field) as [[| | | | | |f]|].
Qed.

(** The two tests on one property of the schema. *)
Lemma leaf_string_property (o : gmap string value) (field : string) :
  String.eqb (typeof (leaf_of o field "description")) "string" = true
  ∧ strict_eq_str (leaf_of o field "type") "string" = true
  ↔ ∃ properties, o !! "properties" = Some (VObj properties)
                  ∧ string_property properties field.
Proof.
  unfold leaf_of, string_property. split.
  - intros [Hd Ht].
    destruct (o !! "properties") as [[| | | | | |properties]|]; try done.
    exists properties. split; [done|].
    destruct (properties !! field) as [[| | | | | |f]|]; try done.
    destruct (f !! "type") as [[| | | |ty| |]|] eqn:Ety; try done.
    destruct (f !! "description") as [[| | | |d| |]|] eqn:Ed; try done.
    cbn in Ht. apply String.eqb_eq in Ht as ->. by exists f, d.
  - intros (properties & -> & f & d & -> & -> & ->). done.
Qed.

Lemma and_then_Return (a b : bool) : Return a &&& Return b = Return (a && b).
Proof. by destruct a. Qed.

Lemma isNftMetadataMixedInJsonSchema_obj (o : gmap string value) :
  isNftMetadataMixedInJsonSchema (VObj o) =
    Return (strict_eq_str (default VUndefined (o !! "title")) "Asset Metadata"
            && strict_eq_str (default VUndefined (o !! "type")) "object"
            && String.eqb (typeof (leaf_of o "name" "description")) "string"
            && String.eqb (typeof (leaf_of o "image" "description")) "string"
            && String.eqb (typeof (leaf_of o "description" "description")) "string"
            && strict_eq_str (leaf_of o "name" "type") "string"
            && strict_eq_str (leaf_of o "image" "type") "string"
            && strict_eq_str (leaf_of o "description" "type") "string").
Proof.
  unfold isNftMetadataMixedInJsonSchema.
  change (negb (truthy (VObj o)) || negb (String.eqb (typeof (VObj o)) "object"))
    with false.
  cbn iota. rewrite !schema_path_obj. unfold equals_str, typeof_is.
  cbn [get mbind completion_bind]. by rewrite !and_then_Return.
Qed.

Lemma strict_eq_str_lookup (m : gmap string value) (k s : string) :
  strict_eq_str (default VUndefined (m !! k)) s = true ↔ m !! k = Some (VStr s).
Proof.
  destruct (m !! k) as [[| | | |t| |]|]; cbn; try done.
  rewrite String.eqb_eq. split; [by intros ->|by intros [= ->]].
Qed.

Lemma or_empty_string (v : option value) :
  (∀ s, v = Some (VStr s) →
     (if truthy (default VUndefined v) then default VUndefined v else VStr "") = VStr s)
  ∧ (v = None →
     (if truthy (default VUndefined v) then default VUndefined v else VStr "") = VStr "").
Proof.
  split; [|by intros ->]. intros s ->. cbn.
  by destruct (String.eqb_spec s "") as [->|].
Qed.

(** What [fixNftMetadataMixedInJsonSchema] puts in one field. *)
Lemma or_empty_cases (d : option value) (x : value) :
  x = (if truthy (default VUndefined d) then default VUndefined d else VStr "") →
  (∀ v, d = Some v → truthy v = true → x = v)
  ∧ (∀ v, d = Some v → truthy v = false → x = VStr "")
  ∧ (d = None → x = VStr "")
  ∧ (∀ s, d = Some (VStr s) → x = VStr s).
Proof.
  intros ->. split_and!.
  - intros v -> Hv. cbn. by rewrite Hv.
  - intros v -> Hv. cbn. by rewrite Hv.
  - by intros ->.
  - intros s. apply or_empty_string.
Qed.

(** A description that is the number 0 is there, and the field of the
    record is the empty string, not 0. *)
Lemma fixNftMetadataMixedInJsonSchema_zero :
  description_of zero_schema_document "name" = Some (VNum 0)
  ∧ ∃ r : gmap string value,
      fixNftMetadataMixedInJsonSchema zero_schema_document = Return r
      ∧ r !! "name" = Some (VStr "")
      ∧ r !! "name" ≠ Some (VNum 0).
Proof.
  split; [reflexivity|]. eexists. split; [reflexivity|].
  rewrite lookup_insert_eq. by split.
Qed.

(** C6, amended.  [isNftMetadataMixedInJsonSchema] returns, and its
    result is true exactly for an object with [title] equal to "Asset
    Metadata", [type] equal to "object" and, under [properties], the
    three properties [name], [image] and [description], each an object
    with [type] equal to "string" and a string under [description].
    [fixNftMetadataMixedInJsonSchema] returns, for every input, a record
    of exactly the fields [name], [description] and [image]; each field
    holds the value found under [properties.<field>.description] when
    that value is truthy, and the empty string when the value is falsy
    ([undefined], [null], [false], 0 or the empty string) or when nothing
    is found there; a string found there is in the field as it is. *)
Theorem metadata_json_schema :
  (∀ data, ∃ b,
     isNftMetadataMixedInJsonSchema data = Return b
     ∧ (b = true ↔ json_schema_shape data))
  ∧ (∀ data, ∃ r : gmap string value,
       fixNftMetadataMixedInJsonSchema data = Return r
       ∧ dom r = {["name"; "description"; "image"]}
       ∧ ∀ field, field ∈ ["name"; "description"; "image"] →
           ∃ x, r !! field = Some x
             ∧ (∀ v, description_of data field = Some v → truthy v = true → x = v)
             ∧ (∀ v, description_of data field = Some v → truthy v = false →
                  x = VStr "")
             ∧ (description_of data field = None → x = VStr "")
             ∧ (∀ s, description_of data field = Some (VStr s) → x = VStr s)).
Proof.
  split.
  - intros data. destruct data as [| | | | | |o];
      try (exists false; split;
           [unfold isNftMetadataMixedInJsonSchema; by case_match|];
           split; [done|by intros (o & ? & ? & _)]).
    eexists. split; [apply isNftMetadataMixedInJsonSchema_obj|].
    rewrite !andb_true_iff, !strict_eq_str_lookup. unfold json_schema_shape. split.
    + intros [[[[[[[Htitle Htype] Hn] Hi] Hd] Hnt] Hit] Hdt].
      destruct (proj1 (leaf_string_property o "name") (conj Hn Hnt))
        as (properties & Hp & Hname).
      destruct (proj1 (leaf_string_property o "image") (conj Hi Hit))
        as (? & Hp' & Himage).
      destruct (proj1 (leaf_string_property o "description") (conj Hd Hdt))
        as (? & Hp'' & Hdesc).
      rewrite Hp in Hp', Hp''. injection Hp' as <-. injection Hp'' as <-.
      by exists o, properties.
    + intros (o' & properties & [= <-] & Htitle & Htype & Hp & Hn & Hi & Hd).
      pose proof (proj2 (leaf_string_property o "name")
                    (ex_intro _ properties (conj Hp Hn))) as [? ?].
      pose proof (proj2 (leaf_string_property o "image")
                    (ex_intro _ properties (conj Hp Hi))) as [? ?].
      pose proof (proj2 (leaf_string_property o "description")
                    (ex_intro _ properties (conj Hp Hd))) as [? ?].
      by split_and!.
  - intros data. eexists. split.
    { unfold fixNftMetadataMixedInJsonSchema, or_empty.
      rewrite !description_path_eq. cbn [mbind completion_bind]. reflexivity. }
    split.
    + rewrite !dom_insert_L, dom_empty_L. set_solver.
    + intros field Hfield.
      assert (field = "name" ∨ field = "description" ∨ field = "image") as Hcase.
      { rewrite !elem_of_cons, elem_of_nil in Hfield. tauto. }
      destruct Hcase as [->|[->| ->]].
      * eexists. split; [by rewrite lookup_insert_eq|]. by apply or_empty_cases.
      * eexists. split; [rewrite lookup_insert_ne, lookup_insert_eq by done; done|].
        by apply or_empty_cases.
      * eexists. split; [rewrite !lookup_insert_ne, lookup_insert_eq by done; done|].
        by apply or_empty_cases.
Qed.

Lemma metadata_json_schema_witness :
  "name" ∈ ["name"; "description"; "image"]
  ∧ description_of sample_schema_document "name" = Some (VStr "Portion #1")
  ∧ description_of sample_schema_document "description" = None
  ∧ description_of zero_schema_document "name" = Some (VNum 0)
  ∧ truthy (VNum 0) = false
  ∧ (∃ r : gmap string value,
       fixNftMetadataMixedInJsonSchema sample_schema_document = Return r
       ∧ r !! "name" = Some (VStr "Portion #1")
       ∧ r !! "description" = Some (VStr ""))
  ∧ (∃ r : gmap string value,
       fixNftMetadataMixedInJsonSchema zero_schema_document = Return r
       ∧ r !! "name" = Some (VStr "")).
Proof.
  assert (∀ field : string, field ∈ ["name"; "description"; "image"]
            ↔ field = "name" ∨ field = "description" ∨ field = "image") as Hin.
  { intros field. rewrite !elem_of_cons, elem_of_nil. tauto. }
  split; [apply Hin; auto|]. do 4 (split; [reflexivity|]). split.
  - destruct (proj2 metadata_json_schema sample_schema_document)
      as (r & Hr & _ & Hfields).
    exists r. split; [exact Hr|]. split.
    + destruct (Hfields "name") as (x & -> & _ & _ & _ & Hs); [apply Hin; auto|].
      f_equal. by apply Hs.
    + destruct (Hfields "description") as (x & -> & _ & _ & Hn & _);
        [apply Hin; auto|].
      f_equal. by apply Hn.
  - destruct (proj2 metadata_json_schema zero_schema_document)
      as (r & Hr & _ & Hfields).
    exists r. split; [exact Hr|].
    destruct (Hfields "name") as (x & -> & _ & Hf & _); [apply Hin; auto|].
    f_equal. by apply (Hf (VNum 0)).
Defined.

(** ** Replacement *)

Lemma includes_contains (s sub : string) :
  Str.includes s sub = true ↔ contains s sub.
Proof.
  unfold contains. induction s as [|c s IH]; cbn [Str.includes].
  - rewrite orb_false_r. split.
    + intros [r Hr]%starts_with_true. exists "", r. by rewrite app_nil_l.
    + intros (a & b & Hab). destruct a as [|c a]; [|by rewrite app_cons in Hab].
      rewrite app_nil_l in Hab. rewrite Hab. apply starts_with_app.
  - rewrite orb_true_iff, IH. split.
    + intros [[r Hr]%starts_with_true|(a & b & ->)].
      * exists "", r. by rewrite app_nil_l.
      * exists (String c a), b. by rewrite app_cons.
    + intros (a & b & Hab). destruct a as [|c' a].
      * left. rewrite app_nil_l in Hab. rewrite Hab. apply starts_with_app.
      * right. rewrite app_cons in Hab. injection Hab as -> ->. by exists a, b.
Qed.

(** A replacement text without [$] stands for itself. *)
Lemma GetSubstitution_plain (matched str : string) (position : nat)
    (caps : captures) (replacement : string) :
  no_dollar replacement = true →
  GetSubstitution matched str position caps replacement = replacement.
Proof.
  unfold no_dollar. induction replacement as [|c r IH]; [done|].
  cbn [Str.forallb]. intros [Hc Hr]%andb_true_iff. apply negb_true_iff in Hc.
  cbn [GetSubstitution]. by rewrite Hc, IH.
Qed.

Lemma replace_go_skip (re : RegExp) (replacement str : string) (n i : nat) (s : string) :
  n ≤ Str.len s →
  replace_go re replacement str n i s
  = replace_go re replacement str 0 (i + n) (Str.drop n s).
Proof.
  revert i s. induction n as [|n IH]; intros i s Hn.
  - by rewrite Nat.add_0_r.
  - destruct s as [|c s]; cbn in Hn; [lia|].
    cbn [replace_go Str.drop]. rewrite IH by lia. by rewrite Nat.add_succ_r.
Qed.

Lemma match_at_Lit (p : string) (i : nat) (s : string) :
  match_at {| source := Lit p; ngroups := 0 |} i s =
    match Str.strip_prefix p s with
    | Some _ => Some {| index := i; lastIndex := i + Str.len p;
                        groups := [Some (Str.take (i + Str.len p - i) s)] |}
    | None => None
    end.
Proof. unfold match_at. cbn [rmatch source]. by destruct (Str.strip_prefix p s). Qed.

Lemma replace_go_Lit (c0 : ascii) (p0 by_ str : string) :
  no_dollar by_ = true →
  ∀ n s i, Str.len s ≤ n →
    replaced (String c0 p0) by_ s
      (replace_go {| source := Lit (String c0 p0); ngroups := 0 |} by_ str 0 i s).
Proof.
  intros Hby. induction n as [|n IH]; intros [|c s] i Hn; cbn in Hn; try lia.
  - constructor.
  - constructor.
  - cbn [replace_go]. rewrite match_at_Lit.
    destruct (Str.strip_prefix _ _) as [rest|] eqn:E.
    + apply strip_prefix_Some in E. rewrite app_cons in E. injection E as -> ->.
      cbn [lastIndex groups].
      replace (i + _ - i) with (S (Str.len p0)) by (cbn; lia).
      rewrite GetSubstitution_plain by done. cbn [Nat.eqb Nat.sub].
      rewrite Nat.sub_0_r, replace_go_skip by (rewrite len_app; lia).
      rewrite drop_app. change (String c0 (p0 +:+ rest)) with (String c0 p0 +:+ rest).
      constructor. apply IH. rewrite len_app in Hn. lia.
    + constructor; [|apply IH; lia]. unfold Str.starts_with. by rewrite E.
Qed.

(** Replacing a literal pattern by a text without [$] replaces every
    occurrence, from left to right. *)
Lemma replace_all_Lit (c0 : ascii) (p0 by_ : string) (s : string) :
  no_dollar by_ = true →
  replaced (String c0 p0) by_ s
    (replace_all {| source := Lit (String c0 p0); ngroups := 0 |} s by_).
Proof. intros Hby. unfold replace_all. by eapply replace_go_Lit. Qed.

(** [replaced] determines its result. *)
Lemma replaced_fun (c0 : ascii) (p0 by_ s t t' : string) :
  replaced (String c0 p0) by_ s t → replaced (String c0 p0) by_ s t' → t = t'.
Proof.
  intros H. revert t'. induction H as [|s t H IH|c s t Hc H IH]; intros t' H'.
  - by inversion H'.
  - inversion H' as [|s' u Hu Hs|c s' u Hc Hu Hs].
    + apply (inj (String.app p0)) in Hs as ->. f_equal. by apply IH.
    + change (String c0 (p0 +:+ s)) with (String c0 p0 +:+ s) in Hc.
      by rewrite starts_with_app in Hc.
  - inversion H' as [|s' u Hu Hs|c' s' u Hc' Hu].
    + subst. change (String c (p0 +:+ s')) with (String c p0 +:+ s') in Hc.
      by rewrite starts_with_app in Hc.
    + f_equal. by apply IH.
Qed.

(** Where the pattern occurs, the replacement text occurs afterwards. *)
Lemma replaced_contains (c0 : ascii) (p0 by_ s t : string) :
  replaced (String c0 p0) by_ s t → contains s (String c0 p0) → contains t by_.
Proof.
  intros H. induction H as [|s t H IH|c s t Hc H IH]; intros (a & b & Hab).
  - destruct a; [by rewrite app_nil_l, app_cons in Hab|by rewrite app_cons in Hab].
  - exists "", t. by rewrite app_nil_l.
  - destruct a as [|c' a].
    + rewrite app_nil_l in Hab. rewrite Hab, starts_with_app in Hc. done.
    + rewrite app_cons in Hab. injection Hab as -> ->.
      destruct IH as (a' & b' & ->); [by exists a, b|].
      exists (String c' a'), b'. by rewrite app_cons.
Qed.

(** A string of decimal digits has no [$]. *)
Lemma digits_no_dollar (d : string) :
  Str.forallb is_digit d = true → no_dollar d = true.
Proof.
  unfold no_dollar. induction d as [|c d IH]; [done|]. cbn [Str.forallb].
  intros [Hc Hd]%andb_true_iff. rewrite IH by done. rewrite andb_true_r.
  apply negb_true_iff. destruct (Ascii.eqb_spec c "$") as [->|]; [|done].
  by vm_compute in Hc.
Qed.

(** ** MarketplaceUrlNormalizer *)

(** C4.  For every URL implementation, string [url] and token id:
    [normalizeOpenSeaUrl] returns and does not raise; when [url] does
    not parse it is returned unchanged; when it parses and the host is
    not [api.opensea.io], or the path does not contain [0x%7Bid%7D], it
    is returned unchanged; otherwise, the token id being a string of
    decimal digits, the path is set to the path with every occurrence of
    [0x%7Bid%7D] replaced by the token id, so that the token id occurs in
    it, the query parameter [format] is set to [json], and the string of
    the rebuilt URL is returned.  Where the URL implementation keeps the
    path it is given and leaves it alone when a query parameter is set,
    the string returned is that of a URL whose path is the path after
    replacement. *)
Theorem normalizeOpenSeaUrl_spec `{UrlApi} (url tokenId : string) :
  (∃ r, normalizeOpenSeaUrl url tokenId = Return r)
  ∧ (∀ e, URL_new url = Throw e → normalizeOpenSeaUrl url tokenId = Return url)
  ∧ (∀ u, URL_new url = Return u →
       URL_host u ≠ "api.opensea.io" ∨ ¬ contains (URL_pathname u) "0x%7Bid%7D" →
       normalizeOpenSeaUrl url tokenId = Return url)
  ∧ (∀ u, URL_new url = Return u →
       URL_host u = "api.opensea.io" →
       contains (URL_pathname u) "0x%7Bid%7D" →
       Str.forallb is_digit tokenId = true →
       ∃ pathname,
         replaced "0x%7Bid%7D" tokenId (URL_pathname u) pathname
         ∧ contains pathname tokenId
         ∧ normalizeOpenSeaUrl url tokenId
           = Return (URL_href (URL_searchParams_set (URL_set_pathname u pathname)
                                 "format" "json"))
         ∧ (URL_pathname (URL_set_pathname u pathname) = pathname →
            URL_pathname (URL_searchParams_set (URL_set_pathname u pathname)
                            "format" "json")
            = URL_pathname (URL_set_pathname u pathname) →
            ∃ u', normalizeOpenSeaUrl url tokenId = Return (URL_href u')
                  ∧ URL_pathname u' = pathname
                  ∧ contains (URL_pathname u') tokenId)).
Proof.
  unfold normalizeOpenSeaUrl. split_and!.
  - destruct (URL_new url) as [u|e]; cbn [mbind completion_bind try_catch];
      [|by eexists].
    destruct (_ || _); by eexists.
  - by intros e ->.
  - intros u -> Hno. cbn [mbind completion_bind].
    replace (_ || _) with true; [done|]. symmetry. apply orb_true_iff.
    destruct Hno as [Hhost|Hpath].
    + left. apply negb_true_iff. by apply String.eqb_neq.
    + right. apply negb_true_iff. rewrite <- includes_contains in Hpath.
      by destruct (Str.includes _ _).
  - intros u -> Hhost Hpath Htoken. cbn [mbind completion_bind].
    apply String.eqb_eq in Hhost as ->.
    pose proof Hpath as Hinc. apply includes_contains in Hinc as ->.
    cbn [negb orb try_catch].
    assert (replaced "0x%7Bid%7D" tokenId (URL_pathname u)
              (replace_all {| source := Lit "0x%7Bid%7D"; ngroups := 0 |}
                 (URL_pathname u) tokenId)) as Hrep.
    { apply replace_all_Lit. by apply digits_no_dollar. }
    pose proof (replaced_contains _ _ _ _ _ Hrep Hpath) as Hin.
    set (pathname := replace_all _ _ _) in *.
    exists pathname. split; [exact Hrep|]. split; [exact Hin|]. split; [reflexivity|].
    intros Hset Hquery.
    exists (URL_searchParams_set (URL_set_pathname u pathname) "format" "json").
    split; [reflexivity|]. rewrite Hquery, Hset. by split.
Qed.

Lemma normalizeOpenSeaUrl_spec_witness :
  (URL_new (UrlApi := WebUrl.api) "not a url" = Throw TypeError
   ∧ normalizeOpenSeaUrl (H := WebUrl.api) "not a url" "42" = Return "not a url")
  ∧ (URL_new (UrlApi := WebUrl.api) "https://api.niftygateway.com/path"
       = Return nifty_url
     ∧ URL_host (UrlApi := WebUrl.api) nifty_url ≠ "api.opensea.io"
     ∧ normalizeOpenSeaUrl (H := WebUrl.api) "https://api.niftygateway.com/path" "42"
       = Return "https://api.niftygateway.com/path")
  ∧ (URL_new (UrlApi := WebUrl.api) opensea_template = Return opensea_template_url
     ∧ URL_host (UrlApi := WebUrl.api) opensea_template_url = "api.opensea.io"
     ∧ contains (URL_pathname (UrlApi := WebUrl.api) opensea_template_url) "0x%7Bid%7D"
     ∧ Str.forallb is_digit "42" = true
     ∧ (∃ u', normalizeOpenSeaUrl (H := WebUrl.api) opensea_template "42"
                = Return (URL_href (UrlApi := WebUrl.api) u')
              ∧ URL_pathname (UrlApi := WebUrl.api) u' = "/api/v1/asset/42")
     ∧ normalizeOpenSeaUrl (H := WebUrl.api) opensea_template "42"
       = Return "https://api.opensea.io/api/v1/asset/42?format=json").
Proof.
  split; [|split].
  - split; [reflexivity|].
    exact (proj1 (proj2 (normalizeOpenSeaUrl_spec (H := WebUrl.api) "not a url" "42"))
             TypeError eq_refl).
  - assert (URL_host (UrlApi := WebUrl.api) nifty_url ≠ "api.opensea.io") as Hh
      by discriminate.
    split_and!; [reflexivity|exact Hh|].
    exact (proj1 (proj2 (proj2
             (normalizeOpenSeaUrl_spec (H := WebUrl.api)
                "https://api.niftygateway.com/path" "42")))
             nifty_url eq_refl (or_introl Hh)).
  - assert (contains (URL_pathname (UrlApi := WebUrl.api) opensea_template_url)
              "0x%7Bid%7D") as Hc by (by exists "/api/v1/asset/", "").
    split_and!; [reflexivity|reflexivity|exact Hc|reflexivity| |reflexivity].
    destruct (proj2 (proj2 (proj2
                (normalizeOpenSeaUrl_spec (H := WebUrl.api) opensea_template "42")))
                opensea_template_url eq_refl eq_refl Hc eq_refl)
      as (pathname & Hrep & _ & _ & Hlaw).
    assert (replaced "0x%7Bid%7D" "42" "/api/v1/asset/0x%7Bid%7D" "/api/v1/asset/42")
      as Hgood.
    { do 14 (apply replaced_keep; [reflexivity|]).
      apply (replaced_hit "0x%7Bid%7D" "42" "" ""). constructor. }
    change (URL_pathname (UrlApi := WebUrl.api) opensea_template_url)
      with "/api/v1/asset/0x%7Bid%7D" in Hrep.
    pose proof (replaced_fun _ _ _ _ _ _ Hrep Hgood) as ->.
    destruct (Hlaw eq_refl eq_refl) as (u' & Hres & Hpath & _).
    by exists u'.
Defined.

(** A text that is not a token id: with [$&] in the place of the token
    id, [String.prototype.replace] puts back the text that was matched,
    the placeholder itself. *)
Lemma normalizeOpenSeaUrl_dollar :
  URL_new (UrlApi := WebUrl.api) opensea_template = Return opensea_template_url
  ∧ URL_host (UrlApi := WebUrl.api) opensea_template_url = "api.opensea.io"
  ∧ contains (URL_pathname (UrlApi := WebUrl.api) opensea_template_url) "0x%7Bid%7D"
  ∧ normalizeOpenSeaUrl (H := WebUrl.api) opensea_template "$&"
    = Return "https://api.opensea.io/api/v1/asset/0x%7Bid%7D?format=json"
  ∧ ¬ ∃ pathname,
        replaced "0x%7Bid%7D" "$&"
          (URL_pathname (UrlApi := WebUrl.api) opensea_template_url) pathname
        ∧ normalizeOpenSeaUrl (H := WebUrl.api) opensea_template "$&"
          = Return (URL_href
                      (URL_searchParams_set
                         (URL_set_pathname (UrlApi := WebUrl.api)
                            opensea_template_url pathname)
                         "format" "json")).
Proof.
  split_and!; [reflexivity|reflexivity|by exists "/api/v1/asset/", ""|reflexivity|].
  intros (pathname & Hrep & Hres).
  assert (replaced "0x%7Bid%7D" "$&" "/api/v1/asset/0x%7Bid%7D" "/api/v1/asset/$&")
    as Hgood.
  { do 14 (apply replaced_keep; [reflexivity|]).
    apply (replaced_hit "0x%7Bid%7D" "$&" "" ""). constructor. }
  change (URL_pathname (UrlApi := WebUrl.api) opensea_template_url)
    with "/api/v1/asset/0x%7Bid%7D" in Hrep.
  rewrite (replaced_fun _ _ _ _ _ _ Hrep Hgood) in Hres.
  vm_compute in Hres. discriminate.
Qed.

(** ** normalizeNiftyGatewayUrl *)

(** C9.  For every URL implementation and every string that parses to a
    URL with host [api.niftygateway.com], [normalizeNiftyGatewayUrl]
    sets the path to the path followed by a slash, whatever the path ends
    with.  It is therefore not idempotent: there is such a URL whose
    second normalisation differs from the first and has a path ending in
    two slashes. *)
Theorem normalizeNiftyGatewayUrl_appends_slash :
  (∀ (api : UrlApi) url u,
     URL_new url = Return u →
     URL_host u = "api.niftygateway.com" →
     normalizeNiftyGatewayUrl url
     = Return (URL_href (URL_set_pathname u (URL_pathname u +:+ "/"))))
  ∧ (∃ url once twice u1 u2,
       normalizeNiftyGatewayUrl (H := WebUrl.api) url = Return once
       ∧ normalizeNiftyGatewayUrl (H := WebUrl.api) once = Return twice
       ∧ twice ≠ once
       ∧ WebUrl.parse once = Return u1
       ∧ WebUrl.host u1 = "api.niftygateway.com"
       ∧ WebUrl.pathname u1 = "/path/"
       ∧ WebUrl.parse twice = Return u2
       ∧ WebUrl.pathname u2 = "/path//").
Proof.
  split.
  - intros api url u Hu Hhost. unfold normalizeNiftyGatewayUrl.
    rewrite Hu. cbn [mbind completion_bind]. rewrite Hhost.
    by rewrite String.eqb_refl.
  - exists "https://api.niftygateway.com/path",
      "https://api.niftygateway.com/path/", "https://api.niftygateway.com/path//".
    eexists. eexists. split_and!; try by vm_compute.
Qed.

Lemma normalizeNiftyGatewayUrl_appends_slash_witness :
  URL_new (UrlApi := WebUrl.api) "https://api.niftygateway.com/path" = Return nifty_url
  ∧ URL_host (UrlApi := WebUrl.api) nifty_url = "api.niftygateway.com"
  ∧ normalizeNiftyGatewayUrl (H := WebUrl.api) "https://api.niftygateway.com/path"
    = Return (URL_href (URL_set_pathname (UrlApi := WebUrl.api) nifty_url
                          (URL_pathname (UrlApi := WebUrl.api) nifty_url +:+ "/"))).
Proof.
  split_and!; [reflexivity|reflexivity|].
  exact (proj1 normalizeNiftyGatewayUrl_appends_slash WebUrl.api
           "https://api.niftygateway.com/path" nifty_url eq_refl eq_refl).
Defined.


(** ** The examples of the specification *)

Example isAddress_sample : isAddress sample_address = true.
Proof. reflexivity. Qed.

Example isAddress_too_long : isAddress (sample_address +:+ "9") = false.
Proof. reflexivity. Qed.

Example parseNftUrl_sample :
  parseNftUrl ("https://rarible.com/token/" +:+ sample_address +:+ ":7")
  = Some (Some sample_address, Some "7").
Proof. reflexivity. Qed.

Example addressesEqual_case :
  addressesEqual (VStr "0xABCdef") (VStr "0xabcDEF") = Return true
  ∧ addressesEqual (VStr "0xABCdef") (VStr "0xabcDE0") = Return false.
Proof. by split. Qed.

Example ipfsUrl_protocol :
  ipfsUrl ("ipfs://ipfs/" +:+ sample_cid +:+ "/sub/path")
  = "https://ipfs.io/ipfs/" +:+ sample_cid +:+ "/sub/path".
Proof. reflexivity. Qed.

Example ipfsUrl_trailing_slash :
  ipfsUrl ("ipfs://ipfs/" +:+ sample_cid +:+ "/")
  = "ipfs://ipfs/" +:+ sample_cid +:+ "/".
Proof. reflexivity. Qed.

Example normalizeOpenSeaUrl_template :
  normalizeOpenSeaUrl (H := WebUrl.api) opensea_template "42"
  = Return "https://api.opensea.io/api/v1/asset/42?format=json".
Proof. reflexivity. Qed.

Example normalizeNiftyGatewayUrl_path :
  normalizeNiftyGatewayUrl (H := WebUrl.api) "https://api.niftygateway.com/path"
  = Return "https://api.niftygateway.com/path/".
Proof. reflexivity. Qed.

Example normalizeTokenUrl_ipfs :
  normalizeTokenUrl (H := WebUrl.api) sample_cid "42"
  = Return ("https://ipfs.io/ipfs/" +:+ sample_cid).
Proof. reflexivity. Qed.

Example fixIncorrectImageField_imageUrl :
  fixIncorrectImageField (VObj {["imageUrl" := VStr "a.png"]})
  = Return (VObj (<["image" := VStr "a.png"]> {["imageUrl" := VStr "a.png"]})).
Proof. reflexivity. Qed.

Example fixIncorrectImageField_image :
  fixIncorrectImageField (VObj {["image" := VStr "b.png"]})
  = Return (VObj {["image" := VStr "b.png"]}).
Proof. reflexivity. Qed.

Example fixIncorrectImageField_null : fixIncorrectImageField VNull = Return VNull.
Proof. reflexivity. Qed.

Example isNftMetadata_sample :
  isNftMetadata (VObj sample_metadata) = true ∧ isNftMetadata VNull = false.
Proof. by split. Qed.

Example promiseAny_mixed :
  promiseAny sample_promises = Fulfilled 2 (Plain "x")
  ∧ promiseAny [Rejected 1 (Plain "a"); Rejected 0 (Plain "b")]
    = Rejected 1 (Array [Plain "a"; Plain "b"])
  ∧ promiseAny ([] : list (promise (jsval string))) = Rejected 0 (Array []).
Proof. by split_and!. Qed.


(** * Further properties of the module *)

(** ** Addresses and token URLs *)

Lemma toLowerCase_len (s : string) : Str.len (Str.toLowerCase s) = Str.len s.
Proof. induction s as [|c s IH]; [done|]. cbn. by rewrite IH. Qed.

Lemma hex_lower_char (c : ascii) : mem hex c = true → mem hex (Str.lower_char c) = true.
Proof. by destruct c as [[] [] [] [] [] [] [] []]. Qed.

Lemma forallb_toLowerCase (p : ascii → bool) (s : string) :
  (∀ c, p c = true → p (Str.lower_char c) = true) →
  Str.forallb p s = true → Str.forallb p (Str.toLowerCase s) = true.
Proof.
  intros Hp. induction s as [|c s IH]; [done|]. cbn [Str.forallb Str.toLowerCase].
  intros [Hc Hs]%andb_true_iff. by rewrite (Hp c Hc), IH.
Qed.

Lemma address_shape_lower (a : string) :
  address_shape a → address_shape (Str.toLowerCase a).
Proof.
  intros (h & -> & Hlen & Hhex). exists (Str.toLowerCase h). split_and!.
  - done.
  - by rewrite toLowerCase_len.
  - by apply forallb_toLowerCase; [apply hex_lower_char|].
Qed.

(** X2.  What [parseNftUrl] returns, when it returns a pair, are two
    strings, never [undefined]: the first passes [isAddress], the second
    is a non-empty run of decimal digits, and the URL begins with the
    rarible prefix followed by the two, joined by a colon. *)
Theorem parseNftUrl_address (url : string) (r : option string * option string) :
  parseNftUrl url = Some r →
  ∃ a d,
    r = (Some a, Some d)
    ∧ isAddress a = true
    ∧ d ≠ "" ∧ Str.forallb is_digit d = true
    ∧ Str.starts_with ("https://rarible.com/token/" +:+ a +:+ ":" +:+ d) url = true.
Proof.
  intros (a & d & rest & -> & Ha & [Hne Hd] & _ & ->)%parseNftUrl_Some.
  exists a, d. split_and!; [done| |done..|].
  - by apply test_fixed.
  - rewrite <- !app_assoc. apply starts_with_app.
Qed.

Lemma parseNftUrl_address_witness :
  parseNftUrl sample_nft_url = Some (Some sample_address, Some "7")
  ∧ ∃ a d,
      (Some sample_address, Some "7") = (Some a, Some d)
      ∧ isAddress a = true
      ∧ d ≠ "" ∧ Str.forallb is_digit d = true
      ∧ Str.starts_with ("https://rarible.com/token/" +:+ a +:+ ":" +:+ d)
          sample_nft_url = true.
Proof.
  split; [reflexivity|].
  exact (parseNftUrl_address sample_nft_url _ eq_refl).
Defined.

(** X3.  The lower-case form of an address is an address, and
    [addressesEqual] finds the two equal. *)
Theorem isAddress_lower (a : string) :
  isAddress a = true →
  isAddress (Str.toLowerCase a) = true
  ∧ addressesEqual (VStr a) (VStr (Str.toLowerCase a)) = Return true.
Proof.
  intros Ha%test_fixed. split.
  - apply test_fixed. by apply address_shape_lower.
  - cbn. by rewrite toLowerCase_idempotent, String.eqb_refl.
Qed.

Lemma isAddress_lower_witness :
  isAddress checksum_address = true
  ∧ isAddress (Str.toLowerCase checksum_address) = true
  ∧ addressesEqual (VStr checksum_address) (VStr (Str.toLowerCase checksum_address))
    = Return true.
Proof.
  split; [reflexivity|]. exact (isAddress_lower checksum_address eq_refl).
Defined.

(** X4.  [addressesEqual] is symmetric on all arguments, whatever they
    are; on strings it is reflexive and transitive, so it is an
    equivalence there. *)
Theorem addressesEqual_equivalence :
  (∀ a b, addressesEqual a b = addressesEqual b a)
  ∧ (∀ s, addressesEqual (VStr s) (VStr s) = Return true)
  ∧ (∀ s t u,
       addressesEqual (VStr s) (VStr t) = Return true →
       addressesEqual (VStr t) (VStr u) = Return true →
       addressesEqual (VStr s) (VStr u) = Return true).
Proof.
  split_and!.
  - intros a b. destruct a, b; cbn; try done. by rewrite String.eqb_sym.
  - intros s. cbn. by rewrite String.eqb_refl.
  - intros s t u. cbn. intros [= Hst%String.eqb_eq] [= Htu%String.eqb_eq].
    by rewrite Hst, Htu, String.eqb_refl.
Qed.

Lemma addressesEqual_equivalence_witness :
  addressesEqual (VStr "0xAB") (VStr "0xab") = Return true
  ∧ addressesEqual (VStr "0xab") (VStr "0xaB") = Return true
  ∧ addressesEqual (VStr "0xAB") (VStr "0xaB") = Return true.
Proof.
  split; [reflexivity|]. split; [reflexivity|].
  exact (proj2 (proj2 addressesEqual_equivalence) "0xAB" "0xab" "0xaB" eq_refl eq_refl).
Defined.

(** ** IPFS resolution *)

Lemma base58_no_slash (c : ascii) :
  mem base58 c = true → negb (Ascii.eqb c "/") = true.
Proof. by destruct c as [[] [] [] [] [] [] [] []]. Qed.

Lemma forallb_weaken (p q : ascii → bool) (s : string) :
  (∀ c, p c = true → q c = true) → Str.forallb p s = true → Str.forallb q s = true.
Proof.
  intros Hpq. induction s as [|c s IH]; [done|]. cbn [Str.forallb].
  intros [Hc Hs]%andb_true_iff. by rewrite (Hpq c Hc), IH.
Qed.

(** X5.  Whatever the input, the result of [ipfsUrl] (default gateway)
    has neither the [ipfs://ipfs/] form nor the form of a bare CID, so a
    second application changes nothing. *)
Theorem ipfsUrl_resolved (url : string) :
  (∀ cid path, ¬ ipfs_protocol_shape (ipfsUrl url) cid path)
  ∧ ¬ bare_cid_shape (ipfsUrl url)
  ∧ ipfsUrl (ipfsUrl url) = ipfsUrl url.
Proof.
  assert ((∀ cid path, ¬ ipfs_protocol_shape (ipfsUrl url) cid path)
          ∧ ¬ bare_cid_shape (ipfsUrl url)) as [Hp Hb].
  { unfold ipfsUrl. rewrite ipfsUrl_with_eq.
    destruct (protocol_parts url) as [[cid path]|] eqn:E.
    - by apply is_http_url_no_ipfs.
    - destruct (test IPFS_HASH_RE url) eqn:Et; [by apply is_http_url_no_ipfs|].
      split.
      + intros cid path Hs%protocol_parts_shape. congruence.
      + intros Hb%ipfs_hash_test. congruence. }
  split_and!; [done..|]. by apply ipfsUrl_with_other.
Qed.

(** X6.  The two spellings of a CID resolve alike: for a bare CID [cid],
    [ipfs://ipfs/<cid>] and [cid] itself both give
    [https://ipfs.io/ipfs/<cid>], and a path after the locator is kept
    after the gateway URL. *)
Theorem ipfsUrl_same_cid (cid : string) :
  bare_cid_shape cid →
  ipfsUrl cid = "https://ipfs.io/ipfs/" +:+ cid
  ∧ ipfsUrl ("ipfs://ipfs/" +:+ cid) = ipfsUrl cid
  ∧ (∀ p, p ≠ "" → Str.forallb (mem dot) p = true →
       ipfsUrl ("ipfs://ipfs/" +:+ cid +:+ "/" +:+ p) = ipfsUrl cid +:+ "/" +:+ p).
Proof.
  intros Hbare.
  assert (cid ≠ "" ∧ no_slash cid = true) as [Hne Hslash].
  { destruct Hbare as (h & -> & _ & Hh). split; [done|].
    rewrite app_cons, app_cons, app_nil_l. cbn [no_slash Str.forallb].
    unfold no_slash. cbn [Str.forallb]. apply andb_true_iff. split; [done|].
    apply andb_true_iff. split; [done|].
    by apply (forallb_weaken (mem base58)); [apply base58_no_slash|]. }
  assert (ipfsUrl cid = "https://ipfs.io/ipfs/" +:+ cid) as Hcid.
  { unfold ipfsUrl. rewrite (ipfsUrl_with_bare _ _ Hbare).
    unfold ipfsUrlDefault. cbn [default]. by rewrite app_nil_r. }
  split_and!.
  - done.
  - rewrite Hcid. unfold ipfsUrl.
    rewrite (ipfsUrl_with_protocol _ _ cid "").
    + unfold ipfsUrlDefault. cbn [default]. by rewrite app_nil_r.
    + split_and!; [by rewrite app_nil_r|done|done|by left].
  - intros p Hp Hdot. rewrite Hcid. unfold ipfsUrl.
    rewrite (ipfsUrl_with_protocol _ _ cid ("/" +:+ p)).
    + unfold ipfsUrlDefault. cbn [default]. by rewrite !app_assoc.
    + split_and!; [done..|]. right. by exists p.
Qed.

Lemma ipfsUrl_same_cid_witness :
  bare_cid_shape sample_cid
  ∧ ipfsUrl ("ipfs://ipfs/" +:+ sample_cid) = ipfsUrl sample_cid
  ∧ ipfsUrl ("ipfs://ipfs/" +:+ sample_cid +:+ "/" +:+ "1.png")
    = ipfsUrl sample_cid +:+ "/" +:+ "1.png".
Proof.
  assert (bare_cid_shape sample_cid) as Hb.
  { exists "Nt5T9HSXKLXZ3kmciU4Tm6q9R8JEm5ifJkPoxapjyRUR". by split_and!. }
  destruct (ipfsUrl_same_cid sample_cid Hb) as (_ & H1 & H2).
  split; [exact Hb|]. split; [exact H1|]. by apply H2.
Defined.

(** ** URL normalisation *)

Lemma normalizeOpenSeaUrl_returns `{UrlApi} (url tokenId : string) :
  ∃ r, normalizeOpenSeaUrl url tokenId = Return r.
Proof.
  unfold normalizeOpenSeaUrl.
  destruct (URL_new url) as [u|e]; cbn [mbind completion_bind try_catch];
    [|by eexists].
  destruct (_ || _); by eexists.
Qed.

Lemma normalizeNiftyGatewayUrl_returns `{UrlApi} (url : string) :
  ∃ r, normalizeNiftyGatewayUrl url = Return r.
Proof.
  unfold normalizeNiftyGatewayUrl.
  destruct (URL_new url) as [u|e]; cbn [mbind completion_bind try_catch];
    [|by eexists].
  destruct (negb _); by eexists.
Qed.

Lemma normalizeOpenSeaUrl_other `{UrlApi} (url tokenId : string) :
  (∀ u, URL_new url = Return u → URL_host u ≠ "api.opensea.io") →
  normalizeOpenSeaUrl url tokenId = Return url.
Proof.
  intros Hhost. unfold normalizeOpenSeaUrl.
  destruct (URL_new url) as [u|e] eqn:E; cbn [mbind completion_bind try_catch];
    [|done].
  specialize (Hhost u eq_refl). apply String.eqb_neq in Hhost as ->. done.
Qed.

Lemma normalizeNiftyGatewayUrl_other `{UrlApi} (url : string) :
  (∀ u, URL_new url = Return u → URL_host u ≠ "api.niftygateway.com") →
  normalizeNiftyGatewayUrl url = Return url.
Proof.
  intros Hhost. unfold normalizeNiftyGatewayUrl.
  destruct (URL_new url) as [u|e] eqn:E; cbn [mbind completion_bind try_catch];
    [|done].
  specialize (Hhost u eq_refl). apply String.eqb_neq in Hhost as ->. done.
Qed.

(** X7.  For every URL implementation, [normalizeNiftyGatewayUrl]
    returns and does not raise, and it returns its argument unchanged
    when the argument does not parse as a URL or parses to a URL of
    another host. *)
Theorem normalizeNiftyGatewayUrl_unchanged `{UrlApi} (url : string) :
  (∃ r, normalizeNiftyGatewayUrl url = Return r)
  ∧ (∀ e, URL_new url = Throw e → normalizeNiftyGatewayUrl url = Return url)
  ∧ (∀ u, URL_new url = Return u → URL_host u ≠ "api.niftygateway.com" →
       normalizeNiftyGatewayUrl url = Return url).
Proof.
  split_and!.
  - apply normalizeNiftyGatewayUrl_returns.
  - intros e He. apply normalizeNiftyGatewayUrl_other. intros u. by rewrite He.
  - intros u Hu Hhost. apply normalizeNiftyGatewayUrl_other.
    intros u'. rewrite Hu. by intros [= <-].
Qed.

Lemma normalizeNiftyGatewayUrl_unchanged_witness :
  (URL_new (UrlApi := WebUrl.api) "not a url" = Throw TypeError
   ∧ normalizeNiftyGatewayUrl (H := WebUrl.api) "not a url" = Return "not a url")
  ∧ (URL_new (UrlApi := WebUrl.api) opensea_template = Return opensea_template_url
     ∧ URL_host (UrlApi := WebUrl.api) opensea_template_url ≠ "api.niftygateway.com"
     ∧ normalizeNiftyGatewayUrl (H := WebUrl.api) opensea_template
       = Return opensea_template).
Proof.
  pose proof (normalizeNiftyGatewayUrl_unchanged (H := WebUrl.api) "not a url")
    as (_ & H1 & _).
  pose proof (normalizeNiftyGatewayUrl_unchanged (H := WebUrl.api) opensea_template)
    as (_ & _ & H2).
  assert (URL_host (UrlApi := WebUrl.api) opensea_template_url
          ≠ "api.niftygateway.com") as Hh by discriminate.
  split.
  - split; [reflexivity|]. exact (H1 TypeError eq_refl).
  - split_and!; [reflexivity|exact Hh|]. exact (H2 opensea_template_url eq_refl Hh).
Defined.

(** X8.  For every URL implementation, [normalizeTokenUrl] returns and
    does not raise; its result is a fixed point of [ipfsUrl], so it is
    never an [ipfs://ipfs/] locator or a bare CID; and for an argument
    that does not parse, or parses to a URL whose host is neither
    [api.opensea.io] nor [api.niftygateway.com], the result is [ipfsUrl]
    of the argument. *)
Theorem normalizeTokenUrl_resolves `{UrlApi} (url tokenId : string) :
  (∃ r, normalizeTokenUrl url tokenId = Return r ∧ ipfsUrl r = r)
  ∧ ((∀ u, URL_new url = Return u →
        URL_host u ≠ "api.opensea.io" ∧ URL_host u ≠ "api.niftygateway.com") →
     normalizeTokenUrl url tokenId = Return (ipfsUrl url)).
Proof.
  unfold normalizeTokenUrl. split.
  - destruct (normalizeOpenSeaUrl_returns url tokenId) as [r1 ->].
    cbn [mbind completion_bind].
    destruct (normalizeNiftyGatewayUrl_returns r1) as [r2 ->].
    cbn [mbind completion_bind]. eexists. split; [reflexivity|].
    apply ipfsUrl_idempotent.
  - intros Hhost. rewrite normalizeOpenSeaUrl_other by (intros u Hu; by apply Hhost).
    cbn [mbind completion_bind].
    rewrite normalizeNiftyGatewayUrl_other by (intros u Hu; by apply Hhost).
    done.
Qed.

Lemma normalizeTokenUrl_resolves_witness :
  (∀ u, URL_new (UrlApi := WebUrl.api) sample_cid = Return u →
     URL_host u ≠ "api.opensea.io" ∧ URL_host u ≠ "api.niftygateway.com")
  ∧ normalizeTokenUrl (H := WebUrl.api) sample_cid "42"
    = Return (ipfsUrl sample_cid).
Proof.
  assert (∀ u, URL_new (UrlApi := WebUrl.api) sample_cid = Return u →
            URL_host u ≠ "api.opensea.io" ∧ URL_host u ≠ "api.niftygateway.com")
    as Hnone by (intros u Hu; discriminate Hu).
  split; [exact Hnone|].
  exact (proj2 (normalizeTokenUrl_resolves (H := WebUrl.api) sample_cid "42") Hnone).
Defined.

(** ** Metadata *)

Lemma has_property_insert (o : gmap string value) (k k' : string) (v : value) :
  has_property (VObj o) k = true → has_property (VObj (<[k' := v]> o)) k = true.
Proof.
  cbn. rewrite !bool_decide_eq_true. intros Hk.
  destruct (decide (k' = k)) as [->|Hne].
  - by rewrite lookup_insert_eq.
  - by rewrite lookup_insert_ne.
Qed.

(** X9.  On a metadata record, [normalizeNftMetadata] is idempotent,
    and its result is again a metadata record, with the image already
    resolved, and passes [isNftMetadata]. *)
Theorem normalizeNftMetadata_idempotent (data : gmap string value) :
  is_NftMetadata_record data →
  normalizeNftMetadata (normalizeNftMetadata data) = normalizeNftMetadata data
  ∧ is_NftMetadata_record (normalizeNftMetadata data)
  ∧ (∃ image, normalizeNftMetadata data !! "image" = Some (VStr image)
              ∧ ipfsUrl image = image)
  ∧ isNftMetadata (VObj (normalizeNftMetadata data)) = true.
Proof.
  intros (Hname & Hdesc & image & Himage).
  assert (normalizeNftMetadata data = <["image" := VStr (ipfsUrl image)]> data) as Hn.
  { unfold normalizeNftMetadata. by rewrite Himage. }
  split_and!.
  - unfold normalizeNftMetadata at 1. rewrite Hn at 1. rewrite lookup_insert_eq.
    cbn [default from_option id normalizeImageUrl_field]. unfold normalizeImageUrl.
    by rewrite ipfsUrl_idempotent, Hn, insert_insert_eq.
  - rewrite Hn. split_and!.
    + by rewrite lookup_insert_ne.
    + by rewrite lookup_insert_ne.
    + eexists. by rewrite lookup_insert_eq.
  - exists (ipfsUrl image). rewrite Hn, lookup_insert_eq.
    split; [done|apply ipfsUrl_idempotent].
  - unfold isNftMetadata. cbn [truthy typeof negb orb].
    change (negb (String.eqb "object" "object")) with false. cbn iota.
    rewrite !andb_true_iff.
    split_and!; apply has_property_insert; cbn; by rewrite bool_decide_eq_true.
Qed.

Lemma normalizeNftMetadata_idempotent_witness :
  is_NftMetadata_record sample_metadata
  ∧ normalizeNftMetadata (normalizeNftMetadata sample_metadata)
    = normalizeNftMetadata sample_metadata
  ∧ isNftMetadata (VObj (normalizeNftMetadata sample_metadata)) = true.
Proof.
  assert (is_NftMetadata_record sample_metadata) as Hrec.
  { split_and!; [by eexists..|]. by eexists. }
  split; [exact Hrec|].
  destruct (normalizeNftMetadata_idempotent sample_metadata Hrec)
    as (Hi & _ & _ & Hm).
  by split.
Defined.

Lemma fixIncorrectImageField_obj (o : gmap string value) :
  fixIncorrectImageField (VObj o) =
    Return (match default VUndefined (o !! "image"),
                  default VUndefined (o !! "imageUrl") with
            | VUndefined, VStr u => VObj (<["image" := VStr u]> o)
            | _, _ => VObj o
            end).
Proof.
  unfold fixIncorrectImageField. cbn.
  destruct (o !! "image") as [[]|]; cbn; try done;
    by destruct (o !! "imageUrl") as [[]|].
Qed.

Lemma fixIncorrectImageField_other (data : value) :
  (∀ o, data ≠ VObj o) → fixIncorrectImageField data = Return data.
Proof.
  intros Hno. unfold fixIncorrectImageField.
  destruct data as [| |b|q|s|l|o]; try done.
  - by destruct b.
  - cbn. by rewrite orb_true_r.
  - cbn. by rewrite orb_true_r.
  - by destruct (Hno o).
Qed.

(** X10.  [fixIncorrectImageField] on an object whose [image] is
    [undefined] and whose [imageUrl] is a string gives a copy in which
    [image] holds that string and every other field, [imageUrl]
    included, is as before; an object with an [image], an object without
    a string [imageUrl], and anything that is not an object comes back
    as it is. *)
Theorem fixIncorrectImageField_spec (data : value) :
  (∀ (o : gmap string value) u,
     data = VObj o →
     default VUndefined (o !! "image") = VUndefined →
     o !! "imageUrl" = Some (VStr u) →
     ∃ o' : gmap string value,
       fixIncorrectImageField data = Return (VObj o')
       ∧ o' !! "image" = Some (VStr u)
       ∧ ∀ k, k ≠ "image" → o' !! k = o !! k)
  ∧ (∀ o : gmap string value,
       data = VObj o →
       default VUndefined (o !! "image") ≠ VUndefined
       ∨ (∀ u, o !! "imageUrl" ≠ Some (VStr u)) →
       fixIncorrectImageField data = Return data)
  ∧ ((∀ o, data ≠ VObj o) → fixIncorrectImageField data = Return data).
Proof.
  split_and!.
  - intros o u -> Hi Hu. exists (<["image" := VStr u]> o).
    rewrite fixIncorrectImageField_obj, Hi, Hu. split_and!.
    + done.
    + by rewrite lookup_insert_eq.
    + intros k Hk. by rewrite lookup_insert_ne.
  - intros o -> Hor. rewrite fixIncorrectImageField_obj.
    destruct (default VUndefined (o !! "image")) eqn:Ei; try done.
    destruct Hor as [?|Hu]; [done|].
    destruct (o !! "imageUrl") as [[]|] eqn:Eu; try done. by destruct (Hu s).
  - apply fixIncorrectImageField_other.
Qed.

Lemma fixIncorrectImageField_spec_witness :
  default VUndefined (makersplace_metadata !! "image") = VUndefined
  ∧ makersplace_metadata !! "imageUrl" = Some (VStr "https://example.com/a.png")
  ∧ (∃ o' : gmap string value,
       fixIncorrectImageField (VObj makersplace_metadata) = Return (VObj o')
       ∧ o' !! "image" = Some (VStr "https://example.com/a.png")
       ∧ ∀ k, k ≠ "image" → o' !! k = makersplace_metadata !! k)
  ∧ default VUndefined (sample_metadata !! "image") ≠ VUndefined
  ∧ fixIncorrectImageField (VObj sample_metadata) = Return (VObj sample_metadata)
  ∧ (∀ o, VNull ≠ VObj o)
  ∧ fixIncorrectImageField VNull = Return VNull.
Proof.
  assert (default VUndefined (sample_metadata !! "image") ≠ VUndefined) as Hi
    by discriminate.
  assert (∀ o, VNull ≠ VObj o) as Hn by discriminate.
  split_and!; [reflexivity|reflexivity| |exact Hi| |exact Hn|].
  - exact (proj1 (fixIncorrectImageField_spec (VObj makersplace_metadata))
             makersplace_metadata _ eq_refl eq_refl eq_refl).
  - exact (proj1 (proj2 (fixIncorrectImageField_spec (VObj sample_metadata)))
             sample_metadata eq_refl (or_introl Hi)).
  - exact (proj2 (proj2 (fixIncorrectImageField_spec VNull)) Hn).
Defined.

(** X11.  [fixIncorrectImageField] returns on every value and is
    idempotent: applied to its own result it returns that result. *)
Theorem fixIncorrectImageField_idempotent (data : value) :
  ∃ r, fixIncorrectImageField data = Return r
       ∧ fixIncorrectImageField r = Return r.
Proof.
  assert ((∀ o, data ≠ VObj o) ∨ ∃ o, data = VObj o) as [Hno|[o ->]].
  { destruct data; try (by left); right; by eexists. }
  { exists data. by rewrite !(fixIncorrectImageField_other _ Hno). }
  rewrite fixIncorrectImageField_obj.
  destruct (default VUndefined (o !! "image")) eqn:Ei;
    try (eexists; split; [reflexivity|];
         by rewrite fixIncorrectImageField_obj, Ei).
  destruct (default VUndefined (o !! "imageUrl")) eqn:Eu;
    try (eexists; split; [reflexivity|];
         by rewrite fixIncorrectImageField_obj, Ei, Eu).
  eexists. split; [reflexivity|].
  by rewrite fixIncorrectImageField_obj, lookup_insert_eq.
Qed.

(** X12.  A record that names its picture [imageUrl], with [name] and
    [description] present and no [image], fails [isNftMetadata];
    [fixIncorrectImageField] turns it into a record that passes it,
    whose [image] is the string of [imageUrl]. *)
Theorem fixIncorrectImageField_repairs (o : gmap string value) (u : string) :
  is_Some (o !! "name") → is_Some (o !! "description") →
  o !! "image" = None → o !! "imageUrl" = Some (VStr u) →
  isNftMetadata (VObj o) = false
  ∧ ∃ o' : gmap string value,
      fixIncorrectImageField (VObj o) = Return (VObj o')
      ∧ isNftMetadata (VObj o') = true
      ∧ is_NftMetadata_record o'.
Proof.
  intros Hn Hd Hi Hu. split.
  - unfold isNftMetadata. cbn. rewrite Hi.
    rewrite (bool_decide_eq_false_2 (is_Some None)) by (by intros [? ?]).
    by rewrite andb_false_r.
  - exists (<["image" := VStr u]> o).
    rewrite fixIncorrectImageField_obj, Hi, Hu. split_and!; [done| |].
    + unfold isNftMetadata. cbn.
      rewrite !bool_decide_eq_true_2; [done|..].
      all: by rewrite ?lookup_insert_eq, ?lookup_insert_ne by done.
    + split_and!.
      * by rewrite lookup_insert_ne.
      * by rewrite lookup_insert_ne.
      * exists u. by rewrite lookup_insert_eq.
Qed.

Lemma fixIncorrectImageField_repairs_witness :
  is_Some (makersplace_metadata !! "name")
  ∧ is_Some (makersplace_metadata !! "description")
  ∧ makersplace_metadata !! "image" = None
  ∧ makersplace_metadata !! "imageUrl" = Some (VStr "https://example.com/a.png")
  ∧ isNftMetadata (VObj makersplace_metadata) = false
  ∧ ∃ o' : gmap string value,
      fixIncorrectImageField (VObj makersplace_metadata) = Return (VObj o')
      ∧ isNftMetadata (VObj o') = true
      ∧ is_NftMetadata_record o'.
Proof.
  assert (is_Some (makersplace_metadata !! "name")) as Hn by (by eexists).
  assert (is_Some (makersplace_metadata !! "description")) as Hd by (by eexists).
  split_and!; [exact Hn|exact Hd|reflexivity|reflexivity|..];
    apply (fixIncorrectImageField_repairs makersplace_metadata
             "https://example.com/a.png" Hn Hd eq_refl eq_refl).
Defined.

Lemma isNftMetadataMixedInJsonSchema_true (data : value) :
  isNftMetadataMixedInJsonSchema data = Return true → json_schema_shape data.
Proof.
  destruct data as [| |b|q|s|l|o];
    try (unfold isNftMetadataMixedInJsonSchema; by case_match).
  rewrite isNftMetadataMixedInJsonSchema_obj. intros [= Hb].
  rewrite !andb_true_iff, !strict_eq_str_lookup in Hb.
  destruct Hb as [[[[[[[Htitle Htype] Hn] Hi] Hd] Hnt] Hit] Hdt].
  destruct (proj1 (leaf_string_property o "name") (conj Hn Hnt))
    as (properties & Hp & Hname).
  destruct (proj1 (leaf_string_property o "image") (conj Hi Hit))
    as (? & Hp' & Himage).
  destruct (proj1 (leaf_string_property o "description") (conj Hd Hdt))
    as (? & Hp'' & Hdesc).
  rewrite Hp in Hp', Hp''. injection Hp' as <-. injection Hp'' as <-.
  by exists o, properties.
Qed.

Lemma description_of_shape (o properties : gmap string value) (field : string) :
  o !! "properties" = Some (VObj properties) →
  string_property properties field →
  ∃ d, description_of (VObj o) field = Some (VStr d).
Proof.
  intros Hp (f & d & Hf & _ & Hd). exists d. cbn. by rewrite Hp, Hf.
Qed.

Lemma fixNftMetadataMixedInJsonSchema_eq (data : value) :
  fixNftMetadataMixedInJsonSchema data =
    Return (<["name" := if truthy (default VUndefined (description_of data "name"))
                        then default VUndefined (description_of data "name")
                        else VStr ""]>
           (<["description" :=
                if truthy (default VUndefined (description_of data "description"))
                then default VUndefined (description_of data "description")
                else VStr ""]>
           (<["image" := if truthy (default VUndefined (description_of data "image"))
                         then default VUndefined (description_of data "image")
                         else VStr ""]> ∅))).
Proof.
  unfold fixNftMetadataMixedInJsonSchema, or_empty.
  by rewrite !description_path_eq.
Qed.

Lemma or_empty_str (d : string) :
  (if truthy (default VUndefined (Some (VStr d)))
   then default VUndefined (Some (VStr d)) else VStr "") = VStr d.
Proof. cbn. by destruct (String.eqb_spec d "") as [->|]. Qed.

(** X13.  [fixNftMetadataMixedInJsonSchema] returns, for every input, a
    record that passes [isNftMetadata].  On a document accepted by
    [isNftMetadataMixedInJsonSchema] the three fields of the record are
    the three strings under [properties.*.description], the record is a
    metadata record, and [normalizeNftMetadata] resolves its image. *)
Theorem fixNftMetadataMixedInJsonSchema_canonical (data : value) :
  (∃ r : gmap string value,
     fixNftMetadataMixedInJsonSchema data = Return r
     ∧ isNftMetadata (VObj r) = true)
  ∧ (isNftMetadataMixedInJsonSchema data = Return true →
     ∃ (r : gmap string value) n d i,
       fixNftMetadataMixedInJsonSchema data = Return r
       ∧ description_of data "name" = Some (VStr n)
       ∧ description_of data "description" = Some (VStr d)
       ∧ description_of data "image" = Some (VStr i)
       ∧ r = <["name" := VStr n]>
             (<["description" := VStr d]> (<["image" := VStr i]> ∅))
       ∧ is_NftMetadata_record r
       ∧ normalizeNftMetadata r !! "image" = Some (VStr (ipfsUrl i))).
Proof.
  rewrite fixNftMetadataMixedInJsonSchema_eq. split.
  - eexists. split; [reflexivity|]. unfold isNftMetadata. cbn.
    rewrite !bool_decide_eq_true_2; [done|..].
    all: by rewrite ?lookup_insert_eq, ?lookup_insert_ne by done.
  - intros (o & properties & -> & _ & _ & Hp & Hn & Hi & Hd)%isNftMetadataMixedInJsonSchema_true.
    destruct (description_of_shape o properties "name" Hp Hn) as [n En].
    destruct (description_of_shape o properties "description" Hp Hd) as [d Ed].
    destruct (description_of_shape o properties "image" Hp Hi) as [i Ei].
    rewrite En, Ed, Ei, !or_empty_str.
    eexists _, n, d, i. split_and!; [reflexivity|done..| |].
    + split_and!; [by eexists..|]. by exists i.
    + unfold normalizeNftMetadata. by rewrite lookup_insert_eq.
Qed.

Lemma fixNftMetadataMixedInJsonSchema_canonical_witness :
  isNftMetadataMixedInJsonSchema complete_schema_document = Return true
  ∧ ∃ (r : gmap string value) n d i,
      fixNftMetadataMixedInJsonSchema complete_schema_document = Return r
      ∧ description_of complete_schema_document "name" = Some (VStr n)
      ∧ description_of complete_schema_document "description" = Some (VStr d)
      ∧ description_of complete_schema_document "image" = Some (VStr i)
      ∧ r = <["name" := VStr n]>
            (<["description" := VStr d]> (<["image" := VStr i]> ∅))
      ∧ is_NftMetadata_record r
      ∧ normalizeNftMetadata r !! "image" = Some (VStr (ipfsUrl i)).
Proof.
  split; [reflexivity|].
  exact (proj2 (fixNftMetadataMixedInJsonSchema_canonical complete_schema_document)
           eq_refl).
Defined.

(** ** Promises *)

(** X14.  On operations that do not settle with a thenable, when
    [promiseAny] resolves, it resolves with the value and at the tick of
    one of the operations that succeeded, and no operation succeeded at
    an earlier tick. *)
Theorem promiseAny_resolves_earliest {T} (ps : list (promise (jsval T))) t v :
  Forall no_thenable ps →
  promiseAny ps = Fulfilled t v →
  Fulfilled t v ∈ ps ∧ ∀ t' v', Fulfilled t' v' ∈ ps → t ≤ t'.
Proof.
  intros Hps Hp. rewrite promiseAny_plain in Hp by done.
  destruct (first_rejection _) as [[t0 v0]|] eqn:Er.
  - injection Hp as -> ->. split; [by apply first_rejection_swap_Some|].
    intros t' v' Hin. eapply first_rejection_earliest; [exact Er|].
    apply list_elem_of_fmap. by exists (Fulfilled t' v').
  - by destruct (all_fulfilled _) as [[t0 vs]|].
Qed.

Lemma promiseAny_resolves_earliest_witness :
  Forall no_thenable sample_promises
  ∧ promiseAny sample_promises = Fulfilled 2 (Plain "x")
  ∧ Fulfilled 2 (Plain "x") ∈ sample_promises
  ∧ ∀ t' v', Fulfilled t' v' ∈ sample_promises → 2 ≤ t'.
Proof.
  assert (Forall no_thenable sample_promises) as Hps by (by repeat constructor).
  split; [exact Hps|]. split; [reflexivity|].
  exact (promiseAny_resolves_earliest sample_promises 2 (Plain "x") Hps eq_refl).
Defined.

(** X15.  On operations that do not settle with a thenable, when
    [promiseAny] rejects, it rejects with the array of the reasons of
    all operations, one for each operation and in the order of the
    operations, and no operation failed after the tick of the
    rejection. *)
Theorem promiseAny_reasons {T} (ps : list (promise (jsval T))) t reason :
  Forall no_thenable ps →
  promiseAny ps = Rejected t reason →
  ∃ reasons,
    reason = Array reasons
    ∧ Forall2 (λ p e, ∃ t', p = Rejected t' e ∧ t' ≤ t) ps reasons.
Proof.
  intros Hps. rewrite promiseAny_plain by done.
  destruct (first_rejection _) as [[t0 v0]|]; [done|].
  destruct (all_fulfilled _) as [[t0 vs]|] eqn:Ea; [|done].
  intros [= <- <-]. exists vs. split; [done|]. by apply all_fulfilled_swap_reasons.
Qed.

Lemma promiseAny_reasons_witness :
  Forall no_thenable failing_promises
  ∧ promiseAny failing_promises = Rejected 4 (Array [Plain "timeout"; Plain "refused"])
  ∧ ∃ reasons,
      Array [Plain "timeout"; Plain "refused"] = Array reasons
      ∧ Forall2 (λ p e, ∃ t', p = Rejected t' e ∧ t' ≤ 4) failing_promises reasons.
Proof.
  assert (Forall no_thenable failing_promises) as Hps by (by repeat constructor).
  split; [exact Hps|]. split; [reflexivity|].
  exact (promiseAny_reasons failing_promises 4 _ Hps eq_refl).
Defined.

(** X16.  On operations that do not settle with a thenable,
    [promiseAny] never settles exactly when no operation succeeds and
    some operation never settles. *)
Theorem promiseAny_pending {T} (ps : list (promise (jsval T))) :
  Forall no_thenable ps →
  promiseAny ps = Pending
  ↔ Forall (λ p, ¬ succeeded p) ps ∧ Exists (λ p, p = Pending) ps.
Proof.
  intros Hps. rewrite promiseAny_plain by done. split.
  - destruct (first_rejection _) as [[t0 v0]|] eqn:Er; [done|].
    apply first_rejection_swap_None in Er.
    destruct (all_fulfilled _) as [[t0 vs]|] eqn:Ea; [done|]. intros _.
    split; [done|]. destruct (pending_or_failed ps Er) as [Hall|?]; [|done].
    apply all_fulfilled_swap in Hall as [? Hs]. congruence.
  - intros [Hno Hex]. apply first_rejection_swap_None in Hno as ->.
    destruct (all_fulfilled _) as [[t0 vs]|] eqn:Ea; [|done].
    assert (Forall failed ps) as Hall by (apply all_fulfilled_swap; by eexists).
    apply Exists_exists in Hex as (p & Hp & ->).
    rewrite Forall_forall in Hall. by destruct (Hall _ Hp) as (? & ? & ?).
Qed.

Lemma promiseAny_pending_witness :
  Forall no_thenable stuck_promises
  ∧ (promiseAny stuck_promises = Pending
     ↔ Forall (λ p, ¬ succeeded p) stuck_promises
       ∧ Exists (λ p, p = Pending) stuck_promises).
Proof.
  assert (Forall no_thenable stuck_promises) as Hps by (by repeat constructor).
  split; [exact Hps|]. exact (promiseAny_pending stuck_promises Hps).
Defined.

(** X18.  On operations that do not settle with a thenable: when at
    least one operation succeeds, [promiseAny] resolves with the value of
    a successful operation; it rejects exactly when every operation
    fails; on the empty list it rejects, with the empty array. *)
Theorem promiseAny_first_success {T} (ps : list (promise (jsval T))) :
  Forall no_thenable ps →
  (Exists succeeded ps →
     ∃ t v, promiseAny ps = Fulfilled t v ∧ Fulfilled t v ∈ ps)
  ∧ ((∃ t reasons, promiseAny ps = Rejected t reasons) ↔ Forall failed ps)
  ∧ promiseAny ([] : list (promise (jsval T))) = Rejected 0 (Array []).
Proof.
  intros Hps. rewrite promiseAny_plain by done. split_and!; [| |done].
  - intros Hex. destruct (first_rejection _) as [[t v]|] eqn:Er.
    + exists t, v. split; [done|]. by apply first_rejection_swap_Some.
    + apply first_rejection_swap_None in Er.
      apply Exists_exists in Hex as (p & Hp & Hs).
      rewrite Forall_forall in Er. by destruct (Er p Hp).
  - split.
    + intros (t & reasons & Hr).
      destruct (first_rejection _) as [[t' v]|]; [done|].
      apply all_fulfilled_swap.
      by destruct (all_fulfilled _) as [[t' vs]|].
    + intros Hall. pose proof (failed_not_succeeded _ Hall) as Hno.
      apply first_rejection_swap_None in Hno as ->.
      apply all_fulfilled_swap in Hall as [[t vs] ->]. by eexists _, _.
Qed.

Lemma promiseAny_first_success_witness :
  Forall no_thenable sample_promises
  ∧ Exists succeeded sample_promises
  ∧ ∃ t v, promiseAny sample_promises = Fulfilled t v
           ∧ Fulfilled t v ∈ sample_promises.
Proof.
  assert (Forall no_thenable sample_promises) as Hps by (by repeat constructor).
  assert (Exists succeeded sample_promises) as Hex.
  { apply Exists_cons_tl, Exists_cons_hd. by exists 2, (Plain "x"). }
  split; [exact Hps|]. split; [exact Hex|].
  exact (proj1 (promiseAny_first_success sample_promises Hps) Hex).
Defined.

(** ** Framing *)

(** X17.  With a 2D context and the default options (scale 1, padding
    0), the canvas has the natural size of the image, for natural sizes
    up to 2^31 - 1; smoothing is off; and an image that has pixels is
    drawn once, at the origin and at its natural size. *)
Theorem frameImage_natural_size (document : Document) (image : HTMLImageElement) :
  getContext2d document = true →
  (naturalWidth image ≤ 2147483647)%N →
  (naturalHeight image ≤ 2147483647)%N →
  ∃ canvas,
    frameImage document image default_options = Some (toDataURL document canvas)
    ∧ canvas_width canvas = Z.of_N (naturalWidth image)
    ∧ canvas_height canvas = Z.of_N (naturalHeight image)
    ∧ imageSmoothingEnabled canvas = false
    ∧ (naturalWidth image ≠ 0%N → naturalHeight image ≠ 0%N →
       drawn canvas
       = [DrawImage image 0 0 (num_of_N (naturalWidth image))
            (num_of_N (naturalHeight image))]).
Proof.
  intros Hctx Hw Hh. unfold frameImage. rewrite Hctx. eexists. split; [reflexivity|].
  assert (Z.of_N (naturalWidth image) < 2 ^ 53)%Z as Hw' by lia.
  assert (Z.of_N (naturalHeight image) < 2 ^ 53)%Z as Hh' by lia.
  cbn [framed_canvas canvas_width canvas_height imageSmoothingEnabled drawn].
  unfold frame_padding, frame_width, frame_height.
  cbn [default_options scale padding default from_option id].
  rewrite !num_of_N_times_one, !num_of_N_times_zero by done.
  change (Math_max 0 0) with 0%float. change (0 * 2)%float with 0%float.
  rewrite !num_of_N_plus_zero by done.
  rewrite !set_dimension_IntegerPart by (rewrite IntegerPart_num_of_N by done; lia).
  rewrite !IntegerPart_num_of_N by done.
  split_and!; try done.
  intros Hw0 Hh0. unfold drawImage. rewrite !num_of_N_finite by done.
  apply N.eqb_neq in Hw0 as ->. apply N.eqb_neq in Hh0 as ->. done.
Qed.

Lemma frameImage_natural_size_witness :
  getContext2d sample_document = true
  ∧ (naturalWidth sample_image ≤ 2147483647)%N
  ∧ (naturalHeight sample_image ≤ 2147483647)%N
  ∧ naturalWidth sample_image ≠ 0%N
  ∧ naturalHeight sample_image ≠ 0%N
  ∧ ∃ canvas,
      frameImage sample_document sample_image default_options
        = Some (toDataURL sample_document canvas)
      ∧ canvas_width canvas = 24%Z
      ∧ canvas_height canvas = 16%Z
      ∧ drawn canvas = [DrawImage sample_image 0 0 24 16].
Proof.
  assert (naturalWidth sample_image ≤ 2147483647)%N as Hw by (by vm_compute).
  assert (naturalHeight sample_image ≤ 2147483647)%N as Hh by (by vm_compute).
  split; [reflexivity|]. split; [exact Hw|]. split; [exact Hh|].
  split; [done|]. split; [done|].
  destruct (frameImage_natural_size sample_document sample_image eq_refl Hw Hh)
    as (canvas & Hc & Hcw & Hch & _ & Hd).
  exists canvas. split; [exact Hc|]. split; [exact Hcw|]. split; [exact Hch|].
  by apply Hd.
Defined.
